(** * n8n credential injector: a shallow embedding and its properties

    The repository holds six variants of one batch script
    (fetch pending rows, build a credential payload, deliver it to n8n,
    write the outcome back).  The variants are

    - [CliFlag]   injector.js, first script (CLI import, flag based, v4.0)
    - [CliSingle] injector.js, second script (CLI import, one record, v3.0)
    - [ApiA]      part_000, first script (REST API, v5.0)
    - [ApiB]      part_000, second script (REST API, flag based, v3.1)
    - [Direct]    part_001 (direct insert into credentials_entity, v7.0)
    - [Queue]     part_003 (CLI import, per-user queue, v3.1)

    part_002 is a truncated copy of the first script of injector.js.

    Conventions of the embedding.  JavaScript strings are Rocq strings
    (byte strings; the text handled here is ASCII, and a string stands for
    its UTF-8 encoding).  Exceptions are values of [exn]; a computation that
    may throw lives in the monad [M].  Everything the scripts obtain from
    outside (clock, random ids, subprocess, HTTP, SQL, Supabase) is read from
    a [World], indexed by the number of external calls made so far. *)

From Stdlib Require Import ZArith Ascii String List Lia Bool.
From stdpp Require Import base option list strings gmap sorting pretty.

Set Warnings "-register-all".

Local Open Scope string_scope.
Local Open Scope list_scope.
Local Open Scope stdpp_scope.

(** ** JavaScript values *)

(** The values the scripts manipulate.  [VBuiltin n] is an object that every
    object literal inherits from [Object.prototype] under the property name
    [n] (a built-in function such as [Object] for ["constructor"], or
    [Object.prototype] itself for ["__proto__"]). *)
Inductive jsval : Type :=
  | VUndef
  | VNull
  | VBool (b : bool)
  | VNum (z : Z)
  | VStr (s : string)
  | VArr (items : list jsval)
  | VObj (fields : list (string * jsval))
  | VBuiltin (name : string).

(** ToBoolean: what [!x], [x || y] and [if (x)] look at. *)
Definition truthy (v : jsval) : bool :=
  match v with
  | VUndef | VNull => false
  | VBool b => b
  | VNum z => negb (z =? 0)%Z
  | VStr s => negb (String.eqb s "")
  | VArr _ | VObj _ | VBuiltin _ => true
  end.

(** [a || b] *)
Definition js_or (a b : jsval) : jsval := if truthy a then a else b.

(** Lookup among the own properties of an object literal. *)
Fixpoint assoc (k : string) (fields : list (string * jsval)) : jsval :=
  match fields with
  | [] => VUndef
  | (k', v) :: rest => if String.eqb k k' then v else assoc k rest
  end.

(** The property names every object literal inherits from
    [Object.prototype]. *)
Definition object_prototype_names : list string :=
  [ "constructor"; "__defineGetter__"; "__defineSetter__"; "hasOwnProperty";
    "__lookupGetter__"; "__lookupSetter__"; "isPrototypeOf";
    "propertyIsEnumerable"; "toString"; "valueOf"; "__proto__";
    "toLocaleString" ].

Definition has_own (k : string) (fields : list (string * jsval)) : bool :=
  existsb (String.eqb k) (map fst fields).

(** [o[k]] on an object literal: an own property if there is one, else what
    the prototype chain gives, else [undefined]. *)
Definition get (fields : list (string * jsval)) (k : string) : jsval :=
  if has_own k fields then assoc k fields
  else if existsb (String.eqb k) object_prototype_names then VBuiltin k
  else VUndef.

(** [o.k] on a value that is known not to be [undefined] or [null]. *)
Definition prop (o : jsval) (k : string) : jsval :=
  match o with
  | VObj fields => get fields k
  | _ => VUndef
  end.

(** SQL equality of a column with a filter value, as [.eq(column, value)]
    asks for: a NULL column equals nothing. *)
Definition sql_eq (column value : jsval) : bool :=
  match column, value with
  | VStr a, VStr b => String.eqb a b
  | VBool a, VBool b => Bool.eqb a b
  | VNum a, VNum b => (a =? b)%Z
  | _, _ => false
  end.

(** ** String primitives *)

Definition is_lower (c : ascii) : bool :=
  let n := nat_of_ascii c in (97 <=? n)%nat && (n <=? 122)%nat.

Definition is_upper (c : ascii) : bool :=
  let n := nat_of_ascii c in (65 <=? n)%nat && (n <=? 90)%nat.

Definition upper_char (c : ascii) : ascii :=
  if is_lower c then ascii_of_nat (nat_of_ascii c - 32) else c.

Definition lower_char (c : ascii) : ascii :=
  if is_upper c then ascii_of_nat (nat_of_ascii c + 32) else c.

(** [s.toUpperCase()] and [s.toLowerCase()] on ASCII text. *)
Fixpoint toUpperCase (s : string) : string :=
  match s with
  | EmptyString => EmptyString
  | String c r => String (upper_char c) (toUpperCase r)
  end.

Fixpoint toLowerCase (s : string) : string :=
  match s with
  | EmptyString => EmptyString
  | String c r => String (lower_char c) (toLowerCase r)
  end.

(** [s.charAt(0)]: the first character as a string, or the empty string. *)
Definition charAt0 (s : string) : string :=
  match s with
  | EmptyString => EmptyString
  | String c _ => String c EmptyString
  end.

(** [s.slice(1)] *)
Definition slice_from1 (s : string) : string :=
  match s with
  | EmptyString => EmptyString
  | String _ r => r
  end.

(** [s.slice(0, n)] and [s.substring(0, n)] for a literal [n >= 0]. *)
Fixpoint slice_to (n : nat) (s : string) : string :=
  match n, s with
  | O, _ => EmptyString
  | S n', String c r => String c (slice_to n' r)
  | S _, EmptyString => EmptyString
  end.

(** [s.replace(a, b)] for one-character strings [a], [b]: only the first
    occurrence is replaced. *)
Fixpoint replace_first (a b : ascii) (s : string) : string :=
  match s with
  | EmptyString => EmptyString
  | String c r =>
      if Ascii.eqb c a then String b r else String c (replace_first a b r)
  end.

(** [s.includes(needle)] *)
Fixpoint includes (s needle : string) : bool :=
  String.prefix needle s ||
  match s with
  | EmptyString => false
  | String _ r => includes r needle
  end.

(** [needle] occurs in [s]. *)
Definition is_substring (needle s : string) : Prop :=
  exists pre post, s = pre +:+ needle +:+ post.

(** ** Dates *)

(** The instant [new Date()] returns: milliseconds since the epoch, as
    [Date.now()] gives them, and the broken-down UTC fields that
    [toISOString] prints. *)
Record Date : Type := mkDate {
  epoch_ms : Z;
  year : N;
  month : N;
  day : N;
  hours : N;
  minutes : N;
  seconds : N;
  millis : N
}.

Definition digit (n : N) : ascii := ascii_of_N (48 + n mod 10).

Definition pad2 (n : N) : string :=
  String (digit (n / 10)) (String (digit n) EmptyString).

Definition pad3 (n : N) : string := String (digit (n / 100)) (pad2 n).

Definition pad4 (n : N) : string := String (digit (n / 1000)) (pad3 n).

(** [d.toISOString()]: ["YYYY-MM-DDTHH:mm:ss.sssZ"]; a year above 9999 is
    printed with a sign and six digits. *)
Definition toISOString (d : Date) : string :=
  (if (year d <=? 9999)%N then pad4 (year d)
   else "+" +:+ String (digit (year d / 100000))
                  (String (digit (year d / 10000)) (pad4 (year d))))
  +:+ "-" +:+ pad2 (month d) +:+ "-" +:+ pad2 (day d)
  +:+ "T" +:+ pad2 (hours d) +:+ ":" +:+ pad2 (minutes d)
  +:+ ":" +:+ pad2 (seconds d) +:+ "." +:+ pad3 (millis d) +:+ "Z".

(** [new Date().toISOString().slice(0, 16).replace('T', ' ')] *)
Definition minute_stamp (d : Date) : string :=
  replace_first "T" " " (slice_to 16 (toISOString d)).

(** The date, a space and the time to the minute: ["YYYY-MM-DD HH:mm"]. *)
Definition stamp_text (d : Date) : string :=
  pad4 (year d) +:+ "-" +:+ pad2 (month d) +:+ "-" +:+ pad2 (day d)
  +:+ " " +:+ pad2 (hours d) +:+ ":" +:+ pad2 (minutes d).

(** ** JSON.stringify *)

Definition hex_digit (n : N) : ascii :=
  if (n <? 10)%N then ascii_of_N (48 + n) else ascii_of_N (87 + n).

(** Two lower-case hexadecimal digits of a byte. *)
Definition hex_byte (c : ascii) : string :=
  let n := N_of_ascii c in
  String (hex_digit (n / 16)) (String (hex_digit (n mod 16)) EmptyString).

Definition dquote : ascii := ascii_of_N 34.
Definition backslash : ascii := ascii_of_N 92.

(** One character inside a JSON string literal (QuoteJSONString). *)
Definition json_char (c : ascii) : string :=
  let n := N_of_ascii c in
  if (n =? 8)%N then String backslash "b"
  else if (n =? 9)%N then String backslash "t"
  else if (n =? 10)%N then String backslash "n"
  else if (n =? 12)%N then String backslash "f"
  else if (n =? 13)%N then String backslash "r"
  else if (n =? 34)%N then String backslash (String dquote EmptyString)
  else if (n =? 92)%N then String backslash (String backslash EmptyString)
  else if (n <? 32)%N then String backslash ("u00" +:+ hex_byte c)
  else String c EmptyString.

Fixpoint json_chars (s : string) : string :=
  match s with
  | EmptyString => EmptyString
  | String c r => json_char c +:+ json_chars r
  end.

Definition json_quote (s : string) : string :=
  String dquote (json_chars s +:+ String dquote EmptyString).

Fixpoint join (sep : string) (l : list string) : string :=
  match l with
  | [] => EmptyString
  | [x] => x
  | x :: rest => x +:+ sep +:+ join sep rest
  end.

(** [JSON.stringify(v)] without indentation; [None] is [undefined].
    Function-valued and [undefined] properties are left out, and such array
    items print as [null]. *)
Fixpoint JSON_stringify (v : jsval) : option string :=
  match v with
  | VUndef => None
  | VNull => Some "null"
  | VBool true => Some "true"
  | VBool false => Some "false"
  | VNum z => Some (pretty z)
  | VStr s => Some (json_quote s)
  | VArr items =>
      Some ("[" +:+ join "," (map (fun x => default "null" (JSON_stringify x)) items)
                +:+ "]")
  | VObj fields =>
      Some ("{" +:+ join ","
              (omap (fun kv => match JSON_stringify (snd kv) with
                               | Some s => Some (json_quote (fst kv) +:+ ":" +:+ s)
                               | None => None
                               end) fields)
                +:+ "}")
  | VBuiltin n => if String.eqb n "__proto__" then Some "{}" else None
  end.

(** [JSON.stringify(v)] where the script stores the result in a column. *)
Definition json_column (v : jsval) : jsval :=
  match JSON_stringify v with
  | Some s => VStr s
  | None => VUndef
  end.

(** The value [JSON.parse(JSON.stringify(v))] reads back; [None] where
    [JSON.stringify] gives [undefined]. *)
Fixpoint json_value (v : jsval) : option jsval :=
  match v with
  | VUndef => None
  | VArr items => Some (VArr (map (fun x => default VNull (json_value x)) items))
  | VObj fields =>
      Some (VObj (omap (fun kv => match json_value (snd kv) with
                                  | Some x => Some (fst kv, x)
                                  | None => None
                                  end) fields))
  | VBuiltin n => if String.eqb n "__proto__" then Some (VObj []) else None
  | other => Some other
  end.

(** ** Rows, exceptions, the outside world *)

Inductive variant : Type :=
  | CliFlag | CliSingle | ApiA | ApiB | Direct | Queue.

(** The variants whose queue is the [injection_requested] flag. *)
Definition flag_based (v : variant) : bool :=
  match v with
  | CliFlag | ApiA | ApiB | Direct => true
  | CliSingle | Queue => false
  end.

(** A row of [user_social_credentials] as supabase-js returns it, and the
    record objects the scripts build from one: the key columns [user_id] and
    [provider] are text; every other column is a property that may be
    absent, [null] or a value. *)
Record Row : Type := mkRow {
  user_id : string;
  provider : string;
  cols : gmap string jsval
}.

(** [row.k] for a column other than the two key columns. *)
Definition col (r : Row) (k : string) : jsval := default VUndef (cols r !! k).

(** JSON data, as the store returns it in a row; numbers are the integers,
    as in [jsval]. *)
Inductive json : Type :=
  | JNull
  | JBool (b : bool)
  | JNum (z : Z)
  | JStr (s : string)
  | JArr (items : list json)
  | JObj (fields : list (string * json)).

(** The same data as a value of the script. *)
Fixpoint of_json (j : json) : jsval :=
  match j with
  | JNull => VNull
  | JBool b => VBool b
  | JNum z => VNum z
  | JStr s => VStr s
  | JArr items => VArr (map of_json items)
  | JObj fields => VObj (map (fun kv => (fst kv, of_json (snd kv))) fields)
  end.

(** The texts of the items of an array joined by commas, as
    [Array.prototype.join] does it; [None] when an item has no text. *)
Fixpoint join_texts (l : list (option string)) : option string :=
  match l with
  | [] => Some EmptyString
  | [x] => x
  | x :: rest =>
      match x, join_texts rest with
      | Some a, Some b => Some (a +:+ "," +:+ b)
      | _, _ => None
      end
  end.

(** ToString of JSON data, as a template literal applies it.  An object
    prints as ["[object Object]"], unless it has a property [toString] of
    its own: that is data, not a function, and the conversion is a
    TypeError ([None]).  Inside an array, [null] prints as nothing. *)
Fixpoint json_text (j : json) : option string :=
  match j with
  | JNull => Some "null"
  | JBool true => Some "true"
  | JBool false => Some "false"
  | JNum z => Some (pretty z)
  | JStr s => Some s
  | JArr items =>
      join_texts (map (fun x => match x with
                                | JNull => Some EmptyString
                                | _ => json_text x
                                end) items)
  | JObj fields =>
      if existsb (String.eqb "toString") (map fst fields) then None
      else Some "[object Object]"
  end.

(** The record context [credData] of the CLI transport, for everything the
    transport reads of it: [credData.user_id] ([None] when the property is
    absent), [credData.provider] and [credData.token_source].  The user id
    is any JSON data; a transport only copies the other two. *)
Record Context : Type := mkContext {
  ctx_user_id : option json;
  ctx_provider : jsval;
  ctx_token_source : jsval
}.

(** The context a record of the table is.  A record is used as a context
    wherever a transport is handed one. *)
Definition context_of (r : Row) : Context :=
  mkContext (Some (JStr (user_id r))) (VStr (provider r)) (col r "token_source").

Coercion context_of : Row >-> Context.

(** A thrown JavaScript error: its [message] and its [code] (set by the
    PostgreSQL driver, [undefined] on an [Error] the scripts create). *)
Record exn : Type := mkExn { message : string; code : jsval }.

Definition Error (msg : string) : exn := mkExn msg VUndef.

(** What an HTTP response lets the script read. *)
Record Response : Type := mkResponse {
  resp_ok : bool;
  resp_status : Z;
  resp_statusText : string;
  resp_text : exn + string;
  resp_json : exn + jsval
}.

(** A byte is a character; a buffer is a list of bytes. *)
Abbreviation byte := ascii.

(** The answers of everything outside the script.  Each function is indexed
    by the number of external calls the run has made before this one. *)
Record World : Type := mkWorld {
  w_uuid : nat -> string;                         (* crypto.randomUUID() *)
  w_clock : nat -> Date;                          (* new Date(), Date.now() *)
  w_random : nat -> nat -> byte;                  (* crypto.randomBytes: call, index *)
  w_sha256 : list byte -> list byte;              (* createHash('sha256') *)
  w_aes_encrypt : list byte -> list byte -> list byte;  (* AES-256, one block *)
  w_aes_decrypt : list byte -> list byte -> list byte;
  w_writeFile : nat -> option exn;                (* fs.writeFile *)
  w_exec : nat -> exn + (string * string);        (* execAsync: stdout, stderr *)
  w_unlink : nat -> option exn;                   (* fs.unlink *)
  w_fetch : nat -> exn + Response;                (* fetch *)
  w_pg_query : nat -> exn + Z;                    (* pgClient.query: rowCount *)
  w_connect : nat -> option exn;                  (* pgClient.connect *)
  w_diagnostics : nat -> bool;                    (* verdict of the schema check *)
  w_select : nat -> option string;                (* Supabase select: error.message *)
  w_update : nat -> option string;                (* Supabase update: error.message *)
  w_config : string -> option string;             (* CONFIG, read from process.env *)
  w_createClient : string -> string -> option exn (* createClient(url, key): what it throws *)
}.

(** A call that leaves the process. *)
Inductive call : Type :=
  | CWriteFile (path : string) (document : jsval)
  | CExec (command : string)
  | CUnlink (path : string)
  | CFetch (url : string) (cookie : option jsval) (body : option string)
  | CPgInsert (values : list jsval)
  | CUpdate (userId provider : string) (tokenSource : option jsval)
            (updateData : gmap string jsval).

(** The state a run threads: the shared table, the number of external calls
    made, the calls that left the process (latest first) and the warnings
    printed (latest first). *)
Record State : Type := mkState {
  table : list Row;
  ticks : nat;
  calls : list call;
  warnings : list string
}.

Inductive outcome (A : Type) : Type :=
  | Ok (a : A)
  | Throw (e : exn).
Arguments Ok {A} a.
Arguments Throw {A} e.

(** Computations that read and change the state and may throw. *)
Definition M (A : Type) : Type := State -> outcome A * State.

Definition ret {A} (a : A) : M A := fun s => (Ok a, s).

Definition bind {A B} (m : M A) (f : A -> M B) : M B :=
  fun s => match m s with
           | (Ok a, s') => f a s'
           | (Throw e, s') => (Throw e, s')
           end.

Definition throw {A} (e : exn) : M A := fun s => (Throw e, s).

(** [try { m } catch (error) { h error }] *)
Definition try_catch {A} (m : M A) (h : exn -> M A) : M A :=
  fun s => match m s with
           | (Ok a, s') => (Ok a, s')
           | (Throw e, s') => h e s'
           end.

(** [try { m } finally { f }] where [f] itself never throws. *)
Definition try_finally {A} (m : M A) (f : M unit) : M A :=
  fun s => match m s with
           | (r, s') => (r, snd (f s'))
           end.

Declare Scope js_scope.
Delimit Scope js_scope with js.
Notation "x <- m ;; k" := (bind m (fun x => k))
  (at level 100, m at next level, right associativity) : js_scope.
Notation "m ;;; k" := (bind m (fun _ => k))
  (at level 100, right associativity) : js_scope.
Local Open Scope js_scope.

(** The index of the next external call; the call is then counted. *)
Definition tick : M nat :=
  fun s => (Ok (ticks s), mkState (table s) (S (ticks s)) (calls s) (warnings s)).

Definition emit (c : call) : M unit :=
  fun s => (Ok tt, mkState (table s) (ticks s) (c :: calls s) (warnings s)).

(** [console.warn] *)
Definition warn (msg : string) : M unit :=
  fun s => (Ok tt, mkState (table s) (ticks s) (calls s) (msg :: warnings s)).

Definition get_table : M (list Row) := fun s => (Ok (table s), s).

Definition set_table (t : list Row) : M unit :=
  fun s => (Ok tt, mkState t (ticks s) (calls s) (warnings s)).

(** The state after one more external call, and after more warnings. *)
Definition ticked (s : State) : State :=
  mkState (table s) (S (ticks s)) (calls s) (warnings s).

Definition warned (ws : list string) (s : State) : State :=
  mkState (table s) (ticks s) (calls s) (ws ++ warnings s).

Definition lift {A} (r : exn + A) : M A :=
  match r with
  | inl e => throw e
  | inr a => ret a
  end.

(** Two ways to speak about a computation: [ensures m P] says that whatever
    [m] returns satisfies [P]; [total m P] says that [m] returns, from every
    state, a value that satisfies [P] (so it does not throw). *)
Definition ensures {A} (m : M A) (P : A -> Prop) : Prop :=
  forall s a s', m s = (Ok a, s') -> P a.

Definition total {A} (m : M A) (P : A -> Prop) : Prop :=
  forall s, exists a s', m s = (Ok a, s') /\ P a.

(** [throws m R]: whatever [m] throws satisfies [R].  [logs m P]: [m] only
    adds calls, and every call it adds satisfies [P], whether it returns or
    throws. *)
Definition throws {A} (m : M A) (R : exn -> Prop) : Prop :=
  forall s e s', m s = (Throw e, s') -> R e.

Definition logs {A} (m : M A) (P : call -> Prop) : Prop :=
  forall s, exists new, calls (snd (m s)) = new ++ calls s /\ Forall P new.

(** The calls that are write-backs. *)
Definition is_update (c : call) : Prop :=
  match c with
  | CUpdate _ _ _ _ => True
  | _ => False
  end.

(** A property of the write-backs among the calls. *)
Definition on_updates
    (G : string -> string -> option jsval -> gmap string jsval -> Prop)
    (c : call) : Prop :=
  match c with
  | CUpdate u p t d => G u p t d
  | _ => True
  end.

(** A computation that leaves the table and the calls alone. *)
Definition quiet {A} (m : M A) : Prop :=
  forall s, calls (snd (m s)) = calls s /\ table (snd (m s)) = table s.

(** [evolves R m]: [m] takes the table to one that [R] relates to it,
    whether it returns or throws. *)
Definition evolves {A} (R : relation (list Row)) (m : M A) : Prop :=
  forall s, R (table s) (table (snd (m s))).


Definition changes_only (u p : string) : relation (list Row) :=
  Forall2 (fun r r' => user_id r' = user_id r /\ provider r' = provider r /\
                       ((user_id r <> u \/ provider r <> p) -> r' = r)).

(** ** The shared store *)

Definition is_null (v : jsval) : bool :=
  match v with
  | VNull | VUndef => true
  | _ => false
  end.

(** Timestamp columns hold instants, [VNum ms]; anything else sorts as
    NULL. *)
Definition instant (v : jsval) : option Z :=
  match v with
  | VNum z => Some z
  | _ => None
  end.

(** [ORDER BY column ASC] of PostgreSQL: ascending, NULLs last. *)
Definition key_le (a b : option Z) : Prop :=
  match a, b with
  | Some x, Some y => (x <= y)%Z
  | _, None => True
  | None, Some _ => False
  end.

Definition by_column (k : string) : relation Row :=
  fun r1 r2 => key_le (instant (col r1 k)) (instant (col r2 k)).

Global Instance key_le_dec a b : Decision (key_le a b).
Proof. destruct a, b; simpl; apply _. Defined.

Global Instance by_column_dec k r1 r2 : Decision (by_column k r1 r2).
Proof. unfold by_column. apply _. Defined.

(** [.order(column, { ascending: true })] *)
Definition order_by (k : string) (rows : list Row) : list Row :=
  merge_sort (by_column k) rows.

(** [.update(updateData)] on one row: the listed columns are overwritten,
    the others are kept. *)
Definition apply_update (updateData : gmap string jsval) (r : Row) : Row :=
  mkRow (user_id r) (provider r) (updateData ∪ cols r).

(** The rows [.eq('user_id', u).eq('provider', p)] selects, with
    [.eq('token_source', ts)] when the script adds that filter. *)
Definition matches (userId providerName : string) (tokenSource : option jsval)
    (r : Row) : bool :=
  String.eqb (user_id r) userId && String.eqb (provider r) providerName &&
  match tokenSource with
  | Some ts => sql_eq (col r "token_source") ts
  | None => true
  end.

Definition update_rows (userId providerName : string)
    (tokenSource : option jsval) (updateData : gmap string jsval)
    (rows : list Row) : list Row :=
  map (fun r => if matches userId providerName tokenSource r
                then apply_update updateData r else r) rows.

(** The pending invariant of the flag-based variants:
    [.eq('injection_requested', true).eq('injected_to_n8n', false)]. *)
Definition is_pending (r : Row) : bool :=
  sql_eq (col r "injection_requested") (VBool true) &&
  sql_eq (col r "injected_to_n8n") (VBool false).

(** The filter of the queue variant:
    [.eq('user_id', userId).eq('injected_to_n8n', false).is('injection_error', null)]. *)
Definition is_queued (userId : string) (r : Row) : bool :=
  String.eqb (user_id r) userId &&
  sql_eq (col r "injected_to_n8n") (VBool false) &&
  is_null (col r "injection_error").

(** The check every validating variant makes on a fetched row:
    [!row.access_token || !row.client_id || !row.client_secret]. *)
Definition incomplete (row : Row) : bool :=
  negb (truthy (col row "access_token")) ||
  negb (truthy (col row "client_id")) ||
  negb (truthy (col row "client_secret")).

(** The rows of a fetch that pass the check, and the three columns the
    check reads. *)
Definition complete_rows (data : list Row) : list Row :=
  List.filter (fun r => negb (incomplete r)) data.

Definition required_columns : list string :=
  [ "access_token"; "client_id"; "client_secret" ].

(** What the specification asks of the data of a write-back: the request
    flag is cleared, and the data records a success with a credential id or
    a failure with a message. *)
Definition clears_request (d : gmap string jsval) : Prop :=
  d !! "injection_requested" = Some (VBool false).

Definition records_success (d : gmap string jsval) (cid : jsval) : Prop :=
  d !! "injected_to_n8n" = Some (VBool true) /\
  d !! "injection_error" = Some VNull /\
  truthy cid = true /\
  d !! "n8n_credential_id" = Some cid.

Definition records_failure (d : gmap string jsval) (msg : string) : Prop :=
  d !! "injected_to_n8n" = Some (VBool false) /\
  msg <> "" /\
  d !! "injection_error" = Some (VStr msg).

Definition good_update (d : gmap string jsval) : Prop :=
  clears_request d /\
  ((exists cid, records_success d cid) \/ (exists msg, records_failure d msg)).

(** ** The provider table and the payload *)

Definition credentialTypes : list (string * jsval) :=
  [ ("google", VStr "googleOAuth2Api");
    ("spotify", VStr "spotifyOAuth2Api");
    ("github", VStr "githubOAuth2Api");
    ("discord", VStr "discordOAuth2Api");
    ("linkedin", VStr "linkedInOAuth2Api") ].

(** The five providers of the table. *)
Definition supported_providers : list string := map fst credentialTypes.

(** [provider.charAt(0).toUpperCase() + provider.slice(1)] *)
Definition capitalized (p : string) : string :=
  toUpperCase (charAt0 p) +:+ slice_from1 p.

(** [`${Capitalized} OAuth2 - ${timestamp}`] *)
Definition credential_name (p stamp : string) : string :=
  capitalized p +:+ " OAuth2 - " +:+ stamp.

(** The [data] object of the payload.  The queue variant defaults a missing
    refresh token here; the direct-insert variant adds [oauthTokenData]. *)
Definition credential_data (v : variant) (credData : Row) : jsval :=
  VObj
    ([ ("clientId", col credData "client_id");
       ("clientSecret", col credData "client_secret");
       ("accessToken", col credData "access_token");
       ("refreshToken",
         match v with
         | Queue => js_or (col credData "refresh_token") (VStr "")
         | _ => col credData "refresh_token"
         end);
       ("tokenType", VStr "Bearer");
       ("grantType", VStr "authorizationCode") ]
     ++ match v with
        | Direct =>
            [ ("oauthTokenData",
                VObj [ ("access_token", col credData "access_token");
                       ("refresh_token", col credData "refresh_token");
                       ("token_type", VStr "Bearer") ]) ]
        | _ => []
        end).

(** The record of the Google scenario and the six data fields the
    specification lists for it. *)
Definition scenario_record : Row :=
  mkRow "u1" "google"
    (list_to_map [ ("access_token", VStr "at"); ("client_id", VStr "cid");
                   ("client_secret", VStr "cs"); ("refresh_token", VStr "") ]).

Definition scenario_data : list (string * jsval) :=
  [ ("clientId", VStr "cid"); ("clientSecret", VStr "cs");
    ("accessToken", VStr "at"); ("refreshToken", VStr "");
    ("tokenType", VStr "Bearer"); ("grantType", VStr "authorizationCode") ].

Definition scenario_oauthTokenData : string * jsval :=
  ("oauthTokenData",
    VObj [ ("access_token", VStr "at"); ("refresh_token", VStr "");
           ("token_type", VStr "Bearer") ]).

(** What a transport hands back. *)
Record Result : Type := mkResult {
  success : bool;
  credentialId : jsval;
  result_message : string;
  details : jsval
}.

(** A failure carries a message. *)
Definition failure_has_message (res : Result) : Prop :=
  success res = false -> result_message res <> "".

(** ** Node's [crypto] and [Buffer] as the cipher code uses them *)

(** The bytes of a string ([Buffer.from(s, 'utf8')]). *)
Definition utf8 (s : string) : list byte := list_ascii_of_string s.

(** [buf.toString('hex')] *)
Fixpoint hex (b : list byte) : string :=
  match b with
  | [] => EmptyString
  | c :: r => hex_byte c +:+ hex r
  end.

Definition base64_alphabet : string :=
  "ABCDEFGHIJKLMNOPQRSTUVWXYZabcdefghijklmnopqrstuvwxyz0123456789+/".

(** The character of a 6-bit group (a byte whose two high bits are clear). *)
Definition base64_char (sextet : byte) : ascii :=
  default "A"%char (String.get (nat_of_ascii sextet) base64_alphabet).

Definition pad_char : ascii := "="%char.

(** Three bytes regrouped into four 6-bit groups, most significant first.
    [Ascii] lists the bits of a byte from the least significant one. *)
Definition encode3 (a b c : byte) : string :=
  match a, b, c with
  | Ascii a0 a1 a2 a3 a4 a5 a6 a7, Ascii b0 b1 b2 b3 b4 b5 b6 b7,
    Ascii c0 c1 c2 c3 c4 c5 c6 c7 =>
      String (base64_char (Ascii a2 a3 a4 a5 a6 a7 false false))
        (String (base64_char (Ascii b4 b5 b6 b7 a0 a1 false false))
           (String (base64_char (Ascii c6 c7 b0 b1 b2 b3 false false))
              (String (base64_char (Ascii c0 c1 c2 c3 c4 c5 false false))
                 EmptyString)))
  end.

Definition encode2 (a b : byte) : string :=
  match encode3 a b zero with
  | String x (String y (String z _)) =>
      String x (String y (String z (String pad_char EmptyString)))
  | s => s
  end.

Definition encode1 (a : byte) : string :=
  match encode3 a zero zero with
  | String x (String y _) =>
      String x (String y (String pad_char (String pad_char EmptyString)))
  | s => s
  end.

(** [buf.toString('base64')] *)
Fixpoint base64 (b : list byte) : string :=
  match b with
  | [] => EmptyString
  | [a] => encode1 a
  | [a; b'] => encode2 a b'
  | a :: b' :: c :: r => encode3 a b' c +:+ base64 r
  end.

(** The [StringDecoder] behind an output encoding of ['base64']: [write]
    encodes the complete groups of three bytes and holds the rest back,
    [end] encodes what is left, padded. *)
Definition decoder_write (held buf : list byte) : string * list byte :=
  let all := held ++ buf in
  let keep := (length all mod 3)%nat in
  (base64 (take (length all - keep) all), drop (length all - keep) all).

Definition decoder_end (held buf : list byte) : string :=
  let '(text, held') := decoder_write held buf in
  text +:+ base64 held'.

Definition xor_byte (a b : byte) : byte :=
  match a, b with
  | Ascii a0 a1 a2 a3 a4 a5 a6 a7, Ascii b0 b1 b2 b3 b4 b5 b6 b7 =>
      Ascii (xorb a0 b0) (xorb a1 b1) (xorb a2 b2) (xorb a3 b3)
            (xorb a4 b4) (xorb a5 b5) (xorb a6 b6) (xorb a7 b7)
  end.

Definition xor_bytes (a b : list byte) : list byte := zip_with xor_byte a b.

(** PKCS#7 padding to the 16-byte block: [n] bytes of value [n],
    [1 <= n <= 16]. *)
Definition pkcs7_pad (data : list byte) : list byte :=
  let n := (16 - length data mod 16)%nat in
  data ++ replicate n (ascii_of_nat n).

(** CBC chaining over the first [n] blocks of [input] with block cipher [E]:
    the ciphertext and the last ciphertext block. *)
Fixpoint cbc_encrypt (E : list byte -> list byte) (chain : list byte)
    (n : nat) (input : list byte) : list byte * list byte :=
  match n with
  | O => ([], chain)
  | S n' =>
      let c := E (xor_bytes (take 16 input) chain) in
      let '(out, last) := cbc_encrypt E c n' (drop 16 input) in
      (c ++ out, last)
  end.

(** The cipher object of [crypto.createCipheriv('aes-256-cbc', key, iv)]:
    the chaining block, the input bytes that do not fill a block yet, and
    the bytes its base64 decoder holds back. *)
Record Cipher : Type := mkCipher {
  cipher_chain : list byte;
  cipher_pending : list byte;
  cipher_held : list byte
}.

Definition createCipheriv (iv : list byte) : Cipher := mkCipher iv [] [].

(** [cipher.update(data, 'utf8', 'base64')]: every complete block is
    encrypted and passed to the decoder. *)
Definition cipher_update (E : list byte -> list byte) (c : Cipher)
    (data : list byte) : string * Cipher :=
  let input := cipher_pending c ++ data in
  let n := (length input / 16)%nat in
  let '(out, chain') := cbc_encrypt E (cipher_chain c) n input in
  let '(text, held') := decoder_write (cipher_held c) out in
  (text, mkCipher chain' (drop (16 * n) input) held').

(** [cipher.final('base64')]: the pending bytes are padded to one block. *)
Definition cipher_final (E : list byte -> list byte) (c : Cipher) : string :=
  let '(out, _) := cbc_encrypt E (cipher_chain c) 1 (pkcs7_pad (cipher_pending c)) in
  decoder_end (cipher_held c) out.

(** AES-256-CBC with PKCS#7 padding in one piece, as the specification
    words it: pad the plaintext, chain every block, starting from the IV. *)
Definition aes_256_cbc_pkcs7 (E : list byte -> list byte) (iv plaintext : list byte)
    : list byte :=
  let padded := pkcs7_pad plaintext in
  fst (cbc_encrypt E iv (length padded / 16) padded).

(** *** The reader of the stored string *)

Definition hex_value (c : ascii) : option N :=
  let n := N_of_ascii c in
  if (48 <=? n)%N && (n <=? 57)%N then Some (n - 48)%N
  else if (97 <=? n)%N && (n <=? 102)%N then Some (n - 87)%N
  else None.

(** Modelled from the spec: the consumer's decryption is not in this
    repository; it parses the stored string and inverts each step of
    [encrypt] (hex IV before the colon, base64 ciphertext after it, the
    same key derivation, AES-256-CBC, PKCS#7). *)
Fixpoint unhex (s : string) : option (list byte) :=
  match s with
  | EmptyString => Some []
  | String h (String l r) =>
      match hex_value h, hex_value l, unhex r with
      | Some x, Some y, Some rest => Some (ascii_of_N (16 * x + y) :: rest)
      | _, _, _ => None
      end
  | _ => None
  end.

Definition index_of (c : ascii) (s : string) : option nat :=
  (fix go (s : string) (i : nat) : option nat :=
     match s with
     | EmptyString => None
     | String c' r => if Ascii.eqb c c' then Some i else go r (S i)
     end) s O.

Definition base64_value (c : ascii) : option byte :=
  match index_of c base64_alphabet with
  | Some i => Some (ascii_of_nat i)
  | None => None
  end.

Definition decode3 (w x y z : byte) : list byte :=
  match w, x, y, z with
  | Ascii w0 w1 w2 w3 w4 w5 _ _, Ascii x0 x1 x2 x3 x4 x5 _ _,
    Ascii y0 y1 y2 y3 y4 y5 _ _, Ascii z0 z1 z2 z3 z4 z5 _ _ =>
      [ Ascii x4 x5 w0 w1 w2 w3 w4 w5;
        Ascii y2 y3 y4 y5 x0 x1 x2 x3;
        Ascii z0 z1 z2 z3 z4 z5 y0 y1 ]
  end.

Fixpoint unbase64 (s : string) : option (list byte) :=
  match s with
  | EmptyString => Some []
  | String c1 (String c2 (String c3 (String c4 r))) =>
      match base64_value c1, base64_value c2 with
      | Some w, Some x =>
          if Ascii.eqb c4 pad_char then
            match r with
            | EmptyString =>
                if Ascii.eqb c3 pad_char then Some (take 1 (decode3 w x zero zero))
                else match base64_value c3 with
                     | Some y => Some (take 2 (decode3 w x y zero))
                     | None => None
                     end
            | _ => None
            end
          else
            match base64_value c3, base64_value c4, unbase64 r with
            | Some y, Some z, Some rest => Some (decode3 w x y z ++ rest)
            | _, _, _ => None
            end
      | _, _ => None
      end
  | _ => None
  end.

(** CBC decryption of [n] blocks with the inverse block cipher [D]. *)
Fixpoint cbc_decrypt (D : list byte -> list byte) (chain : list byte)
    (n : nat) (input : list byte) : list byte :=
  match n with
  | O => []
  | S n' =>
      let c := take 16 input in
      xor_bytes (D c) chain ++ cbc_decrypt D c n' (drop 16 input)
  end.

Definition pkcs7_unpad (data : list byte) : option (list byte) :=
  match last data with
  | Some p =>
      let n := nat_of_ascii p in
      if (1 <=? n)%nat && (n <=? 16)%nat && (n <=? length data)%nat
      then Some (take (length data - n) data)
      else None
  | None => None
  end.

(** The text before the first colon and the text after it. *)
Fixpoint split_colon (s : string) : option (string * string) :=
  match s with
  | EmptyString => None
  | String c r =>
      if Ascii.eqb c ":"%char then Some (EmptyString, r)
      else match split_colon r with
           | Some (a, b) => Some (String c a, b)
           | None => None
           end
  end.

Definition decrypt (sha256 : list byte -> list byte)
    (D : list byte -> list byte -> list byte)
    (secret stored : string) : option (list byte) :=
  match split_colon stored with
  | Some (ivHex, body) =>
      match unhex ivHex, unbase64 body with
      | Some iv, Some ct =>
          let key := sha256 (utf8 secret) in
          pkcs7_unpad (cbc_decrypt (D key) iv (length ct / 16) ct)
      | _, _ => None
      end
  | None => None
  end.

(** ** The scripts *)

Section Injector.

Variable W : World.

(** [CONFIG.name] and its value inside a template literal. *)
Definition CONFIG (name : string) : jsval :=
  match w_config W name with
  | Some s => VStr s
  | None => VUndef
  end.

Definition CONFIG_text (name : string) : string :=
  default "undefined" (w_config W name).

Definition randomUUID : M string := t <- tick ;; ret (w_uuid W t).

Definition new_Date : M Date := t <- tick ;; ret (w_clock W t).

(** [new Date().toISOString()] *)
Definition now_iso : M string := d <- new_Date ;; ret (toISOString d).

Definition randomBytes (n : nat) : M (list byte) :=
  t <- tick ;; ret (map (w_random W t) (seq 0 n)).

Definition writeFile (path : string) (document : jsval) : M unit :=
  t <- tick ;;
  emit (CWriteFile path document) ;;;
  match w_writeFile W t with
  | Some e => throw e
  | None => ret tt
  end.

Definition execAsync (command : string) : M (string * string) :=
  t <- tick ;; emit (CExec command) ;;; lift (w_exec W t).

Definition unlink (path : string) : M unit :=
  t <- tick ;;
  emit (CUnlink path) ;;;
  match w_unlink W t with
  | Some e => throw e
  | None => ret tt
  end.

Definition fetch (url : string) (cookie : option jsval) (body : option string)
    : M Response :=
  t <- tick ;; emit (CFetch url cookie body) ;;; lift (w_fetch W t).

Definition pg_query (values : list jsval) : M Z :=
  t <- tick ;; emit (CPgInsert values) ;;; lift (w_pg_query W t).

(** A Supabase select with its filters and its order: [{ data, error }]. *)
Definition supabase_select (keep : Row -> bool) (order : string)
    : M (option (list Row) * option string) :=
  t <- tick ;;
  match w_select W t with
  | Some msg => ret (None, Some msg)
  | None =>
      rows <- get_table ;;
      ret (Some (order_by order (List.filter keep rows)), None)
  end.

(** A Supabase update with its filters: [{ error }]. *)
Definition supabase_update (userId providerName : string)
    (tokenSource : option jsval) (updateData : gmap string jsval)
    : M (option string) :=
  t <- tick ;;
  emit (CUpdate userId providerName tokenSource updateData) ;;;
  match w_update W t with
  | Some msg => ret (Some msg)
  | None =>
      rows <- get_table ;;
      set_table (update_rows userId providerName tokenSource updateData rows) ;;;
      ret None
  end.

(** [createClient(CONFIG.SUPABASE_URL, CONFIG.SUPABASE_SERVICE_KEY)] of
    supabase-js, which refuses an address or a key it cannot use.  It
    contacts nothing. *)
Definition createClient : M unit :=
  match w_createClient W (CONFIG_text "SUPABASE_URL")
          (CONFIG_text "SUPABASE_SERVICE_KEY") with
  | Some e => throw e
  | None => ret tt
  end.

(** *** The Symmetric Cipher (part_001, class N8NCrypto) *)

(** [encrypt(data)] of an [N8NCrypto] built with [encryptionKey]. *)
Definition encrypt (encryptionKey : option string) (data : jsval) : M string :=
  iv <- randomBytes 16 ;;
  match encryptionKey with
  | None => throw (Error "The data argument must be of type string")
  | Some secret =>
      let key := w_sha256 W (utf8 secret) in
      if negb (length key =? 32)%nat then throw (Error "Invalid key length")
      else
        let cipher := createCipheriv iv in
        match JSON_stringify data with
        | None => throw (Error "The data argument must be of type string")
        | Some json =>
            let '(encrypted, cipher) :=
              cipher_update (w_aes_encrypt W key) cipher (utf8 json) in
            let final := cipher_final (w_aes_encrypt W key) cipher in
            ret (hex iv +:+ ":" +:+ encrypted +:+ final)
        end
  end.

(** *** Fetching *)

(** The record object a validating variant builds from a fetched row. *)
Definition credData_of (v : variant) (row : Row) : Row :=
  let fields : list (string * jsval) :=
    [ ("token_source", js_or (col row "token_source") (VStr "auth0"));
      ("access_token", col row "access_token");
      ("refresh_token", js_or (col row "refresh_token") (VStr ""));
      ("client_id", col row "client_id");
      ("client_secret", col row "client_secret");
      ("injection_requested_at", col row "injection_requested_at") ] in
  mkRow (user_id row) (provider row)
    (match v with
     | CliFlag =>
         <["n8n_encryption_key" := CONFIG "N8N_ENCRYPTION_KEY"]> (list_to_map fields)
     | _ => list_to_map fields
     end).

Definition skip_warning (v : variant) (row : Row) : string :=
  (match v with
   | Direct => "Skipping incomplete: "
   | _ => "Skipping incomplete credential: "
   end) +:+ user_id row +:+ "/" +:+ provider row.

(** The warnings a fetch prints for the rows it skips, in row order. *)
Definition skip_warnings (v : variant) (data : list Row) : list string :=
  map (skip_warning v) (List.filter incomplete data).

(** The validation loop of [fetchPendingCredentials]. *)
Fixpoint validate_rows (v : variant) (data valid : list Row) : M (list Row) :=
  match data with
  | [] => ret valid
  | row :: rest =>
      if incomplete row
      then warn (skip_warning v row) ;;; validate_rows v rest valid
      else validate_rows v rest (valid ++ [credData_of v row])
  end.

(** [fetchPendingCredentials(supabase)] of the flag-based variants.  (Its
    [catch] logs and rethrows, which changes nothing here.) *)
Definition fetchPendingCredentials (v : variant) : M (list Row) :=
  res <- supabase_select is_pending "injection_requested_at" ;;
  match res with
  | (_, Some msg) =>
      throw (Error ((match v with
                     | Direct => "Supabase query failed: "
                     | _ => "Database query failed: "
                     end) +:+ msg))
  | (None, None) | (Some [], None) => ret []
  | (Some data, None) => validate_rows v data []
  end.

(** [findPendingCredentials(supabase, userId)] of the queue variant: the rows
    as fetched, or [null] ([None]) on a query error. *)
Definition findPendingCredentials (userId : string) : M (option (list Row)) :=
  res <- supabase_select (is_queued userId) "created_at" ;;
  match res with
  | (_, Some _) => ret None
  | (data, None) => ret (Some (default [] data))
  end.

(** [fetchUserCredentials(supabase, userId, provider)] of the single-record
    variant; [.single()] is an error unless exactly one row matches. *)
Definition fetchUserCredentials (userId providerName : string)
    : M (option Row) :=
  t <- tick ;;
  rows <- get_table ;;
  match w_select W t, List.filter (matches userId providerName None) rows with
  | None, [data] =>
      if incomplete data then ret None
      else ret (Some (mkRow userId providerName
             (list_to_map
                [ ("access_token", col data "access_token");
                  ("refresh_token", js_or (col data "refresh_token") (VStr ""));
                  ("client_id", col data "client_id");
                  ("client_secret", col data "client_secret");
                  ("token_source", col data "token_source");
                  ("n8n_encryption_key", CONFIG "N8N_ENCRYPTION_KEY") ])))
  | _, _ => ret None
  end.

(** *** The Payload Builder *)

(** [createCredentialTemplate(credData)] of the CLI variants. *)
Definition createCredentialTemplate (v : variant) (credData : Row) : M jsval :=
  credentialId <- randomUUID ;;
  d <- new_Date ;;
  let timestamp := minute_stamp d in
  let credentialType := get credentialTypes (provider credData) in
  if negb (truthy credentialType)
  then throw (Error ("Unsupported provider: " +:+ provider credData))
  else
    let template :=
      [ ("id", VStr credentialId);
        ("name", VStr (credential_name (provider credData) timestamp));
        ("type", credentialType);
        ("data", credential_data v credData) ] in
    match v with
    | CliFlag => ret (VObj template)
    | _ =>
        createdAt <- now_iso ;;
        updatedAt <- now_iso ;;
        ret (VObj (template ++ [ ("createdAt", VStr createdAt);
                                 ("updatedAt", VStr updatedAt) ]))
    end.

(** [createCredentialPayload(credData)] of the API variants. *)
Definition createCredentialPayload (v : variant) (credData : Row) : M jsval :=
  d <- new_Date ;;
  let timestamp := minute_stamp d in
  let credentialType := get credentialTypes (provider credData) in
  if negb (truthy credentialType)
  then throw (Error ("Unsupported provider: " +:+ provider credData))
  else
    ret (VObj [ ("name", VStr (credential_name (provider credData) timestamp));
                ("type", credentialType);
                ("data", credential_data v credData) ]).

(** What [insertCredentialToDatabase] (part_001) has prepared when it
    reaches its insert. *)
Record Prepared : Type := mkPrepared {
  prepared_id : string;
  prepared_name : string;
  prepared_type : jsval;
  prepared_at : Date;
  prepared_values : list jsval
}.

(** The first part of [insertCredentialToDatabase], up to the [values] of the
    insert: id, name, type, encrypted data, and the creation time twice. *)
Definition credential_values (encryptionKey : option string) (credData : Row)
    : M Prepared :=
  timestamp <- new_Date ;;
  credentialId <- randomUUID ;;
  let credentialType := get credentialTypes (provider credData) in
  if negb (truthy credentialType)
  then throw (Error ("Unsupported provider: " +:+ provider credData))
  else
    encryptedData <- encrypt encryptionKey (credential_data Direct credData) ;;
    let credentialName :=
      credential_name (provider credData) (minute_stamp timestamp) in
    ret (mkPrepared credentialId credentialName credentialType timestamp
           [ VStr credentialId; VStr credentialName; credentialType;
             VStr encryptedData; VStr (toISOString timestamp);
             VStr (toISOString timestamp) ]).

(** The Payload Builder of each variant; for the direct insert, the values
    it hands to the insert. *)
Definition build_payload (v : variant) (credData : Row) : M jsval :=
  match v with
  | CliFlag | CliSingle | Queue => createCredentialTemplate v credData
  | ApiA | ApiB => createCredentialPayload v credData
  | Direct =>
      p <- credential_values (w_config W "N8N_ENCRYPTION_KEY") credData ;;
      ret (VArr (prepared_values p))
  end.

(** *** The Injection Transports *)

(** [o.k], which throws a TypeError on [undefined] and [null]. *)
Definition member (o : jsval) (k : string) : M jsval :=
  match o with
  | VUndef => throw (Error ("Cannot read properties of undefined (reading " +:+ k +:+ ")"))
  | VNull => throw (Error ("Cannot read properties of null (reading " +:+ k +:+ ")"))
  | _ => ret (prop o k)
  end.

(** [o[0]] *)
Definition index0 (o : jsval) : M jsval :=
  match o with
  | VUndef => throw (Error "Cannot read properties of undefined (reading 0)")
  | VNull => throw (Error "Cannot read properties of null (reading 0)")
  | VArr (x :: _) => ret x
  | VStr (String c _) => ret (VStr (String c EmptyString))
  | VObj fields => ret (get fields "0")
  | _ => ret VUndef
  end.

(** [generateCredentialJSON(credentials)].  The text written to the import
    file is represented by the value [JSON.parse] reads back from it: a bare
    array in the flag-based CLI variant, an envelope in the other two. *)
Definition generateCredentialJSON (v : variant) (credentials : list jsval) : jsval :=
  default VNull
    (json_value
       (match v with
        | CliFlag => VArr credentials
        | _ => VObj [ ("version", VStr "1.0.0");
                      ("credentials", VArr credentials);
                      ("workflows", VArr []) ]
        end)).

Definition successIndicators : list string :=
  [ "Successfully imported"; "imported"; "credential"; "Saved credential" ].

(** [successIndicators.some(i => stdout.toLowerCase().includes(i.toLowerCase()))] *)
Definition isSuccess (stdout : string) : bool :=
  existsb (fun indicator => includes (toLowerCase stdout) (toLowerCase indicator))
    successIndicators.

(** [error.message || fallback] *)
Definition message_or (e : exn) (fallback : string) : string :=
  if String.eqb (message e) "" then fallback else message e.

(** [credData.user_id.slice(0, 8)] inside a template literal: the first
    eight characters of a text, the text of the first eight items of an
    array, and a TypeError for anything else. *)
Definition user_id_slice (userId : option json) : M string :=
  match userId with
  | None => throw (Error "Cannot read properties of undefined (reading 'slice')")
  | Some JNull => throw (Error "Cannot read properties of null (reading 'slice')")
  | Some (JStr s) => ret (slice_to 8 s)
  | Some (JArr items) =>
      match json_text (JArr (firstn 8 items)) with
      | Some text => ret text
      | None => throw (Error "Cannot convert object to primitive value")
      end
  | Some _ => throw (Error "credData.user_id.slice is not a function")
  end.

(** [executeN8NImport(jsonContent, credData)] of the CLI variants.  The
    flag-based script puts the start of the user id into the name of its
    file, and computes that name before it enters its [try]. *)
Definition executeN8NImport (v : variant) (jsonContent : jsval) (credData : Context)
    : M Result :=
  d <- new_Date ;;
  suffix <- (match v with
             | CliFlag =>
                 part <- user_id_slice (ctx_user_id credData) ;; ret ("-" +:+ part)
             | _ => ret EmptyString
             end) ;;
  let tempFileName :=
    "credentials-" +:+ pretty (epoch_ms d) +:+ suffix +:+ ".json" in
  let tempFilePath := "/tmp/" +:+ tempFileName in
  try_finally
    (try_catch
       (writeFile tempFilePath jsonContent ;;;
        let command := "n8n import:credentials --input=" +:+ tempFilePath in
        out <- execAsync command ;;
        let stdout := fst out in
        if isSuccess stdout then
          parsed <- (match v with
                     | CliFlag => ret jsonContent
                     | _ => member jsonContent "credentials"
                     end) ;;
          first <- index0 parsed ;;
          credentialId <- member first "id" ;;
          ret (mkResult true credentialId
                 (match v with
                  | CliFlag => "Credentials imported successfully via N8N CLI (flag-based)"
                  | _ => "Credentials imported successfully via N8N CLI"
                  end)
                 (VObj ([ ("method", VStr (match v with
                                           | CliFlag => "flag_based_northflank_n8n_cli"
                                           | Queue => "northflank_n8n_cli_queue"
                                           | _ => "northflank_n8n_cli"
                                           end));
                          ("output", VStr (slice_to 500 stdout));
                          ("provider", ctx_provider credData);
                          ("tokenSource", ctx_token_source credData) ]
                        ++ match v with
                           | CliFlag =>
                               [ ("user_id",
                                  from_option of_json VUndef (ctx_user_id credData)) ]
                           | _ => []
                           end)))
        else
          throw (Error ("Import failed - no success indicators found in output: "
                        +:+ stdout)))
       (fun error =>
          timestamp <- now_iso ;;
          ret (mkResult false VUndef (message_or error "N8N CLI execution failed")
                 (VObj ([ ("error_type", VStr "cli_execution_error");
                          ("timestamp", VStr timestamp) ]
                        ++ match v with
                           | CliFlag =>
                               [ ("user_id",
                                  from_option of_json VUndef (ctx_user_id credData));
                                 ("provider", ctx_provider credData) ]
                           | _ => []
                           end)))))
    (try_catch (unlink tempFilePath) (fun _ => ret tt)).

(** [authenticateN8N()] of the API variants. *)
Definition authenticateN8N : M jsval :=
  try_catch
    (let loginUrl := CONFIG_text "N8N_URL" +:+ "/api/v1/login" in
     response <- fetch loginUrl None
                   (JSON_stringify (VObj [ ("email", CONFIG "N8N_USER_EMAIL");
                                           ("password", CONFIG "N8N_USER_PASSWORD") ])) ;;
     if negb (resp_ok response) then
       errorText <- lift (resp_text response) ;;
       throw (Error ("N8N authentication failed: " +:+ pretty (resp_status response)
                     +:+ " - " +:+ errorText))
     else
       authData <- lift (resp_json response) ;;
       data <- member authData "data" ;;
       if negb (truthy data) || negb (truthy (prop data "token"))
       then throw (Error "No authentication token received from N8N")
       else ret (prop data "token"))
    (fun error =>
       throw (Error ("Failed to authenticate with N8N: " +:+ message error))).

(** [createN8NCredential(authToken, credentialData)] of the API variants. *)
Definition createN8NCredential (v : variant) (authToken : jsval)
    (credentialData : jsval) : M Result :=
  try_catch
    (let createUrl := CONFIG_text "N8N_URL" +:+ "/api/v1/credentials" in
     response <- fetch createUrl (Some authToken) (JSON_stringify credentialData) ;;
     if negb (resp_ok response) then
       errorText <- lift (resp_text response) ;;
       throw (Error ("N8N API request failed: " +:+ pretty (resp_status response)
                     +:+ " - " +:+ errorText))
     else
       result <- lift (resp_json response) ;;
       data <- member result "data" ;;
       if negb (truthy data) || negb (truthy (prop data "id"))
       then throw (Error "No credential ID returned from N8N API")
       else
         timestamp <- now_iso ;;
         ret (mkResult true (prop data "id")
                "Credential created successfully via N8N API"
                (VObj [ ("method", VStr (match v with
                                         | ApiB => "n8n_api_direct_flag_based"
                                         | _ => "n8n_api_direct"
                                         end));
                        ("credentialName", prop data "name");
                        ("credentialType", prop data "type");
                        ("timestamp", VStr timestamp) ])))
    (fun error =>
       timestamp <- now_iso ;;
       ret (mkResult false VUndef (message_or error "N8N API request failed")
              (VObj [ ("error_type", VStr "api_request_error");
                      ("timestamp", VStr timestamp) ]))).

(** [insertCredentialToDatabase(pgClient, n8nCrypto, credData)] of the
    direct-insert variant. *)
Definition insertCredentialToDatabase (encryptionKey : option string)
    (credData : Row) : M Result :=
  try_catch
    (p <- credential_values encryptionKey credData ;;
     rowCount <- pg_query (prepared_values p) ;;
     if (0 <? rowCount)%Z then
       ret (mkResult true (VStr (prepared_id p)) "Credential inserted successfully"
              (VObj [ ("method", VStr "direct_database_insert");
                      ("credentialName", VStr (prepared_name p));
                      ("credentialType", prepared_type p);
                      ("timestamp", VStr (toISOString (prepared_at p))) ]))
     else throw (Error "No rows inserted"))
    (fun error =>
       ret (mkResult false VUndef (message error)
              (VObj [ ("error_type", VStr "database_error");
                      ("error_code", code error) ]))).

(** The delivery of one record, from the record to the transport's result:
    build the payload and hand it to the variant's transport. *)
Definition inject (v : variant) (authToken : jsval) (credData : Row) : M Result :=
  match v with
  | CliFlag | CliSingle | Queue =>
      credentialTemplate <- createCredentialTemplate v credData ;;
      executeN8NImport v (generateCredentialJSON v [credentialTemplate]) credData
  | ApiA | ApiB =>
      credentialData <- createCredentialPayload v credData ;;
      createN8NCredential v authToken credentialData
  | Direct =>
      insertCredentialToDatabase (w_config W "N8N_ENCRYPTION_KEY") credData
  end.

(** *** The write-back *)

Definition injection_method (v : variant) : string :=
  match v with
  | CliFlag => "flag_based_northflank_n8n_cli"
  | CliSingle => "northflank_n8n_cli"
  | ApiA => "flag_based_n8n_api"
  | ApiB => "northflank_n8n_api_flag_based"
  | Direct => "direct_database_insert_with_diagnostics"
  | Queue => "northflank_n8n_cli_queue"
  end.

Definition script_version (v : variant) : string :=
  match v with
  | CliFlag => "4.0"
  | CliSingle => "3.0"
  | ApiA => "5.0"
  | ApiB => "3.1"
  | Direct => "7.0"
  | Queue => "3.1"
  end.

(** The [token_source] filter of the update: always there in the flag-based
    variants, never in the single-record variant, only for a truthy value in
    the queue variant. *)
Definition token_filter (v : variant) (tokenSource : jsval) : option jsval :=
  match v with
  | CliSingle => None
  | Queue => if truthy tokenSource then Some tokenSource else None
  | _ => Some tokenSource
  end.

(** The [updateData] object of [updateCredentialStatus], given the four
    instants it reads (the first only on success). *)
Definition updateData_of (v : variant) (success : bool) (credentialId : jsval)
    (msg : string) (details injected_at : jsval)
    (attempted_at stamp updated_at : string) : gmap string jsval :=
  let blob :=
    VObj ([ ("injection_method", VStr (injection_method v));
            ("success", VBool success);
            ("error", if success then VNull else VStr msg);
            ("details", js_or details (VObj []));
            ("timestamp", VStr stamp) ]
          ++ (match v with
              | Direct => []
              | _ => [ ("platform", VStr "northflank") ]
              end)
          ++ [ ("version", VStr (script_version v)) ]) in
  let base : gmap string jsval :=
    list_to_map
      ([ ("injected_to_n8n", VBool success);
         ("injected_at", injected_at);
         ("injection_error", if success then VNull else VStr msg);
         ("injection_attempted_at", VStr attempted_at) ]
       ++ (if flag_based v then [ ("injection_requested", VBool false) ] else [])
       ++ [ ("additional_data", json_column blob);
            ("updated_at", VStr updated_at) ]) in
  if truthy credentialId
  then <["n8n_credential_ids" := json_column (VArr [credentialId])]>
         (<["n8n_credential_id" := credentialId]> base)
  else base.

(** [updateCredentialStatus(supabase, userId, provider, tokenSource, success,
    credentialId, message, details)]; the single-record variant has no
    [tokenSource] parameter.  (Its [catch] logs and rethrows.) *)
Definition updateCredentialStatus (v : variant) (userId providerName : string)
    (tokenSource : jsval) (success : bool) (credentialId : jsval)
    (msg : string) (details : jsval) : M unit :=
  injected_at <- (if success then s <- now_iso ;; ret (VStr s) else ret VNull) ;;
  attempted_at <- now_iso ;;
  stamp <- now_iso ;;
  updated_at <- now_iso ;;
  let updateData :=
    updateData_of v success credentialId msg details injected_at
      attempted_at stamp updated_at in
  error <- supabase_update userId providerName (token_filter v tokenSource)
             updateData ;;
  match error with
  | Some m =>
      throw (Error ((match v with
                     | Direct => "Supabase update failed: "
                     | _ => "Database update failed: "
                     end) +:+ m))
  | None => ret tt
  end.

(** *** The Batch Orchestrator *)

Definition success_note (v : variant) : string :=
  match v with
  | CliFlag => "Credentials injected successfully via Northflank job (flag-based)"
  | CliSingle | Queue => "Credentials injected successfully via Northflank job"
  | ApiA | ApiB => "Credentials injected successfully via N8N API (flag-based)"
  | Direct => "Credentials injected via direct database insert"
  end.

Definition failure_fallback (v : variant) : string :=
  match v with
  | CliFlag | CliSingle | Queue => "Import failed"
  | ApiA | ApiB => "API request failed"
  | Direct => "Insert failed"
  end.

(** [importResult.message || fallback] *)
Definition result_message_or (r : Result) (fallback : string) : string :=
  if String.eqb (result_message r) "" then fallback else result_message r.

(** The [details] argument of the failure write-back; most variants read the
    clock for it before the call. *)
Definition failure_details (v : variant) (credData : Row) : M jsval :=
  match v with
  | CliFlag | ApiA =>
      t <- now_iso ;;
      ret (VObj [ ("error_type", VStr "processing_error"); ("timestamp", VStr t) ])
  | ApiB =>
      t <- now_iso ;;
      ret (VObj [ ("error_type", VStr "northflank_job_error_flag_based_api");
                  ("timestamp", VStr t);
                  ("provider", VStr (provider credData)) ])
  | CliSingle =>
      t <- now_iso ;;
      ret (VObj [ ("error_type", VStr "northflank_job_error"); ("timestamp", VStr t) ])
  | Direct => ret (VObj [ ("error_type", VStr "processing_error") ])
  | Queue => ret (VObj [ ("error_type", VStr "northflank_job_processing_error") ])
  end.

(** The user id and token source a batch variant passes to the write-back:
    the record's own, except that the queue variant uses [CONFIG.USER_ID] and
    [credentialRecord.token_source || 'auth0']. *)
Definition writeback_user (v : variant) (credData : Row) : string :=
  match v with
  | Queue => CONFIG_text "USER_ID"
  | _ => user_id credData
  end.

Definition writeback_token (v : variant) (credData : Row) : jsval :=
  match v with
  | Queue => js_or (col credData "token_source") (VStr "auth0")
  | _ => col credData "token_source"
  end.

(** The [catch] block of the record loop: write the failure back.  The
    second API variant guards this write-back with a [try] of its own. *)
Definition record_failure (v : variant) (credData : Row) (error : exn)
    : M (option bool) :=
  let write_failure :=
    d <- failure_details v credData ;;
    updateCredentialStatus v (writeback_user v credData) (provider credData)
      (writeback_token v credData) false VNull (message error) d ;;;
    ret (Some false) in
  match v with
  | ApiB => try_catch write_failure (fun _ => ret None)
  | _ => write_failure
  end.

(** The body of the record loop.  [Some true] counts a success, [Some false]
    a failure, [None] neither (the second API variant, when its failure
    write-back fails too). *)
Definition process_record (v : variant) (authToken : jsval) (credData : Row)
    : M (option bool) :=
  try_catch
    (importResult <- inject v authToken credData ;;
     if success importResult then
       updateCredentialStatus v (writeback_user v credData) (provider credData)
         (writeback_token v credData) true (credentialId importResult)
         (success_note v) (details importResult) ;;;
       ret (Some true)
     else
       throw (Error (result_message_or importResult (failure_fallback v))))
    (record_failure v credData).

(** The record loop with its two counters. *)
Fixpoint process_all (v : variant) (authToken : jsval) (pending : list Row)
    (successCount errorCount : nat) : M (nat * nat) :=
  match pending with
  | [] => ret (successCount, errorCount)
  | credData :: rest =>
      r <- process_record v authToken credData ;;
      match r with
      | Some true => process_all v authToken rest (S successCount) errorCount
      | Some false => process_all v authToken rest successCount (S errorCount)
      | None => process_all v authToken rest successCount errorCount
      end
  end.

Definition configured (name : string) : bool := truthy (CONFIG name).

(** The checks [main] makes on [CONFIG] before it touches a record. *)
Definition check_config (v : variant) : M unit :=
  match v with
  | CliFlag =>
      if negb (configured "SUPABASE_URL") || negb (configured "SUPABASE_SERVICE_KEY")
      then throw (Error "Missing Supabase configuration")
      else if negb (configured "N8N_URL") || negb (configured "N8N_ENCRYPTION_KEY")
      then throw (Error "Missing N8N configuration")
      else ret tt
  | ApiA | ApiB =>
      if negb (configured "SUPABASE_URL") || negb (configured "SUPABASE_SERVICE_KEY")
      then throw (Error "Missing Supabase configuration")
      else if negb (configured "N8N_URL") || negb (configured "N8N_USER_EMAIL")
              || negb (configured "N8N_USER_PASSWORD")
      then throw (Error "Missing N8N configuration")
      else ret tt
  | Queue =>
      if negb (configured "SUPABASE_URL") || negb (configured "SUPABASE_SERVICE_KEY")
      then throw (Error "Missing Supabase configuration")
      else if negb (configured "N8N_URL") || negb (configured "N8N_ENCRYPTION_KEY")
      then throw (Error "Missing N8N configuration")
      else if negb (configured "USER_ID")
      then throw (Error "Missing USER_ID from template")
      else ret tt
  | CliSingle =>
      if negb (configured "USER_ID") || negb (configured "PROVIDER")
      then throw (Error "Missing required parameters: USER_ID and PROVIDER must be set")
      else if negb (configured "SUPABASE_URL") || negb (configured "SUPABASE_SERVICE_KEY")
      then throw (Error "Missing Supabase configuration")
      else if negb (configured "N8N_URL") || negb (configured "N8N_ENCRYPTION_KEY")
      then throw (Error "Missing N8N configuration")
      else ret tt
  | Direct =>
      let required :=
        [ "SUPABASE_URL"; "SUPABASE_SERVICE_KEY"; "N8N_ENCRYPTION_KEY";
          "DB_POSTGRESDB_HOST"; "DB_POSTGRESDB_PASSWORD";
          "DB_POSTGRESDB_DATABASE"; "DB_POSTGRESDB_USER" ] in
      match List.filter (fun key => negb (configured key)) required with
      | [] => ret tt
      | missing =>
          throw (Error ("Missing required environment variables: "
                        +:+ join ", " missing))
      end
  end.

(** [n8n --version], which the CLI variants run before the first record. *)
Definition check_cli : M unit :=
  try_catch (execAsync "n8n --version" ;;; ret tt)
    (fun error => throw (Error ("N8N CLI not available: " +:+ message error))).

(** What a batch variant does between the fetch and the loop; the token it
    obtains, if any. *)
Definition prepare (v : variant) : M jsval :=
  match v with
  | ApiA | ApiB => authenticateN8N
  | Direct => ret VUndef
  | _ => check_cli ;;; ret VUndef
  end.

(** [pgClient.connect()] and [runDiagnostics] of the direct-insert variant,
    the latter summarised by its verdict. *)
Definition connect_and_diagnose : M bool :=
  t <- tick ;;
  match w_connect W t with
  | Some e => throw e
  | None => t' <- tick ;; ret (w_diagnostics W t')
  end.

(** The exit status after the loop. *)
Definition exit_status (v : variant) (errorCount : nat) : nat :=
  match v with
  | ApiB | Queue => if (0 <? errorCount)%nat then 1%nat else 0%nat
  | _ => 0%nat
  end.

(** The records a batch variant hands to its loop; [None] where the queue
    variant's fetch returns [null]. *)
Definition fetch_batch (v : variant) : M (option (list Row)) :=
  match v with
  | Queue => findPendingCredentials (CONFIG_text "USER_ID")
  | _ => l <- fetchPendingCredentials v ;; ret (Some l)
  end.

(** [main()] of the five batch variants; the result is the exit status.
    These scripts build their Supabase client once, between the checks and
    the fetch; the client is taken as built, which an answer of the store
    to the fetch presupposes. *)
Definition main_batch (v : variant) : M nat :=
  try_catch
    (check_config v ;;;
     schemaValid <- (match v with
                     | Direct => connect_and_diagnose
                     | _ => ret true
                     end) ;;
     if negb schemaValid then ret 1%nat
     else
       pendingCredentials <- fetch_batch v ;;
       match pendingCredentials with
       | None | Some [] => ret 0%nat
       | Some pending =>
           authToken <- prepare v ;;
           counts <- process_all v authToken pending 0 0 ;;
           ret (exit_status v (snd counts))
       end)
    (fun _ => ret 1%nat).

(** [main()] of the single-record variant.  It builds its Supabase client
    after the checks, and a second one in its [catch] before it writes the
    failure back. *)
Definition main_single : M nat :=
  try_catch
    (check_config CliSingle ;;;
     createClient ;;;
     found <- fetchUserCredentials (CONFIG_text "USER_ID") (CONFIG_text "PROVIDER") ;;
     match found with
     | None => throw (Error "User credentials not found in database")
     | Some credData =>
         check_cli ;;;
         importResult <- inject CliSingle VUndef credData ;;
         if success importResult then
           updateCredentialStatus CliSingle (CONFIG_text "USER_ID")
             (CONFIG_text "PROVIDER") VUndef true (credentialId importResult)
             (success_note CliSingle) (details importResult) ;;;
           ret 0%nat
         else throw (Error (result_message_or importResult "Import failed"))
     end)
    (fun error =>
       (if configured "SUPABASE_URL" && configured "SUPABASE_SERVICE_KEY"
           && configured "USER_ID" && configured "PROVIDER"
        then
          try_catch
            (createClient ;;;
             d <- failure_details CliSingle (mkRow "" "" ∅) ;;
             updateCredentialStatus CliSingle (CONFIG_text "USER_ID")
               (CONFIG_text "PROVIDER") VUndef false VNull (message error) d)
            (fun _ => ret tt)
        else ret tt) ;;;
       ret 1%nat).

Definition main (v : variant) : M nat :=
  match v with
  | CliSingle => main_single
  | _ => main_batch v
  end.

Definition initial (rows : list Row) : State := mkState rows 0 [] [].

(** A run of a variant over a table. *)
Definition run (v : variant) (rows : list Row) : outcome nat * State :=
  main v (initial rows).

End Injector.

(** ** The schema check of the direct-insert variant (part_001) *)

(** The rows of a query result: one object for each row. *)
Definition PgRows : Type := list (list (string * jsval)).

(** [pgClient.query(text)] inside [runDiagnostics]; the answers are indexed
    by the number of external calls made before, like those of a [World]. *)
Definition diag_query (answers : nat -> exn + PgRows) : M PgRows :=
  t <- tick ;; lift (answers t).

(** [result.rows[0].k], a TypeError when the result has no row. *)
Definition first_row (rows : PgRows) (k : string) : M jsval :=
  match rows with
  | [] => throw (Error ("Cannot read properties of undefined (reading " +:+ k +:+ ")"))
  | r :: _ => ret (get r k)
  end.

Definition requiredColumns : list string := [ "id"; "name"; "type"; "data" ].

(** [items.includes(s)] for a string [s]. *)
Definition js_includes (items : list jsval) (s : string) : bool :=
  existsb (fun x => match x with
                    | VStr a => String.eqb a s
                    | _ => false
                    end) items.

(** [runDiagnostics(pgClient)]: the table check, the schema, a sample row,
    the count, and the check for [shared_credentials] with its schema.  What
    it prints is left out. *)
Definition runDiagnostics (answers : nat -> exn + PgRows) : M bool :=
  try_catch
    (tableCheck <- diag_query answers ;;
     tableExists <- first_row tableCheck "exists" ;;
     if negb (truthy tableExists) then ret false
     else
       schemaQuery <- diag_query answers ;;
       let columnNames := map (fun r => get r "column_name") schemaQuery in
       let missingColumns :=
         List.filter (fun c => negb (js_includes columnNames c)) requiredColumns in
       if (0 <? length missingColumns)%nat then ret false
       else
         sampleQuery <- diag_query answers ;;
         countQuery <- diag_query answers ;;
         total_ <- first_row countQuery "total" ;;
         sharedTableCheck <- diag_query answers ;;
         sharedExists <- first_row sharedTableCheck "exists" ;;
         (if truthy sharedExists
          then sharedSchema <- diag_query answers ;; ret tt
          else ret tt) ;;;
         ret true)
    (fun _ => ret false).

(** ** Vocabulary of the statements about a run *)

(** The calls a batch variant makes between the fetch and the record loop:
    the CLI version check, or the login request. *)
Definition is_preflight (W : World) (c : call) : Prop :=
  c = CExec "n8n --version" \/
  exists body, c = CFetch (CONFIG_text W "N8N_URL" +:+ "/api/v1/login") None body.

(** A record together with the calls the body of the record loop made for
    it. *)
Definition block_of (W : World) (v : variant) (b : Row * list call) : Prop :=
  exists authToken s0,
    calls (snd (process_record W v authToken (fst b) s0)) = snd b ++ calls s0.

(** The calls of a sequence of blocks, latest first. *)
Definition block_calls (blocks : list (Row * list call)) : list call :=
  concat (rev (map snd blocks)).

(** The rows the flag-based fetch reads from a table. *)
Definition pending_rows (rows : list Row) : list Row :=
  order_by "injection_requested_at" (List.filter is_pending rows).

(** The names of [CONFIG] a variant's [main] insists on before it does
    anything else. *)
Definition required_config (v : variant) : list string :=
  match v with
  | CliFlag => [ "SUPABASE_URL"; "SUPABASE_SERVICE_KEY"; "N8N_URL"; "N8N_ENCRYPTION_KEY" ]
  | ApiA | ApiB =>
      [ "SUPABASE_URL"; "SUPABASE_SERVICE_KEY"; "N8N_URL"; "N8N_USER_EMAIL";
        "N8N_USER_PASSWORD" ]
  | Queue =>
      [ "SUPABASE_URL"; "SUPABASE_SERVICE_KEY"; "N8N_URL"; "N8N_ENCRYPTION_KEY";
        "USER_ID" ]
  | CliSingle =>
      [ "USER_ID"; "PROVIDER"; "SUPABASE_URL"; "SUPABASE_SERVICE_KEY"; "N8N_URL";
        "N8N_ENCRYPTION_KEY" ]
  | Direct =>
      [ "SUPABASE_URL"; "SUPABASE_SERVICE_KEY"; "N8N_ENCRYPTION_KEY";
        "DB_POSTGRESDB_HOST"; "DB_POSTGRESDB_PASSWORD"; "DB_POSTGRESDB_DATABASE";
        "DB_POSTGRESDB_USER" ]
  end.

(** The record a batch variant's fetch hands to the loop for a row: the one
    [fetchPendingCredentials] builds, or the row itself in the queue
    variant. *)
Definition record_of (W : World) (v : variant) (row : Row) : Row :=
  match v with
  | Queue => row
  | _ => credData_of W v row
  end.

(** ** Concrete worlds and tables *)

(** The kind of a call, and the provider a write-back is addressed to. *)
Definition call_kind (c : call) : string :=
  match c with
  | CWriteFile _ _ => "writeFile"
  | CExec _ => "exec"
  | CUnlink _ => "unlink"
  | CFetch _ _ _ => "fetch"
  | CPgInsert _ => "insert"
  | CUpdate _ _ _ _ => "update"
  end.

Definition update_provider (c : call) : option string :=
  match c with
  | CUpdate _ p _ _ => Some p
  | _ => None
  end.

(** The calls of a run, earliest first. *)
Definition trace (W : World) (v : variant) (rows : list Row) : list call :=
  rev (calls (snd (run W v rows))).

Definition sample_date : Date := mkDate 1767225600000 2026 1 1 0 0 0 0.

Definition sample_config (name : string) : option string :=
  if String.eqb name "USER_ID" then Some "u1"
  else if String.eqb name "PROVIDER" then Some "google"
  else if String.eqb name "SUPABASE_URL" then Some "https://project.supabase.co"
  else Some "configured".

(** A client is built for an HTTP or HTTPS address and a key that is not
    empty. *)
Definition sample_createClient (url key : string) : option exn :=
  if String.eqb url "" then Some (Error "supabaseUrl is required.")
  else if String.eqb key "" then Some (Error "supabaseKey is required.")
  else if String.prefix "http://" url || String.prefix "https://" url then None
  else Some (Error "Invalid supabaseUrl: Must be a valid HTTP or HTTPS URL.").

(** A world in which everything outside answers favourably.  Its digest and
    its block cipher are stand-ins with the right sizes: a constant 32-byte
    digest, and the reversal of a block, which is its own inverse. *)
Definition sample_world : World :=
  mkWorld
    (fun _ => "1b4e28ba-2fa1-41d2-883f-0016d3cca427")
    (fun _ => sample_date)
    (fun _ i => ascii_of_nat i)
    (fun _ => replicate 32 zero)
    (fun _ block => rev block)
    (fun _ block => rev block)
    (fun _ => None)
    (fun _ => inr ("Successfully imported 1 credential", ""))
    (fun _ => None)
    (fun _ => inr (mkResponse true 200 "OK" (inr "")
                     (inr (VObj [ ("data", VObj [ ("id", VStr "42");
                                                  ("token", VStr "session") ]) ]))))
    (fun _ => inr 1%Z)
    (fun _ => None)
    (fun _ => true)
    (fun _ => None)
    (fun _ => None)
    sample_config
    sample_createClient.

(** The same world, except that the import subprocess fails: only the
    version check, the external call number [check], succeeds. *)
Definition failing_import_world (check : nat) : World :=
  mkWorld (w_uuid sample_world) (w_clock sample_world) (w_random sample_world)
    (w_sha256 sample_world) (w_aes_encrypt sample_world)
    (w_aes_decrypt sample_world) (w_writeFile sample_world)
    (fun t => if (t =? check)%nat then inr ("1.100.1", "")
              else inl (Error "Command failed: n8n import:credentials"))
    (w_unlink sample_world) (w_fetch sample_world) (w_pg_query sample_world)
    (w_connect sample_world) (w_diagnostics sample_world)
    (w_select sample_world) (w_update sample_world) (w_config sample_world)
    (w_createClient sample_world).

(** A pending row of user [u1] with every field, one for another provider
    that was requested later but created earlier, and one that lacks its
    access token. *)
Definition google_row : Row :=
  mkRow "u1" "google"
    (list_to_map [ ("token_source", VStr "auth0");
                   ("access_token", VStr "at"); ("refresh_token", VStr "rt");
                   ("client_id", VStr "cid"); ("client_secret", VStr "cs");
                   ("injection_requested", VBool true);
                   ("injected_to_n8n", VBool false);
                   ("injection_requested_at", VNum 1);
                   ("created_at", VNum 2);
                   ("injection_error", VNull) ]).

Definition github_row : Row :=
  mkRow "u1" "github"
    (list_to_map [ ("token_source", VStr "auth0");
                   ("access_token", VStr "at2"); ("refresh_token", VStr "rt2");
                   ("client_id", VStr "cid2"); ("client_secret", VStr "cs2");
                   ("injection_requested", VBool true);
                   ("injected_to_n8n", VBool false);
                   ("injection_requested_at", VNum 2);
                   ("created_at", VNum 1);
                   ("injection_error", VNull) ]).

Definition incomplete_row : Row :=
  mkRow "u1" "google"
    (list_to_map [ ("token_source", VStr "auth0");
                   ("access_token", VNull); ("refresh_token", VStr "rt");
                   ("client_id", VStr "cid"); ("client_secret", VStr "cs");
                   ("injection_requested", VBool true);
                   ("injected_to_n8n", VBool false);
                   ("injection_requested_at", VNum 1);
                   ("created_at", VNum 1);
                   ("injection_error", VNull) ]).

(** A pending row whose access token is present but empty. *)
Definition empty_token_row : Row :=
  mkRow "u1" "google"
    (list_to_map [ ("token_source", VStr "auth0");
                   ("access_token", VStr ""); ("refresh_token", VStr "rt");
                   ("client_id", VStr "cid"); ("client_secret", VStr "cs");
                   ("injection_requested", VBool true);
                   ("injected_to_n8n", VBool false);
                   ("injection_requested_at", VNum 1) ]).

(** The sample world with one of its answers replaced. *)
Definition with_config (W : World) (config : string -> option string) : World :=
  mkWorld (w_uuid W) (w_clock W) (w_random W) (w_sha256 W) (w_aes_encrypt W)
    (w_aes_decrypt W) (w_writeFile W) (w_exec W) (w_unlink W) (w_fetch W)
    (w_pg_query W) (w_connect W) (w_diagnostics W) (w_select W) (w_update W)
    config (w_createClient W).


Definition with_fetch (W : World) (answer : nat -> exn + Response) : World :=
  mkWorld (w_uuid W) (w_clock W) (w_random W) (w_sha256 W) (w_aes_encrypt W)
    (w_aes_decrypt W) (w_writeFile W) (w_exec W) (w_unlink W) answer
    (w_pg_query W) (w_connect W) (w_diagnostics W) (w_select W) (w_update W)
    (w_config W) (w_createClient W).

(** A row for a provider the scripts have no credential type for, and a
    complete pending row whose [token_source] is NULL. *)
Definition twitter_row : Row :=
  mkRow "u1" "twitter"
    (list_to_map [ ("token_source", VStr "auth0");
                   ("access_token", VStr "at"); ("refresh_token", VStr "rt");
                   ("client_id", VStr "cid"); ("client_secret", VStr "cs");
                   ("injection_requested", VBool true);
                   ("injected_to_n8n", VBool false);
                   ("injection_requested_at", VNum 1);
                   ("created_at", VNum 1);
                   ("injection_error", VNull) ]).

Definition sourceless_row : Row :=
  mkRow "u1" "google"
    (list_to_map [ ("token_source", VNull);
                   ("access_token", VStr "at"); ("refresh_token", VStr "rt");
                   ("client_id", VStr "cid"); ("client_secret", VStr "cs");
                   ("injection_requested", VBool true);
                   ("injected_to_n8n", VBool false);
                   ("injection_requested_at", VNum 1);
                   ("created_at", VNum 1);
                   ("injection_error", VNull) ]).

(** ** The provider table *)

Lemma get_credentialTypes_supported p :
  In p supported_providers ->
  get credentialTypes p = assoc p credentialTypes /\
  exists t, assoc p credentialTypes = VStr t /\ truthy (VStr t) = true.
Proof.
  simpl. intros [<-|[<-|[<-|[<-|[<-|[]]]]]]; (split; [reflexivity|]);
    eexists; split; reflexivity.
Qed.

Lemma existsb_eqb_In (k : string) l : existsb (String.eqb k) l = true <-> In k l.
Proof.
  rewrite existsb_exists. split.
  - intros (x & Hx & Heq). apply String.eqb_eq in Heq. now subst.
  - intros H. exists k. split; [assumption | apply String.eqb_refl].
Qed.

(** A provider that is neither in the table nor a property name of
    [Object.prototype] is rejected by the lookup. *)
Lemma get_credentialTypes_unknown p :
  ~ In p supported_providers -> ~ In p object_prototype_names ->
  get credentialTypes p = VUndef.
Proof.
  intros H1 H2. unfold get, has_own.
  destruct (existsb (String.eqb p) (map fst credentialTypes)) eqn:E1.
  { apply existsb_eqb_In in E1. contradiction. }
  destruct (existsb (String.eqb p) object_prototype_names) eqn:E2.
  { apply existsb_eqb_In in E2. contradiction. }
  reflexivity.
Qed.

(** A property name of [Object.prototype] is found through the prototype
    chain of the table, and what is found is truthy. *)
Lemma get_credentialTypes_inherited p :
  In p object_prototype_names -> get credentialTypes p = VBuiltin p.
Proof.
  simpl. intros H.
  repeat (destruct H as [<-|H]; [reflexivity|]). destruct H.
Qed.

Section Properties.

Variable W : World.

(** Every builder of a CLI or API variant rejects a provider outside the
    table and outside [Object.prototype]; it reads the clock and the id
    source first, and produces no payload. *)
Lemma builder_rejects_unknown v credData s :
  ~ In (provider credData) supported_providers ->
  ~ In (provider credData) object_prototype_names ->
  exists s',
    build_payload W v credData s =
      (Throw (Error ("Unsupported provider: " +:+ provider credData)), s').
Proof.
  intros H1 H2. pose proof (get_credentialTypes_unknown _ H1 H2) as Hg.
  destruct v; unfold build_payload, createCredentialTemplate,
    createCredentialPayload, credential_values, bind, randomUUID, new_Date,
    tick, ret, throw; simpl; rewrite Hg; simpl; eexists; reflexivity.
Qed.

(** For the five providers of the table the CLI and API builders return a
    payload whose [type] is the table's entry. *)
Lemma builder_supported_type v credData s :
  v <> Direct ->
  In (provider credData) supported_providers ->
  exists payload s',
    build_payload W v credData s = (Ok payload, s') /\
    prop payload "type" = assoc (provider credData) credentialTypes.
Proof.
  intros Hv Hin. destruct (get_credentialTypes_supported _ Hin) as (Hg & t & Ht & Htr).
  destruct v; try congruence;
    unfold build_payload, createCredentialTemplate, createCredentialPayload,
      bind, randomUUID, new_Date, now_iso, tick, ret, throw;
    rewrite Hg, Ht, Htr; simpl;
    do 2 eexists; (split; [reflexivity|]); reflexivity.
Qed.

(** C4 (the code departs from the claim): the provider string
    ["constructor"] is outside the five-element table, yet no builder fails
    on it.  The lookup [credentialTypes[provider]] finds [Object] through the
    prototype chain, which is truthy, so the CLI and API builders return a
    payload named ["Constructor OAuth2 - ..."] whose [type] is that function
    instead of throwing "Unsupported provider". *)
Theorem C4_prototype_name_not_rejected (v : variant) (uid : string)
    (cs : gmap string jsval) (s : State) :
  match v with
  | Direct => True
  | _ =>
      exists payload s',
        build_payload W v (mkRow uid "constructor" cs) s = (Ok payload, s') /\
        prop payload "type" = VBuiltin "constructor" /\
        exists stamp,
          prop payload "name" = VStr ("Constructor OAuth2 - " +:+ stamp)
  end.
Proof.
  destruct v; try exact I;
    unfold build_payload, createCredentialTemplate, createCredentialPayload,
      bind, randomUUID, new_Date, now_iso, tick, ret, throw; simpl;
    do 2 eexists; (split; [reflexivity|]); (split; [reflexivity|]);
    eexists; reflexivity.
Qed.

(** ** The payload of the Google scenario *)

Lemma digit_not_T n : Ascii.eqb (digit n) "T" = false.
Proof.
  unfold digit.
  assert (H : (n mod 10 < 10)%N) by (apply N.mod_lt; lia).
  set (k := (n mod 10)%N) in *. clearbody k.
  assert (Hk : In k [0; 1; 2; 3; 4; 5; 6; 7; 8; 9]%N) by (simpl; lia).
  simpl in Hk. intuition (subst; reflexivity).
Qed.

(** With a four-digit year the stamp is the date, a space, and the time to
    the minute: ["YYYY-MM-DD HH:mm"]. *)
Lemma minute_stamp_shape d :
  (year d <= 9999)%N ->
  minute_stamp d = stamp_text d.
Proof.
  intros Hy. unfold minute_stamp, toISOString, stamp_text.
  apply N.leb_le in Hy. rewrite Hy.
  unfold pad4, pad3, pad2.
  cbv -[digit N.div Ascii.eqb].
  repeat (first [ rewrite digit_not_T
                | progress change (Ascii.eqb "-" "T") with false
                | progress change (Ascii.eqb "T" "T") with true ];
          cbv beta iota).
  reflexivity.
Qed.

Lemma scenario_credential_data v :
  credential_data v scenario_record =
    VObj (scenario_data ++ match v with
                           | Direct => [scenario_oauthTokenData]
                           | _ => []
                           end).
Proof. destruct v; reflexivity. Qed.

(** With a configured secret whose digest has 32 bytes, [encrypt] returns a
    string for every value that [JSON.stringify] serialises, after one
    external call (the random IV). *)
Lemma encrypt_returns secret data json s :
  length (w_sha256 W (utf8 secret)) = 32%nat ->
  JSON_stringify data = Some json ->
  exists out,
    encrypt W (Some secret) data s =
      (Ok out, mkState (table s) (S (ticks s)) (calls s) (warnings s)).
Proof.
  intros Hlen Hjson. unfold encrypt, randomBytes, tick, ret, bind.
  rewrite Hlen, Hjson. cbn [Nat.eqb negb]. cbv beta iota.
  match goal with
  | |- context [cipher_update ?E ?c ?x] =>
      destruct (cipher_update E c x) as [encrypted cipher]
  end.
  eexists. reflexivity.
Qed.

(** C5 (amended): for the Google scenario record every variant's builder
    produces the type ["googleOAuth2Api"], the name ["Google OAuth2 - "]
    followed by the date, a space and the time to the minute, and the six
    listed data fields; the CLI and API variants have no other data field,
    the direct-insert variant adds [oauthTokenData] and stores the data
    encrypted. *)
Theorem C5_google_scenario (v : variant) (s : State) :
  let d := w_clock W (match v with
                      | ApiA | ApiB | Direct => ticks s
                      | _ => S (ticks s)
                      end) in
  (year d <= 9999)%N ->
  (v = Direct ->
   exists secret, w_config W "N8N_ENCRYPTION_KEY" = Some secret /\
                  length (w_sha256 W (utf8 secret)) = 32%nat) ->
  match v with
  | Direct =>
      exists p s' encrypted s1 s2,
        credential_values W (w_config W "N8N_ENCRYPTION_KEY") scenario_record s
          = (Ok p, s') /\
        prepared_type p = VStr "googleOAuth2Api" /\
        prepared_name p = "Google OAuth2 - " +:+ stamp_text d /\
        encrypt W (w_config W "N8N_ENCRYPTION_KEY")
          (VObj (scenario_data ++ [scenario_oauthTokenData])) s1
          = (Ok encrypted, s2) /\
        prepared_values p =
          [ VStr (prepared_id p); VStr (prepared_name p); prepared_type p;
            VStr encrypted; VStr (toISOString d); VStr (toISOString d) ]
  | _ =>
      exists payload s',
        build_payload W v scenario_record s = (Ok payload, s') /\
        prop payload "type" = VStr "googleOAuth2Api" /\
        prop payload "name" = VStr ("Google OAuth2 - " +:+ stamp_text d) /\
        prop payload "data" = VObj scenario_data
  end.
Proof.
  intros d Hy Hkey. rewrite <- (minute_stamp_shape d Hy).
  destruct v; subst d;
    try (unfold build_payload, createCredentialTemplate, createCredentialPayload,
           bind, randomUUID, new_Date, now_iso, tick, ret, throw;
         cbn -[minute_stamp];
         do 2 eexists; repeat split; reflexivity).
  destruct (Hkey eq_refl) as (secret & Hcfg & Hlen).
  unfold credential_values, bind, randomUUID, new_Date, tick, ret, throw.
  cbn -[minute_stamp encrypt toISOString].
  rewrite Hcfg.
  match goal with
  | |- context [encrypt W (Some secret) ?data ?st] =>
      destruct (encrypt_returns secret data
                  (default EmptyString (JSON_stringify data)) st Hlen eq_refl)
        as (out & Hout)
  end.
  rewrite Hout.
  do 5 eexists. split; [reflexivity|]. split; [reflexivity|].
  split; [reflexivity|]. split; [exact Hout | reflexivity].
Qed.

(** ** Validation of fetched rows *)

Lemma warned_nil s : warned [] s = s.
Proof. destruct s; reflexivity. Qed.

(** The loop keeps the complete rows, in order, and warns once for every
    other row; it makes no external call. *)
Lemma validate_rows_spec v data valid s :
  validate_rows W v data valid s =
    (Ok (valid ++ map (credData_of W v) (complete_rows data)),
     warned (rev (skip_warnings v data)) s).
Proof.
  revert valid s. induction data as [|row rest IH]; intros valid s.
  - simpl. unfold ret. now rewrite app_nil_r, warned_nil.
  - unfold complete_rows, skip_warnings in *. simpl.
    destruct (incomplete row) eqn:E; simpl.
    + unfold bind, warn. rewrite IH. f_equal.
      unfold warned; simpl. f_equal. now rewrite <- app_assoc.
    + rewrite IH. now rewrite <- app_assoc.
Qed.

(** A column read does not see the difference between an absent column and
    one deleted from the row. *)
Lemma col_delete_eq k (cs : gmap string jsval) u p :
  col (mkRow u p (delete k cs)) k = VUndef.
Proof. unfold col; simpl. now rewrite lookup_delete_eq. Qed.

Lemma incomplete_falsy row k :
  In k required_columns -> truthy (col row k) = false -> incomplete row = true.
Proof.
  unfold incomplete. simpl. intros [<-|[<-|[<-|[]]]] ->; simpl;
    rewrite ?orb_true_r; reflexivity.
Qed.

(** C10: a required field that is present but empty is treated as missing.
    A fetched row whose [access_token], [client_id] or [client_secret] is
    the empty string fails the check, and the loop does with it exactly what
    it does with the row that lacks the field: a warning, no record.  A row
    whose three required fields are truthy is kept whatever its refresh token
    is, and an empty, null or absent refresh token becomes the empty
    string. *)
Theorem C10_empty_string_counts_as_missing (v : variant) (row : Row)
    (rest valid : list Row) (s : State) (k : string) :
  In k required_columns ->
  col row k = VStr "" ->
  incomplete row = true /\
  validate_rows W v (row :: rest) valid s =
    validate_rows W v
      (mkRow (user_id row) (provider row) (delete k (cols row)) :: rest) valid s /\
  validate_rows W v (row :: rest) valid s =
    validate_rows W v rest valid (warned [skip_warning v row] s) /\
  (forall kept : Row,
     incomplete kept = false ->
     truthy (col kept "refresh_token") = false ->
     validate_rows W v (kept :: rest) valid s =
       validate_rows W v rest (valid ++ [credData_of W v kept]) s /\
     col (credData_of W v kept) "refresh_token" = VStr "").
Proof.
  intros Hk Hempty.
  assert (Hinc : incomplete row = true).
  { apply (incomplete_falsy row k Hk). now rewrite Hempty. }
  assert (Hinc' : incomplete (mkRow (user_id row) (provider row)
                                (delete k (cols row))) = true).
  { apply (incomplete_falsy _ k Hk). now rewrite col_delete_eq. }
  split; [exact Hinc|]. split; [|split].
  - cbn [validate_rows]. rewrite Hinc, Hinc'. reflexivity.
  - cbn [validate_rows]. rewrite Hinc. reflexivity.
  - intros kept Hkept Hrefresh. split.
    + cbn [validate_rows]. now rewrite Hkept.
    + unfold credData_of, col at 1. cbn [cols].
      destruct v; unfold js_or; rewrite Hrefresh;
        rewrite ?lookup_insert_ne by discriminate; reflexivity.
Qed.

(** ** Rules for [ensures] and [total] *)

Lemma ensures_ret {A} (a : A) (P : A -> Prop) : P a -> ensures (ret a) P.
Proof. intros H s a' s' [= <- _]. exact H. Qed.

Lemma ensures_throw {A} e (P : A -> Prop) : ensures (throw e) P.
Proof. intros s a s' [=]. Qed.

Lemma ensures_bind {A B} (m : M A) (f : A -> M B) (Q : A -> Prop) (P : B -> Prop) :
  ensures m Q -> (forall a, Q a -> ensures (f a) P) -> ensures (bind m f) P.
Proof.
  intros Hm Hf s b s'. unfold bind.
  destruct (m s) as [[a|e] s1] eqn:E; [|discriminate].
  intros H. eapply Hf; [eapply Hm; exact E | exact H].
Qed.

Lemma ensures_any {A} (m : M A) : ensures m (fun _ => True).
Proof. intros s a s' _. exact I. Qed.

Lemma ensures_weaken {A} (m : M A) (P Q : A -> Prop) :
  ensures m P -> (forall a, P a -> Q a) -> ensures m Q.
Proof. intros H HPQ s a s' E. apply HPQ. eapply H. exact E. Qed.

Lemma ensures_try_catch {A} (m : M A) h (P : A -> Prop) :
  ensures m P -> (forall e, ensures (h e) P) -> ensures (try_catch m h) P.
Proof.
  intros Hm Hh s a s'. unfold try_catch.
  destruct (m s) as [[a'|e] s1] eqn:E.
  - intros [= <- _]. eapply Hm. exact E.
  - apply Hh.
Qed.

Lemma ensures_try_finally {A} (m : M A) f (P : A -> Prop) :
  ensures m P -> ensures (try_finally m f) P.
Proof.
  intros Hm s a s'. unfold try_finally.
  destruct (m s) as [r s1] eqn:E. intros [= -> _]. eapply Hm. exact E.
Qed.

Lemma total_ret {A} (a : A) (P : A -> Prop) : P a -> total (ret a) P.
Proof. intros H s. exists a, s. split; [reflexivity | exact H]. Qed.

Lemma total_bind {A B} (m : M A) (f : A -> M B) (Q : A -> Prop) (P : B -> Prop) :
  total m Q -> (forall a, Q a -> total (f a) P) -> total (bind m f) P.
Proof.
  intros Hm Hf s. destruct (Hm s) as (a & s1 & E & Ha).
  destruct (Hf a Ha s1) as (b & s2 & E2 & Hb).
  exists b, s2. split; [|exact Hb]. unfold bind. now rewrite E.
Qed.

(** A [try] whose handler always returns: the whole statement returns. *)
Lemma total_try_catch {A} (m : M A) h (P : A -> Prop) :
  ensures m P -> (forall e, total (h e) P) -> total (try_catch m h) P.
Proof.
  intros Hm Hh s. unfold try_catch.
  destruct (m s) as [[a|e] s1] eqn:E.
  - exists a, s1. split; [reflexivity|]. eapply Hm. exact E.
  - apply Hh.
Qed.

Lemma total_try_finally {A} (m : M A) f (P : A -> Prop) :
  total m P -> total (try_finally m f) P.
Proof.
  intros Hm s. destruct (Hm s) as (a & s1 & E & Ha).
  exists a, (snd (f s1)). split; [|exact Ha]. unfold try_finally. now rewrite E.
Qed.

Lemma total_now_iso : total (now_iso W) (fun _ => True).
Proof. intros s. do 2 eexists. split; [reflexivity | exact I]. Qed.

Lemma total_new_Date : total (new_Date W) (fun _ => True).
Proof. intros s. do 2 eexists. split; [reflexivity | exact I]. Qed.

Lemma ensures_member o k : ensures (member o k) (fun x => x = prop o k).
Proof.
  intros s a s'. destruct o; simpl; unfold throw, ret; intros [=]; congruence.
Qed.

Lemma ensures_index0_cons x l : ensures (index0 (VArr (x :: l))) (fun y => y = x).
Proof. intros s a s' [= <- _]. reflexivity. Qed.

(** ** The transports *)

Lemma message_or_nonempty e fallback : fallback <> "" -> message_or e fallback <> "".
Proof.
  unfold message_or. intros H. destruct (String.eqb (message e) "") eqn:E.
  - exact H.
  - now apply String.eqb_neq in E.
Qed.

(** On a record of the table, whose user id is a text, the name of the
    import file is a matter of that text alone. *)
Lemma executeN8NImport_row v jsonContent (credData : Row) :
  executeN8NImport W v jsonContent credData =
  (
    d <- new_Date W ;;
    let tempFileName :=
      "credentials-" +:+ pretty (epoch_ms d) +:+
      (match v with
       | CliFlag => "-" +:+ slice_to 8 (user_id credData)
       | _ => ""
       end) +:+ ".json" in
    let tempFilePath := "/tmp/" +:+ tempFileName in
    try_finally
      (try_catch
         (writeFile W tempFilePath jsonContent ;;;
          let command := "n8n import:credentials --input=" +:+ tempFilePath in
          out <- execAsync W command ;;
          let stdout := fst out in
          if isSuccess stdout then
            parsed <- (match v with
                       | CliFlag => ret jsonContent
                       | _ => member jsonContent "credentials"
                       end) ;;
            first <- index0 parsed ;;
            credentialId <- member first "id" ;;
            ret (mkResult true credentialId
                   (match v with
                    | CliFlag => "Credentials imported successfully via N8N CLI (flag-based)"
                    | _ => "Credentials imported successfully via N8N CLI"
                    end)
                   (VObj ([ ("method", VStr (match v with
                                             | CliFlag => "flag_based_northflank_n8n_cli"
                                             | Queue => "northflank_n8n_cli_queue"
                                             | _ => "northflank_n8n_cli"
                                             end));
                            ("output", VStr (slice_to 500 stdout));
                            ("provider", VStr (provider credData));
                            ("tokenSource", col credData "token_source") ]
                          ++ match v with
                             | CliFlag => [ ("user_id", VStr (user_id credData)) ]
                             | _ => []
                             end)))
          else
            throw (Error ("Import failed - no success indicators found in output: "
                          +:+ stdout)))
         (fun error =>
            timestamp <- now_iso W ;;
            ret (mkResult false VUndef (message_or error "N8N CLI execution failed")
                   (VObj ([ ("error_type", VStr "cli_execution_error");
                            ("timestamp", VStr timestamp) ]
                          ++ match v with
                             | CliFlag => [ ("user_id", VStr (user_id credData));
                                            ("provider", VStr (provider credData)) ]
                             | _ => []
                             end)))))
      (try_catch (unlink W tempFilePath) (fun _ => ret tt))).
Proof. destruct v; reflexivity. Qed.

(** The CLI transport returns a result whatever the file system and the
    subprocess do, and a failure carries a message: in the single-record and
    queue scripts for every record context, in the batch script for every
    context whose user id is a text. *)
Lemma executeN8NImport_returns v jsonContent (credData : Context) :
  (v = CliFlag -> exists text, ctx_user_id credData = Some (JStr text)) ->
  total (executeN8NImport W v jsonContent credData) failure_has_message.
Proof.
  intros Htext. unfold executeN8NImport.
  eapply total_bind; [apply total_new_Date|]. intros d _.
  eapply total_bind with (Q := fun _ => True).
  { destruct v; try (apply total_ret; exact I).
    destruct (Htext eq_refl) as (text & ->). cbn [user_id_slice].
    eapply total_bind with (Q := fun _ => True); [apply total_ret; exact I|].
    intros part _. apply total_ret. exact I. }
  intros suffix _.
  apply total_try_finally. apply total_try_catch.
  - eapply ensures_bind; [apply ensures_any|]. intros _ _.
    eapply ensures_bind; [apply ensures_any|]. intros out _.
    destruct (isSuccess (fst out)); [|apply ensures_throw].
    eapply ensures_bind; [apply ensures_any|]. intros parsed _.
    eapply ensures_bind; [apply ensures_any|]. intros first _.
    eapply ensures_bind; [apply ensures_any|]. intros cid _.
    apply ensures_ret. intros [=].
  - intros e. eapply total_bind; [apply total_now_iso|]. intros ts _.
    apply total_ret. intros _. simpl. apply message_or_nonempty. discriminate.
Qed.

(** So it does on every record of the table. *)
Lemma executeN8NImport_total v jsonContent (credData : Row) :
  total (executeN8NImport W v jsonContent credData) failure_has_message.
Proof.
  apply executeN8NImport_returns. intros _. eexists. reflexivity.
Qed.

(** On the import file the orchestrator writes, a success of the CLI
    transport reports the id of the payload. *)
Lemma executeN8NImport_id v id fields (credData : Context) :
  ensures (executeN8NImport W v
             (generateCredentialJSON v [VObj (("id", VStr id) :: fields)]) credData)
          (fun res => success res = true -> credentialId res = VStr id).
Proof.
  unfold executeN8NImport.
  eapply ensures_bind; [apply ensures_any|]. intros d _.
  eapply ensures_bind; [apply ensures_any|]. intros suffix _.
  apply ensures_try_finally. apply ensures_try_catch.
  - eapply ensures_bind; [apply ensures_any|]. intros _ _.
    eapply ensures_bind; [apply ensures_any|]. intros out _.
    destruct (isSuccess (fst out)); [|apply ensures_throw].
    eapply ensures_bind with
      (Q := fun parsed => exists rest, parsed = VArr [VObj (("id", VStr id) :: rest)]).
    { destruct v; cbn;
        first [ apply ensures_ret
              | eapply ensures_weaken; [apply ensures_member|]; intros a ->; cbn ];
        eexists; reflexivity. }
    intros parsed (rest & ->).
    eapply ensures_bind; [apply ensures_index0_cons|]. intros first ->.
    eapply ensures_bind; [apply ensures_member|]. intros cid ->.
    apply ensures_ret. intros _. reflexivity.
  - intros e. eapply ensures_bind; [apply ensures_any|]. intros ts _.
    apply ensures_ret. intros [=].
Qed.

(** The HTTP transport returns a result whatever the request does; a failure
    carries a message and a success carries the id the API returned, which
    is truthy. *)
Lemma createN8NCredential_total v authToken credentialData :
  total (createN8NCredential W v authToken credentialData)
        (fun res => failure_has_message res /\
                    (success res = true -> truthy (credentialId res) = true)).
Proof.
  unfold createN8NCredential. apply total_try_catch.
  - eapply ensures_bind; [apply ensures_any|]. intros response _.
    destruct (resp_ok response); cbn [negb].
    + eapply ensures_bind; [apply ensures_any|]. intros result _.
      eapply ensures_bind; [apply ensures_any|]. intros data _.
      destruct (truthy data); cbn [negb orb]; [|apply ensures_throw].
      destruct (truthy (prop data "id")) eqn:Hid; cbn [negb];
        [|apply ensures_throw].
      eapply ensures_bind; [apply ensures_any|]. intros ts _.
      apply ensures_ret. split; [intros [=] | intros _; exact Hid].
    + eapply ensures_bind; [apply ensures_any|]. intros errorText _.
      apply ensures_throw.
  - intros e. eapply total_bind; [apply total_now_iso|]. intros ts _.
    apply total_ret. split; [|intros [=]].
    intros _. simpl. apply message_or_nonempty. discriminate.
Qed.

(** The direct insert returns a result whatever the cipher and the database
    do; a success carries the generated id. *)
Lemma insertCredentialToDatabase_total encryptionKey credData :
  total (insertCredentialToDatabase W encryptionKey credData)
        (fun res => success res = true -> exists id, credentialId res = VStr id).
Proof.
  unfold insertCredentialToDatabase. apply total_try_catch.
  - eapply ensures_bind; [apply ensures_any|]. intros p _.
    eapply ensures_bind; [apply ensures_any|]. intros rowCount _.
    destruct (0 <? rowCount)%Z; [|apply ensures_throw].
    apply ensures_ret. intros _. eexists. reflexivity.
  - intros e. apply total_ret. intros [=].
Qed.

(** On a record of the table the transport of every variant returns a
    [Result] from every state and for every answer of the file system, the
    subprocess, the HTTP exchange or the database.  In the CLI and HTTP
    variants a failure carries a non-empty message.  A success carries a
    credential id: the id the API returned (truthy) in the HTTP variants,
    the id of the payload that was written to the import file in the CLI
    variants, the generated id in the direct insert. *)
Lemma transport_returns_on_records (v : variant) (authToken payload : jsval)
    (credData : Row) :
  total
    (match v with
     | CliFlag | CliSingle | Queue => executeN8NImport W v payload credData
     | ApiA | ApiB => createN8NCredential W v authToken payload
     | Direct =>
         insertCredentialToDatabase W (w_config W "N8N_ENCRYPTION_KEY") credData
     end)
    (fun res =>
       match v with
       | CliFlag | CliSingle | Queue =>
           failure_has_message res /\
           (success res = true ->
            forall id fields,
              payload = generateCredentialJSON v [VObj (("id", VStr id) :: fields)] ->
              credentialId res = VStr id)
       | ApiA | ApiB =>
           failure_has_message res /\
           (success res = true -> truthy (credentialId res) = true)
       | Direct =>
           success res = true -> exists id, credentialId res = VStr id
       end).
Proof.
  assert (Hcli : forall v',
    total (executeN8NImport W v' payload credData)
      (fun res =>
         failure_has_message res /\
         (success res = true ->
          forall id fields,
            payload = generateCredentialJSON v' [VObj (("id", VStr id) :: fields)] ->
            credentialId res = VStr id))).
  { intros v' s.
    destruct (executeN8NImport_total v' payload credData s) as (res & s' & E & Hm).
    exists res, s'. split; [exact E|]. split; [exact Hm|].
    intros Hs id fields ->.
    exact (executeN8NImport_id v' id fields credData s res s' E Hs). }
  destruct v;
    first [ apply Hcli
          | apply createN8NCredential_total
          | apply insertCredentialToDatabase_total ].
Qed.

(** C8: the CLI transport of the batch script does throw.  It names the
    import file after [credData.user_id.slice(0, 8)] before it enters its
    [try]: on a record context whose [user_id] is a number the [TypeError]
    of that call leaves [executeN8NImport] once the clock has been read,
    with no file written and no command run, whatever the payload, the rest
    of the context and the world.  Nothing else of the function is outside
    the [try]: on the same context the single-record and queue scripts,
    which name the file after the clock alone, return a [Result] whose
    failure carries a message, and so does the batch script as soon as the
    user id is a text. *)
Theorem C8_flag_based_import_throws_before_its_try
    (payload providerName tokenSource : jsval) (n : Z) (s : State) :
  let credData := mkContext (Some (JNum n)) providerName tokenSource in
  executeN8NImport W CliFlag payload credData s
    = (Throw (Error "credData.user_id.slice is not a function"), ticked s)
  /\ (exists res s',
        executeN8NImport W CliSingle payload credData s = (Ok res, s')
        /\ failure_has_message res)
  /\ (exists res s',
        executeN8NImport W Queue payload credData s = (Ok res, s')
        /\ failure_has_message res)
  /\ (forall text, exists res s',
        executeN8NImport W CliFlag payload
          (mkContext (Some (JStr text)) providerName tokenSource) s = (Ok res, s')
        /\ failure_has_message res).
Proof.
  intros credData. split; [|split; [|split]].
  - reflexivity.
  - apply executeN8NImport_returns. discriminate.
  - apply executeN8NImport_returns. discriminate.
  - intros text. apply executeN8NImport_returns. intros _. exists text. reflexivity.
Qed.

(** ** The success heuristic of the CLI transport *)

Lemma append_cons c r x : String c r +:+ x = String c (r +:+ x).
Proof. reflexivity. Qed.

Lemma append_empty_l x : "" +:+ x = x.
Proof. reflexivity. Qed.

Lemma prefix_spec p s : String.prefix p s = true <-> exists post, s = p +:+ post.
Proof.
  revert s. induction p as [|a p IH]; intros s.
  - split; [intros _; exists s; reflexivity | intros _; destruct s; reflexivity].
  - destruct s as [|b s].
    + split; [discriminate | intros (post & H); discriminate].
    + cbn [String.prefix]. destruct (ascii_dec a b) as [->|Hne].
      * rewrite IH. split; intros (post & H); exists post.
        -- rewrite append_cons. now rewrite H.
        -- rewrite append_cons in H. now injection H.
      * split; [discriminate|]. intros (post & H).
        rewrite append_cons in H. injection H as H1 _. congruence.
Qed.

(** [includes] decides occurrence. *)
Lemma includes_spec s needle : includes s needle = true <-> is_substring needle s.
Proof.
  unfold is_substring. induction s as [|c r IH].
  - cbn [includes]. rewrite orb_false_r, prefix_spec. split.
    + intros (post & H). exists "", post. exact H.
    + intros (pre & post & H). destruct pre; [|discriminate].
      exists post. exact H.
  - cbn [includes]. rewrite orb_true_iff, prefix_spec, IH. split.
    + intros [(post & H)|(pre & post & H)].
      * exists "", post. exact H.
      * exists (String c pre), post. rewrite append_cons. now rewrite H.
    + intros (pre & post & H). destruct pre as [|c' pre].
      * left. exists post. exact H.
      * right. rewrite append_cons in H. injection H as _ H.
        exists pre, post. exact H.
Qed.



(** ** Rules for [throws] and [logs] *)

Lemma throws_ret {A} (a : A) R : throws (ret a) R.
Proof. intros s e s' [=]. Qed.

Lemma throws_throw {A} e (R : exn -> Prop) : R e -> throws (@throw A e) R.
Proof. intros H s e' s' [= <- _]. exact H. Qed.

Lemma throws_bind {A B} (m : M A) (f : A -> M B) (Q : A -> Prop) R :
  ensures m Q -> throws m R -> (forall a, Q a -> throws (f a) R) ->
  throws (bind m f) R.
Proof.
  intros Hq Hm Hf s e s'. unfold bind.
  destruct (m s) as [[a|e'] s1] eqn:E.
  - apply Hf. eapply Hq. exact E.
  - intros [= <- _]. eapply Hm. exact E.
Qed.

Lemma throws_total {A} (m : M A) P R : total m P -> throws m R.
Proof.
  intros Ht s e s' E. destruct (Ht s) as (a & s1 & E1 & _). congruence.
Qed.

Lemma logs_nothing {A} (m : M A) P :
  (forall s, calls (snd (m s)) = calls s) -> logs m P.
Proof. intros H s. exists []. split; [apply H | constructor]. Qed.

Lemma logs_ret {A} (a : A) P : logs (ret a) P.
Proof. now apply logs_nothing. Qed.

Lemma logs_throw {A} e P : logs (@throw A e) P.
Proof. now apply logs_nothing. Qed.

Lemma logs_tick P : logs tick P.
Proof. now apply logs_nothing. Qed.

Lemma logs_warn msg P : logs (warn msg) P.
Proof. now apply logs_nothing. Qed.

Lemma logs_lift {A} (r : exn + A) P : logs (lift r) P.
Proof. apply logs_nothing. now destruct r. Qed.

Lemma logs_emit c (P : call -> Prop) : P c -> logs (emit c) P.
Proof. intros H s. exists [c]. split; [reflexivity | now constructor]. Qed.

Lemma logs_bind {A B} (m : M A) (f : A -> M B) (Q : A -> Prop) P :
  ensures m Q -> logs m P -> (forall a, Q a -> logs (f a) P) ->
  logs (bind m f) P.
Proof.
  intros Hq Hm Hf s. destruct (Hm s) as (n1 & E1 & F1). unfold bind.
  destruct (m s) as [[a|e] s1] eqn:E; simpl in E1.
  - destruct (Hf a (Hq _ _ _ E) s1) as (n2 & E2 & F2).
    exists (n2 ++ n1). rewrite E2, E1, app_assoc. split; [reflexivity|].
    now apply Forall_app.
  - exists n1. now split.
Qed.

Lemma logs_seq {A B} (m : M A) (f : A -> M B) P :
  logs m P -> (forall a, logs (f a) P) -> logs (bind m f) P.
Proof.
  intros Hm Hf. apply logs_bind with (Q := fun _ => True);
    [apply ensures_any | exact Hm | intros a _; apply Hf].
Qed.

Lemma logs_try_catch {A} (m : M A) h (R : exn -> Prop) P :
  throws m R -> logs m P -> (forall e, R e -> logs (h e) P) ->
  logs (try_catch m h) P.
Proof.
  intros Hr Hm Hh s. destruct (Hm s) as (n1 & E1 & F1). unfold try_catch.
  destruct (m s) as [[a|e] s1] eqn:E; simpl in E1.
  - exists n1. now split.
  - destruct (Hh e (Hr _ _ _ E) s1) as (n2 & E2 & F2).
    exists (n2 ++ n1). rewrite E2, E1, app_assoc. split; [reflexivity|].
    now apply Forall_app.
Qed.

Lemma logs_try_finally {A} (m : M A) f P :
  logs m P -> logs f P -> logs (try_finally m f) P.
Proof.
  intros Hm Hf s. destruct (Hm s) as (n1 & E1 & F1). unfold try_finally.
  destruct (m s) as [r s1]; simpl in E1.
  destruct (Hf s1) as (n2 & E2 & F2).
  exists (n2 ++ n1). simpl. rewrite E2, E1, app_assoc. split; [reflexivity|].
  now apply Forall_app.
Qed.

Lemma throws_any {A} (m : M A) : throws m (fun _ => True).
Proof. intros s e s' _. exact I. Qed.

(** The primitives log one call each, or none. *)
Lemma logs_now_iso P : logs (now_iso W) P.
Proof. now apply logs_nothing. Qed.

Lemma logs_new_Date P : logs (new_Date W) P.
Proof. now apply logs_nothing. Qed.

Lemma logs_randomUUID P : logs (randomUUID W) P.
Proof. now apply logs_nothing. Qed.

Lemma logs_member o k P : logs (member o k) P.
Proof. apply logs_nothing. now destruct o. Qed.

Lemma logs_index0 o P : logs (index0 o) P.
Proof.
  apply logs_nothing. destruct o as [| | | |str|[|x l]|fs|]; try reflexivity.
  now destruct str.
Qed.

Ltac logs_step :=
  first
    [ apply logs_ret | apply logs_throw | apply logs_tick | apply logs_warn
    | apply logs_lift | apply logs_now_iso | apply logs_new_Date
    | apply logs_randomUUID | apply logs_member | apply logs_index0
    | apply logs_emit; exact I
    | apply logs_seq; [|intros ?]
    | apply logs_try_finally
    | eapply logs_try_catch; [apply throws_any | | intros ? _] ].

Lemma logs_writeFile path doc G : logs (writeFile W path doc) (on_updates G).
Proof. unfold writeFile. repeat logs_step. destruct (w_writeFile _ _); logs_step. Qed.

Lemma logs_execAsync cmd G : logs (execAsync W cmd) (on_updates G).
Proof. unfold execAsync. repeat logs_step. Qed.

Lemma logs_unlink path G : logs (unlink W path) (on_updates G).
Proof. unfold unlink. repeat logs_step. destruct (w_unlink _ _); logs_step. Qed.

Lemma logs_fetch url cookie body G : logs (fetch W url cookie body) (on_updates G).
Proof. unfold fetch. repeat logs_step. Qed.

Lemma logs_pg_query values G : logs (pg_query W values) (on_updates G).
Proof. unfold pg_query. repeat logs_step. Qed.

Lemma logs_encrypt key data P : logs (encrypt W key data) P.
Proof.
  apply logs_nothing. intros s. unfold encrypt, randomBytes, tick, ret, throw, bind.
  cbn [calls snd]. destruct key; [|reflexivity].
  destruct (negb _); [reflexivity|].
  destruct (JSON_stringify data); [|reflexivity].
  destruct (cipher_update _ _ _). reflexivity.
Qed.

(** No transport writes back. *)
Lemma logs_executeN8NImport v jsonContent (credData : Row) G :
  logs (executeN8NImport W v jsonContent credData) (on_updates G).
Proof.
  rewrite executeN8NImport_row; cbv zeta.
  repeat first [ apply logs_writeFile | apply logs_execAsync | apply logs_unlink
               | logs_step
               | match goal with
                 | |- logs (if ?b then _ else _) _ => destruct b
                 | |- logs (match ?v with CliFlag => _ | _ => _ end) _ => destruct v
                 end ].
Qed.

Lemma logs_createN8NCredential v authToken payload G :
  logs (createN8NCredential W v authToken payload) (on_updates G).
Proof.
  unfold createN8NCredential.
  repeat first [ apply logs_fetch | logs_step
               | match goal with
                 | |- logs (if ?b then _ else _) _ => destruct b
                 end ].
Qed.

Lemma logs_credential_values key credData P :
  logs (credential_values W key credData) P.
Proof.
  unfold credential_values.
  repeat first [ apply logs_encrypt | logs_step
               | match goal with
                 | |- logs (if ?b then _ else _) _ => destruct b
                 end ].
Qed.

Lemma logs_insertCredentialToDatabase key credData G :
  logs (insertCredentialToDatabase W key credData) (on_updates G).
Proof.
  unfold insertCredentialToDatabase.
  repeat first [ apply logs_credential_values | apply logs_pg_query | logs_step
               | match goal with
                 | |- logs (if ?b then _ else _) _ => destruct b
                 end ].
Qed.

Lemma logs_createCredentialTemplate v credData P :
  logs (createCredentialTemplate W v credData) P.
Proof.
  unfold createCredentialTemplate.
  repeat first [ logs_step
               | match goal with
                 | |- logs (if ?b then _ else _) _ => destruct b
                 | |- logs (match ?v with CliFlag => _ | _ => _ end) _ => destruct v
                 end ].
Qed.

Lemma logs_createCredentialPayload v credData P :
  logs (createCredentialPayload W v credData) P.
Proof.
  unfold createCredentialPayload.
  repeat first [ logs_step
               | match goal with
                 | |- logs (if ?b then _ else _) _ => destruct b
                 end ].
Qed.

Lemma logs_inject v authToken credData G :
  logs (inject W v authToken credData) (on_updates G).
Proof.
  destruct v; unfold inject;
    first [ apply logs_insertCredentialToDatabase
          | apply logs_seq;
            [ first [apply logs_createCredentialTemplate
                    | apply logs_createCredentialPayload]
            | intros ?; first [apply logs_executeN8NImport
                              | apply logs_createN8NCredential] ] ].
Qed.

(** ** The write-back *)

(** The data of the write-back of a flag-based variant. *)
Lemma updateData_of_flag_based v success cid msg details injected_at a b c :
  flag_based v = true ->
  let d := updateData_of v success cid msg details injected_at a b c in
  d !! "injection_requested" = Some (VBool false) /\
  d !! "injected_to_n8n" = Some (VBool success) /\
  d !! "injection_error" = Some (if success then VNull else VStr msg) /\
  d !! "n8n_credential_id" = (if truthy cid then Some cid else None).
Proof.
  intros Hv d. subst d. unfold updateData_of.
  destruct v; try discriminate Hv; destruct (truthy cid);
    repeat split; reflexivity.
Qed.

(** The data of the write-back of the single-record and queue variants
    leaves the request flag alone. *)
Lemma updateData_of_not_flag_based v success cid msg details injected_at a b c :
  flag_based v = false ->
  updateData_of v success cid msg details injected_at a b c
    !! "injection_requested" = None.
Proof.
  intros Hv. unfold updateData_of.
  destruct v; try discriminate Hv; destruct (truthy cid); reflexivity.
Qed.

Lemma total_ensures {A} (m : M A) P : total m P -> ensures m P.
Proof.
  intros Ht s a s' E. destruct (Ht s) as (a' & s1 & E1 & Ha). congruence.
Qed.

Lemma logs_supabase_update uid prov ts d (G : _ -> _ -> _ -> _ -> Prop) :
  G uid prov ts d -> logs (supabase_update W uid prov ts d) (on_updates G).
Proof.
  intros HG. unfold supabase_update.
  apply logs_seq; [apply logs_tick|]. intros t.
  apply logs_seq; [apply logs_emit; exact HG|]. intros _.
  destruct (w_update W t); [apply logs_ret|].
  apply logs_seq; [now apply logs_nothing|]. intros rows.
  apply logs_seq; [now apply logs_nothing | intros _; apply logs_ret].
Qed.

(** The write-back logs one call: the update, with the data built from the
    arguments. *)
Lemma logs_updateCredentialStatus v uid prov ts success cid msg details
    (G : _ -> _ -> _ -> _ -> Prop) :
  (forall injected_at a b c,
     G uid prov (token_filter v ts)
       (updateData_of v success cid msg details injected_at a b c)) ->
  logs (updateCredentialStatus W v uid prov ts success cid msg details)
       (on_updates G).
Proof.
  intros HG. unfold updateCredentialStatus.
  apply logs_seq.
  { destruct success; repeat logs_step. }
  intros injected_at. repeat (apply logs_seq; [apply logs_now_iso | intros ?]).
  apply logs_seq; [apply logs_supabase_update, HG|].
  intros [m|]; [apply logs_throw | apply logs_ret].
Qed.

Lemma append_nonempty_l a b : a <> "" -> a +:+ b <> "".
Proof. destruct a; [congruence | discriminate]. Qed.

(** What the write-back throws has a message. *)
Lemma throws_updateCredentialStatus v uid prov ts success cid msg details :
  throws (updateCredentialStatus W v uid prov ts success cid msg details)
         (fun e => message e <> "").
Proof.
  unfold updateCredentialStatus.
  apply throws_bind with (Q := fun _ => True); [apply ensures_any | |].
  { destruct success; [|apply throws_ret].
    eapply throws_total. eapply total_bind; [apply total_now_iso|].
    intros a _. apply (total_ret _ (fun _ => True)). exact I. }
  intros injected_at _.
  repeat (apply throws_bind with (Q := fun _ => True);
          [apply ensures_any | eapply throws_total, total_now_iso | intros ? _]).
  apply throws_bind with (Q := fun _ => True); [apply ensures_any | |].
  { intros s e s'. unfold supabase_update, emit, tick, get_table, set_table, ret, bind.
    destruct (w_update W (ticks s)); discriminate. }
  intros [m|] _; [|apply throws_ret].
  apply throws_throw. simpl. apply append_nonempty_l. destruct v; discriminate.
Qed.

Lemma result_message_or_nonempty r fallback :
  fallback <> "" -> result_message_or r fallback <> "".
Proof.
  unfold result_message_or. intros H.
  destruct (String.eqb (result_message r) "") eqn:E; [exact H|].
  now apply String.eqb_neq in E.
Qed.

Lemma throws_createCredentialTemplate v credData :
  throws (createCredentialTemplate W v credData) (fun e => message e <> "").
Proof.
  unfold createCredentialTemplate.
  apply throws_bind with (Q := fun _ => True);
    [apply ensures_any | intros s e s' [=] | intros id _].
  apply throws_bind with (Q := fun _ => True);
    [apply ensures_any | intros s e s' [=] | intros d _].
  destruct (negb _).
  - apply throws_throw. discriminate.
  - destruct v; try apply throws_ret;
      (apply throws_bind with (Q := fun _ => True);
         [apply ensures_any | intros s e s' [=] | intros c _];
       apply throws_bind with (Q := fun _ => True);
         [apply ensures_any | intros s e s' [=] | intros u _];
       apply throws_ret).
Qed.

Lemma throws_createCredentialPayload v credData :
  throws (createCredentialPayload W v credData) (fun e => message e <> "").
Proof.
  unfold createCredentialPayload.
  apply throws_bind with (Q := fun _ => True);
    [apply ensures_any | intros s e s' [=] | intros d _].
  destruct (negb _); [apply throws_throw; discriminate | apply throws_ret].
Qed.

(** What a delivery throws (only the builder can) has a message. *)
Lemma throws_inject v authToken credData :
  throws (inject W v authToken credData) (fun e => message e <> "").
Proof.
  destruct v; unfold inject;
    first
      [ eapply throws_total, insertCredentialToDatabase_total
      | apply throws_bind with (Q := fun _ => True);
        [ apply ensures_any
        | first [ apply throws_createCredentialTemplate
                | apply throws_createCredentialPayload ]
        | intros t _;
          first [ eapply throws_total, executeN8NImport_total
                | eapply throws_total, createN8NCredential_total ] ] ].
Qed.

Section NonEmptyIds.

(** [crypto.randomUUID()] never returns the empty string. *)
Hypothesis uuid_nonempty : forall t, w_uuid W t <> "".

Lemma ensures_randomUUID : ensures (randomUUID W) (fun id => id <> "").
Proof. intros s a s' [= <- _]. apply uuid_nonempty. Qed.

Lemma truthy_VStr id : id <> "" -> truthy (VStr id) = true.
Proof. intros H. simpl. apply String.eqb_neq in H. now rewrite H. Qed.

Lemma ensures_createCredentialTemplate v credData :
  ensures (createCredentialTemplate W v credData)
          (fun t => exists id fields,
                      t = VObj (("id", VStr id) :: fields) /\ id <> "").
Proof.
  unfold createCredentialTemplate.
  eapply ensures_bind; [apply ensures_randomUUID|]. intros id Hid.
  eapply ensures_bind; [apply ensures_any|]. intros d _.
  destruct (negb _); [apply ensures_throw|].
  destruct v; try (apply ensures_ret; do 2 eexists; split; [reflexivity|exact Hid]);
    (eapply ensures_bind; [apply ensures_any|]; intros c _;
     eapply ensures_bind; [apply ensures_any|]; intros u _;
     apply ensures_ret; do 2 eexists; split; [reflexivity|exact Hid]).
Qed.

Lemma ensures_credential_values key credData :
  ensures (credential_values W key credData) (fun p => prepared_id p <> "").
Proof.
  unfold credential_values.
  eapply ensures_bind; [apply ensures_any|]. intros d _.
  eapply ensures_bind; [apply ensures_randomUUID|]. intros id Hid.
  destruct (negb _); [apply ensures_throw|].
  eapply ensures_bind; [apply ensures_any|]. intros enc _.
  apply ensures_ret. exact Hid.
Qed.

(** A successful delivery carries a truthy credential id. *)
Lemma ensures_inject v authToken credData :
  ensures (inject W v authToken credData)
          (fun res => success res = true -> truthy (credentialId res) = true).
Proof.
  assert (Hcli : forall v',
    ensures (credentialTemplate <- createCredentialTemplate W v' credData ;;
             executeN8NImport W v'
               (generateCredentialJSON v' [credentialTemplate]) credData)
            (fun res => success res = true -> truthy (credentialId res) = true)).
  { intros v'. eapply ensures_bind; [apply ensures_createCredentialTemplate|].
    intros t (id & fields & -> & Hid).
    eapply ensures_weaken; [apply executeN8NImport_id|].
    intros res H Hs. rewrite (H Hs). now apply truthy_VStr. }
  assert (Hapi : forall v',
    ensures (credentialData <- createCredentialPayload W v' credData ;;
             createN8NCredential W v' authToken credentialData)
            (fun res => success res = true -> truthy (credentialId res) = true)).
  { intros v'. eapply ensures_bind; [apply ensures_any|]. intros p _.
    eapply ensures_weaken;
      [apply total_ensures, createN8NCredential_total | intros res [_ H]; exact H]. }
  destruct v; unfold inject; try apply Hcli; try apply Hapi.
  unfold insertCredentialToDatabase. apply ensures_try_catch.
  - eapply ensures_bind; [apply ensures_credential_values|]. intros p Hp.
    eapply ensures_bind; [apply ensures_any|]. intros n _.
    destruct (0 <? n)%Z; [|apply ensures_throw].
    apply ensures_ret. intros _. now apply truthy_VStr.
  - intros e. apply ensures_ret. intros [=].
Qed.

(** Every write-back of the record loop's body, in a flag-based variant, is
    addressed to the record and asks for what the specification says. *)
Lemma logs_process_record v authToken credData :
  flag_based v = true ->
  logs (process_record W v authToken credData)
       (on_updates (fun u p t d =>
          u = user_id credData /\ p = provider credData /\
          t = Some (col credData "token_source") /\ good_update d)).
Proof.
  intros Hv.
  assert (Hu : writeback_user W v credData = user_id credData)
    by (destruct v; try discriminate Hv; reflexivity).
  assert (Ht : writeback_token v credData = col credData "token_source")
    by (destruct v; try discriminate Hv; reflexivity).
  assert (Hf : forall ts, token_filter v ts = Some ts)
    by (destruct v; try discriminate Hv; reflexivity).
  unfold process_record, record_failure. rewrite Hu, Ht.
  assert (Hfail : forall e, message e <> "" ->
    logs (d <- failure_details W v credData ;;
          updateCredentialStatus W v (user_id credData) (provider credData)
            (col credData "token_source") false VNull (message e) d ;;;
          ret (Some false))
      (on_updates (fun u p t d =>
          u = user_id credData /\ p = provider credData /\
          t = Some (col credData "token_source") /\ good_update d))).
  { intros e He. apply logs_seq.
    { destruct v; unfold failure_details; repeat logs_step. }
    intros d. apply logs_seq; [|intros _; apply logs_ret].
    apply logs_updateCredentialStatus. intros ia a b c.
    rewrite Hf. repeat split.
    - apply (updateData_of_flag_based v false VNull (message e) d ia a b c Hv).
    - right. exists (message e).
      destruct (updateData_of_flag_based v false VNull (message e) d ia a b c Hv)
        as (_ & H1 & H2 & _). repeat split; assumption. }
  eapply logs_try_catch with (R := fun e => message e <> "").
  - apply throws_bind with (Q := fun _ => True);
      [apply ensures_any | apply throws_inject | intros res _].
    destruct (success res).
    + apply throws_bind with (Q := fun _ => True);
        [apply ensures_any | apply throws_updateCredentialStatus
        | intros _ _; apply throws_ret].
    + apply throws_throw. simpl. apply result_message_or_nonempty.
      destruct v; discriminate.
  - eapply logs_bind; [apply ensures_inject | apply logs_inject |].
    intros res Hres. simpl in Hres.
    destruct (success res); [specialize (Hres eq_refl) | apply logs_throw].
    apply logs_seq; [|intros _; apply logs_ret].
    apply logs_updateCredentialStatus. intros ia a b c.
    rewrite Hf. repeat split.
    + apply (updateData_of_flag_based v true (credentialId res) (success_note v)
               (details res) ia a b c Hv).
    + left. exists (credentialId res).
      destruct (updateData_of_flag_based v true (credentialId res) (success_note v)
                  (details res) ia a b c Hv) as (_ & H1 & H2 & H3).
      rewrite Hres in H3. repeat split; auto.
  - intros e He. destruct v; try discriminate Hv; try apply (Hfail e He).
    eapply logs_try_catch; [apply throws_any | apply (Hfail e He) |].
    intros e' _. apply logs_ret.
Qed.

End NonEmptyIds.

(** The write-back issues exactly one update, whatever the store answers:
    the one for the given key with the data built from the arguments. *)
Lemma updateCredentialStatus_calls v uid prov ts success cid msg details s :
  exists injected_at a b c,
    calls (snd (updateCredentialStatus W v uid prov ts success cid msg details s))
    = CUpdate uid prov (token_filter v ts)
        (updateData_of v success cid msg details injected_at a b c) :: calls s.
Proof.
  unfold updateCredentialStatus, supabase_update, now_iso, new_Date, emit, tick,
    get_table, set_table, throw, ret, bind.
  destruct success; cbn [ticks table calls warnings fst snd];
    destruct (w_update W _); cbn [calls snd]; do 4 eexists; reflexivity.
Qed.

Lemma logs_any_updates {A} (m : M A) G :
  logs m (on_updates G) -> logs m (fun _ => True).
Proof.
  intros H s. destruct (H s) as (new & E & _). exists new. split; [exact E|].
  apply Forall_forall. intros; exact I.
Qed.

Lemma logs_failure_details v credData P : logs (failure_details W v credData) P.
Proof. destruct v; unfold failure_details; repeat logs_step. Qed.

(** The failure branch of the record loop always issues a write-back. *)
Lemma write_failure_reports v uid prov ts credData msg s :
  exists new,
    calls (snd ((d <- failure_details W v credData ;;
                 updateCredentialStatus W v uid prov ts false VNull msg d ;;;
                 ret (Some false)) s)) = new ++ calls s /\
    Exists is_update new.
Proof.
  destruct (logs_failure_details v credData (fun _ => True) s) as (n0 & E0 & _).
  unfold bind at 1.
  destruct (failure_details W v credData s) as [[d|e] s0] eqn:Ed.
  2:{ exfalso. destruct v; unfold failure_details, now_iso, new_Date, tick, ret,
        bind in Ed; discriminate. }
  simpl in E0.
  destruct (updateCredentialStatus_calls v uid prov ts false VNull msg d s0)
    as (ia & a & b & c & Eu).
  unfold bind.
  destruct (updateCredentialStatus W v uid prov ts false VNull msg d s0)
    as [[[]|e] s1]; simpl in Eu |- *; rewrite Eu, E0;
    eexists (_ :: n0); (split; [reflexivity|]); left; exact I.
Qed.

(** The body of the record loop always issues a write-back, and after a
    delivery that succeeded it issues the one that records the transport's
    credential id. *)
Lemma process_record_reports v authToken credData s :
  exists new,
    calls (snd (process_record W v authToken credData s)) = new ++ calls s /\
    Exists is_update new /\
    (forall res s1,
       inject W v authToken credData s = (Ok res, s1) -> success res = true ->
       exists injected_at a b c,
         In (CUpdate (writeback_user W v credData) (provider credData)
               (token_filter v (writeback_token v credData))
               (updateData_of v true (credentialId res) (success_note v)
                  (details res) injected_at a b c)) new).
Proof.
  destruct (logs_any_updates _ _
              (logs_inject v authToken credData (fun _ _ _ _ => True)) s)
    as (n1 & E1 & _).
  assert (Hhandler : forall e s1,
    exists n2,
      calls (snd (record_failure W v credData e s1)) = n2 ++ calls s1 /\
      Exists is_update n2).
  { intros e s1.
    pose proof (write_failure_reports v (writeback_user W v credData)
                  (provider credData) (writeback_token v credData) credData
                  (message e) s1) as (n2 & E2 & X2).
    exists n2. split; [|exact X2].
    unfold record_failure. destruct v; try exact E2.
    cbv zeta. unfold try_catch.
    match type of E2 with
    | calls (snd (?m s1)) = _ => destruct (m s1) as [[r|e'] s2]
    end; exact E2. }
  unfold process_record, try_catch. unfold bind at 1.
  destruct (inject W v authToken credData s) as [[res|e] s1] eqn:Einj;
    simpl in E1.
  - destruct (success res) eqn:Es.
    + destruct (updateCredentialStatus_calls v (writeback_user W v credData)
                  (provider credData) (writeback_token v credData) true
                  (credentialId res) (success_note v) (details res) s1)
        as (ia & a & b & c & Eu).
      unfold bind.
      destruct (updateCredentialStatus W v (writeback_user W v credData)
                  (provider credData) (writeback_token v credData) true
                  (credentialId res) (success_note v) (details res) s1)
        as [[[]|e] s2]; simpl in Eu.
      * unfold ret. simpl. rewrite Eu, E1. eexists (_ :: n1).
        split; [reflexivity|]. split; [left; exact I|].
        intros res' s1' [= <- <-] _. exists ia, a, b, c. left. reflexivity.
      * destruct (Hhandler e s2) as (n2 & E2 & X2).
        rewrite E2, Eu, E1. eexists (n2 ++ _ :: n1).
        split; [rewrite <- app_assoc; reflexivity|].
        split; [apply Exists_app; left; exact X2|].
        intros res' s1' [= <- <-] _. exists ia, a, b, c.
        apply in_or_app. right. left. reflexivity.
    + unfold throw. destruct (Hhandler
        (Error (result_message_or res (failure_fallback v))) s1) as (n2 & E2 & X2).
      rewrite E2, E1. exists (n2 ++ n1).
      split; [now rewrite <- app_assoc|].
      split; [apply Exists_app; left; exact X2|].
      intros res' s1' [= <- <-] Hs. congruence.
  - destruct (Hhandler e s1) as (n2 & E2 & X2).
    rewrite E2, E1. exists (n2 ++ n1).
    split; [now rewrite <- app_assoc|].
    split; [apply Exists_app; left; exact X2|].
    intros res' s1' [=].
Qed.

Lemma clears_request_not_pending d row :
  clears_request d -> is_pending (apply_update d row) = false.
Proof.
  unfold clears_request, is_pending, apply_update, col. cbn [cols].
  intros H. rewrite (lookup_union_Some_l _ _ _ _ H). reflexivity.
Qed.


(** ** The record loop and the run *)

Lemma block_calls_cons b blocks :
  block_calls (b :: blocks) = block_calls blocks ++ snd b.
Proof.
  unfold block_calls. cbn [map rev]. rewrite concat_app. simpl.
  now rewrite app_nil_r.
Qed.

(** The loop makes its calls in blocks, one for each record it is handed, in
    the order of the list; it stops early only when the body throws. *)
Lemma process_all_blocks v authToken pending sc ec s :
  exists blocks,
    calls (snd (process_all W v authToken pending sc ec s))
      = block_calls blocks ++ calls s /\
    map fst blocks `prefix_of` pending /\
    Forall (block_of W v) blocks.
Proof.
  revert sc ec s. induction pending as [|c rest IH]; intros sc ec s.
  - exists []. split; [reflexivity|]. split; [apply prefix_nil | constructor].
  - cbn [process_all]. unfold bind.
    destruct (process_record_reports v authToken c s) as (cs & Ecs & _).
    destruct (process_record W v authToken c s) as [[r|e] s1] eqn:E;
      simpl in Ecs.
    + assert (Hrest : exists blocks,
        calls (snd (match r with
                    | Some true => process_all W v authToken rest (S sc) ec
                    | Some false => process_all W v authToken rest sc (S ec)
                    | None => process_all W v authToken rest sc ec
                    end s1)) = block_calls blocks ++ calls s1 /\
        map fst blocks `prefix_of` rest /\ Forall (block_of W v) blocks).
      { destruct r as [[|]|]; apply IH. }
      destruct Hrest as (blocks & Eb & Hp & Hf).
      exists ((c, cs) :: blocks). rewrite Eb, Ecs, block_calls_cons.
      split; [now rewrite <- app_assoc|]. split.
      * cbn [map fst]. now apply prefix_cons.
      * constructor; [|exact Hf]. exists authToken, s. simpl. now rewrite E.
    + exists [(c, cs)]. simpl. rewrite Ecs. unfold block_calls. simpl.
      rewrite app_nil_r. split; [reflexivity|]. split.
      * apply prefix_cons, prefix_nil.
      * constructor; [|constructor]. exists authToken, s. simpl. now rewrite E.
Qed.

(** The flag-based fetch: on a query error it throws; otherwise it returns
    the records built from the complete rows among the pending ones, in the
    order of the query, and warns about every other row.  It makes one
    external call and leaves the table and the calls alone. *)
Lemma fetchPendingCredentials_spec v s :
  fetchPendingCredentials W v s =
    match w_select W (ticks s) with
    | Some msg =>
        (Throw (Error ((match v with
                        | Direct => "Supabase query failed: "
                        | _ => "Database query failed: "
                        end) +:+ msg)), ticked s)
    | None =>
        (Ok (map (credData_of W v) (complete_rows (pending_rows (table s)))),
         warned (rev (skip_warnings v (pending_rows (table s)))) (ticked s))
    end.
Proof.
  unfold fetchPendingCredentials, supabase_select, get_table, tick, ret, throw, bind.
  cbn [ticks table]. destruct (w_select W (ticks s)); [reflexivity|].
  cbn [table]. fold (pending_rows (table s)).
  destruct (pending_rows (table s)) as [|row rest] eqn:E.
  - reflexivity.
  - rewrite validate_rows_spec. reflexivity.
Qed.

Lemma quiet_check_config v : quiet (check_config W v).
Proof.
  intros s. unfold check_config, ret, throw.
  destruct v;
    repeat match goal with
           | |- context [if ?b then _ else _] => destruct b
           | |- context [match ?l with [] => _ | _ :: _ => _ end] => destruct l
           end; split; reflexivity.
Qed.

Lemma quiet_connect_and_diagnose : quiet (connect_and_diagnose W).
Proof.
  intros s. unfold connect_and_diagnose, tick, ret, throw, bind. cbn [ticks].
  destruct (w_connect W (ticks s)); split; reflexivity.
Qed.

Lemma logs_prepare v : logs (prepare W v) (is_preflight W).
Proof.
  assert (Hcli : logs (check_cli W ;;; ret VUndef) (is_preflight W)).
  { apply logs_seq; [|intros _; apply logs_ret].
    unfold check_cli. eapply logs_try_catch; [apply throws_any | | intros e _; apply logs_throw].
    apply logs_seq; [|intros _; apply logs_ret].
    unfold execAsync. apply logs_seq; [apply logs_tick|]. intros t.
    apply logs_seq; [apply logs_emit; now left | intros _; apply logs_lift]. }
  destruct v; try exact Hcli; try apply logs_ret;
    (unfold prepare, authenticateN8N;
     eapply logs_try_catch; [apply throws_any | | intros e _; apply logs_throw];
     apply logs_seq;
       [ unfold fetch; apply logs_seq; [apply logs_tick|]; intros t;
         apply logs_seq; [apply logs_emit; right; eexists; reflexivity
                         | intros _; apply logs_lift]
       | intros response;
         destruct (negb (resp_ok response));
           [ apply logs_seq; [apply logs_lift | intros ?; apply logs_throw]
           | apply logs_seq; [apply logs_lift|]; intros authData;
             apply logs_seq; [apply logs_member|]; intros data;
             destruct (_ || _); [apply logs_throw | apply logs_ret] ] ]).
Qed.

(** A run of a flag-based variant: after the calls of the preparation, the
    calls come in blocks, one for each record of a prefix of the records
    built from the complete pending rows, in the order of the query. *)
Lemma main_batch_blocks v rows :
  flag_based v = true ->
  exists pre blocks,
    calls (snd (run W v rows)) = block_calls blocks ++ pre /\
    Forall (is_preflight W) pre /\
    map fst blocks `prefix_of`
      map (credData_of W v) (complete_rows (pending_rows rows)) /\
    Forall (block_of W v) blocks.
Proof.
  intros Hv.
  assert (Hnone : forall l : list Row, exists pre blocks,
    @nil call = block_calls blocks ++ pre /\ Forall (is_preflight W) pre /\
    map fst blocks `prefix_of` l /\
    Forall (block_of W v) blocks).
  { intros l. exists [], []. split; [reflexivity|]. split; [constructor|].
    split; [apply prefix_nil | constructor]. }
  assert (Hmain : main W v = main_batch W v)
    by (destruct v; try discriminate Hv; reflexivity).
  assert (Hfetch : fetch_batch W v = (l <- fetchPendingCredentials W v ;; ret (Some l)))
    by (destruct v; try discriminate Hv; reflexivity).
  unfold run. rewrite Hmain. unfold main_batch. rewrite Hfetch.
  set (s0 := initial rows).
  assert (Hcatch : forall (m : M nat) s,
    calls (snd (try_catch m (fun _ => ret 1%nat) s)) = calls (snd (m s))).
  { intros m s. unfold try_catch. now destruct (m s) as [[a|e] s']. }
  rewrite Hcatch. unfold bind at 1.
  destruct (quiet_check_config v s0) as [Hc1 Ht1].
  destruct (check_config W v s0) as [[[]|e] s1]; simpl in Hc1, Ht1;
    [|simpl; rewrite Hc1; apply Hnone].
  unfold bind at 1.
  assert (Hschema : exists ok s2,
    (match v with Direct => connect_and_diagnose W | _ => ret true end) s1
      = (ok, s2) /\ calls s2 = calls s1 /\ table s2 = table s1).
  { destruct v; try (do 2 eexists; split; [reflexivity|split; reflexivity]).
    destruct (quiet_connect_and_diagnose s1) as [H1 H2].
    destruct (connect_and_diagnose W s1) as [ok s2]. now exists ok, s2. }
  destruct Hschema as (ok & s2 & -> & Hc2 & Ht2).
  destruct ok as [schemaValid|e]; [|simpl; rewrite Hc2, Hc1; apply Hnone].
  destruct schemaValid; cbn [negb]; [|simpl; rewrite Hc2, Hc1; apply Hnone].
  unfold bind at 1. unfold bind at 1.
  rewrite fetchPendingCredentials_spec.
  destruct (w_select W (ticks s2)); [simpl; rewrite Hc2, Hc1; apply Hnone|].
  unfold ret at 1. rewrite Ht2, Ht1. cbn [table initial s0].
  set (pending := map (credData_of W v) (complete_rows (pending_rows rows))).
  set (s3 := warned _ (ticked s2)).
  assert (Hc3 : calls s3 = []) by (subst s3; simpl; now rewrite Hc2, Hc1).
  clearbody s3.
  destruct pending as [|c rest] eqn:Ep; [simpl; rewrite Hc3; apply Hnone|].
  unfold bind at 1.
  destruct (logs_prepare v s3) as (pre & Epre & Fpre).
  destruct (prepare W v s3) as [[authToken|e] s4]; simpl in Epre;
    rewrite Hc3, app_nil_r in Epre.
  2:{ simpl. rewrite Epre. exists pre, []. split; [reflexivity|].
      split; [exact Fpre|]. split; [apply prefix_nil | constructor]. }
  unfold bind at 1.
  destruct (process_all_blocks v authToken (c :: rest) 0 0 s4)
    as (blocks & Eb & Hp & Hf).
  destruct (process_all W v authToken (c :: rest) 0 0 s4) as [[counts|e] s5];
    simpl in Eb |- *; rewrite Eb, Epre; exists pre, blocks; repeat split; assumption.
Qed.


Lemma requested_at_credData_of v row :
  col (credData_of W v row) "injection_requested_at"
  = col row "injection_requested_at".
Proof. destruct v; reflexivity. Qed.

Lemma complete_rows_complete data row :
  In row (complete_rows data) -> incomplete row = false.
Proof.
  unfold complete_rows. rewrite filter_In. intros [_ H].
  now apply negb_true_iff in H.
Qed.



(** ** The order of processing *)

Global Instance key_le_total : Total key_le.
Proof. intros [x|] [y|]; simpl; try lia; tauto. Qed.

Global Instance key_le_trans : Transitive key_le.
Proof. intros [x|] [y|] [z|]; simpl; try lia; tauto. Qed.

Global Instance by_column_total k : Total (by_column k).
Proof. intros r1 r2. unfold by_column. apply key_le_total. Qed.

Global Instance by_column_trans k : Transitive (by_column k).
Proof. intros r1 r2 r3. unfold by_column. apply key_le_trans. Qed.

Lemma StronglySorted_filter {A} (R : relation A) f l :
  StronglySorted R l -> StronglySorted R (List.filter f l).
Proof.
  induction 1 as [|x l Hs IH Hx]; simpl; [constructor|].
  destruct (f x); [|exact IH]. constructor; [exact IH|].
  apply List.Forall_forall. intros y Hy. apply filter_In in Hy as [Hy _].
  rewrite List.Forall_forall in Hx. now apply Hx.
Qed.

Lemma StronglySorted_map {A B} (R : relation A) (R' : relation B) (f : A -> B) l :
  (forall x y, R x y -> R' (f x) (f y)) ->
  StronglySorted R l -> StronglySorted R' (map f l).
Proof.
  intros Hf. induction 1 as [|x l Hs IH Hx]; simpl; constructor; [exact IH|].
  apply List.Forall_forall. intros y Hy. apply in_map_iff in Hy as (z & <- & Hz).
  rewrite List.Forall_forall in Hx. apply Hf. now apply Hx.
Qed.

Lemma StronglySorted_prefix {A} (R : relation A) l1 l2 :
  l1 `prefix_of` l2 -> StronglySorted R l2 -> StronglySorted R l1.
Proof. intros [k ->] H. now apply StronglySorted_app_1_l in H. Qed.

Lemma StronglySorted_lookup {A} (R : relation A) (l : list A) i j a b :
  StronglySorted R l -> l !! i = Some a -> l !! j = Some b -> (i < j)%nat -> R a b.
Proof.
  intros Hs. revert i j. induction Hs as [|x l Hs IH Hx]; intros i j Hi Hj Hlt.
  - discriminate.
  - destruct j as [|j]; [lia|]. destruct i as [|i].
    + injection Hi as ->. cbn in Hj. rewrite List.Forall_forall in Hx.
      apply Hx. apply list_elem_of_In. eapply list_elem_of_lookup_2, Hj.
    + cbn in Hi, Hj. apply (IH i j Hi Hj). lia.
Qed.

(** The rows of the flag-based fetch are exactly the pending rows of the
    table, oldest request first. *)
Lemma pending_rows_spec rows :
  pending_rows rows ≡ₚ List.filter is_pending rows /\
  StronglySorted (by_column "injection_requested_at") (pending_rows rows).
Proof.
  unfold pending_rows, order_by. split.
  - apply merge_sort_Permutation.
  - apply StronglySorted_merge_sort; apply _.
Qed.

(** C7 (amended): the four flag-based batch variants fetch exactly the rows
    with [injection_requested = true] and [injected_to_n8n = false], ordered
    by [injection_requested_at] ascending, and process the records of the
    complete ones sequentially in that order: of two processed records with
    request times [T1 < T2], the one with [T1] comes first. *)
Theorem C7_flag_based_fifo (v : variant) (rows : list Row) :
  flag_based v = true ->
  pending_rows rows ≡ₚ List.filter is_pending rows /\
  StronglySorted (by_column "injection_requested_at") (pending_rows rows) /\
  (forall s pending s1,
     fetchPendingCredentials W v s = (Ok pending, s1) ->
     pending = map (credData_of W v) (complete_rows (pending_rows (table s)))) /\
  exists pre blocks,
    calls (snd (run W v rows)) = block_calls blocks ++ pre /\
    Forall (is_preflight W) pre /\
    map fst blocks `prefix_of`
      map (credData_of W v) (complete_rows (pending_rows rows)) /\
    Forall (block_of W v) blocks /\
    StronglySorted (by_column "injection_requested_at") (map fst blocks) /\
    (forall i j c1 c2 T1 T2,
       map fst blocks !! i = Some c1 -> map fst blocks !! j = Some c2 ->
       col c1 "injection_requested_at" = VNum T1 ->
       col c2 "injection_requested_at" = VNum T2 ->
       (T1 < T2)%Z -> (i < j)%nat).
Proof.
  intros Hv. destruct (pending_rows_spec rows) as [Hperm Hsorted].
  split; [exact Hperm|]. split; [exact Hsorted|]. split.
  { intros s pending s1. rewrite fetchPendingCredentials_spec.
    destruct (w_select W (ticks s)); [discriminate|]. now intros [= <- _]. }
  destruct (main_batch_blocks v rows Hv) as (pre & blocks & E & Fp & Hp & Hb).
  exists pre, blocks. repeat (split; [assumption|]).
  assert (Hs : StronglySorted (by_column "injection_requested_at") (map fst blocks)).
  { apply (StronglySorted_prefix _ _ _ Hp).
    apply StronglySorted_map with (R := by_column "injection_requested_at").
    - intros x y. unfold by_column. now rewrite !requested_at_credData_of.
    - apply StronglySorted_filter, Hsorted. }
  split; [exact Hs|].
  intros i j c1 c2 T1 T2 Hi Hj H1 H2 Hlt.
  destruct (Nat.lt_trichotomy i j) as [Hij|[->|Hji]]; [exact Hij | |].
  - rewrite Hi in Hj. injection Hj as <-. rewrite H1 in H2. injection H2 as <-. lia.
  - pose proof (StronglySorted_lookup _ _ _ _ _ _ Hs Hj Hi Hji) as Hle.
    unfold by_column in Hle. rewrite H1, H2 in Hle. simpl in Hle. lia.
Qed.

(** ** The cipher *)

Lemma list_ind3 {A} (P : list A -> Prop) :
  P [] -> (forall a, P [a]) -> (forall a b, P [a; b]) ->
  (forall a b c l, P l -> P (a :: b :: c :: l)) ->
  forall l, P l.
Proof.
  intros H0 H1 H2 H3.
  assert (H : forall l, P l /\ (forall a, P (a :: l)) /\ (forall a b, P (a :: b :: l))).
  { induction l as [|x l (IH0 & IH1 & IH2)].
    - repeat split; auto.
    - repeat split; auto. }
  intros l. apply H.
Qed.

Lemma string_app_assoc (a b c : string) : (a +:+ b) +:+ c = a +:+ (b +:+ c).
Proof. induction a as [|x a IH]; [reflexivity|]. rewrite !append_cons. now rewrite IH. Qed.

Lemma mod3_SSS n : (S (S (S n)) mod 3 = n mod 3)%nat.
Proof.
  change (S (S (S n))) with (3 + n)%nat.
  rewrite <- Nat.Div0.add_mod_idemp_l. reflexivity.
Qed.

(** Encoding a buffer whose first part is a whole number of 3-byte groups
    is encoding the parts. *)
Lemma base64_app a b :
  (length a mod 3 = 0)%nat -> base64 (a ++ b) = base64 a +:+ base64 b.
Proof.
  induction a as [|x|x y|x y z a IH] using list_ind3; intros H.
  - reflexivity.
  - discriminate H.
  - discriminate H.
  - cbn [length] in H. rewrite mod3_SSS in H.
    change ((x :: y :: z :: a) ++ b) with (x :: y :: z :: (a ++ b)).
    cbn [base64]. rewrite (IH H). now rewrite string_app_assoc.
Qed.

Lemma sub_mod_multiple n : ((n - n mod 3) mod 3 = 0)%nat.
Proof.
  pose proof (Nat.div_mod_eq n 3) as H.
  replace (n - n mod 3)%nat with (n `div` 3 * 3)%nat by lia.
  apply Nat.Div0.mod_mul.
Qed.

(** What the decoder has written and what it holds is the encoding of all
    it was given. *)
Lemma decoder_write_spec held buf :
  let '(text, held') := decoder_write held buf in
  exists done,
    text = base64 done /\ (length done mod 3 = 0)%nat /\ held ++ buf = done ++ held'.
Proof.
  unfold decoder_write. set (all := held ++ buf).
  exists (take (length all - length all mod 3) all).
  split; [reflexivity|]. split.
  - rewrite length_take.
    pose proof (Nat.Div0.mod_le (length all) 3).
    replace (_ `min` _)%nat with (length all - length all mod 3)%nat by lia.
    apply sub_mod_multiple.
  - now rewrite take_drop.
Qed.

Lemma decoder_end_spec held buf : decoder_end held buf = base64 (held ++ buf).
Proof.
  unfold decoder_end.
  pose proof (decoder_write_spec held buf) as H.
  destruct (decoder_write held buf) as [text held'].
  destruct H as (done & -> & Hm & ->). now rewrite base64_app.
Qed.

(** Chaining reads only the blocks it encrypts. *)
Lemma cbc_encrypt_app E chain n input more :
  length input = (16 * n)%nat ->
  cbc_encrypt E chain n (input ++ more) = cbc_encrypt E chain n input.
Proof.
  revert chain input. induction n as [|n IH]; intros chain input Hlen.
  - reflexivity.
  - cbn [cbc_encrypt].
    rewrite take_app_le, drop_app_le by lia.
    rewrite IH by (rewrite length_drop; lia). reflexivity.
Qed.

(** Chaining [n] blocks and then [m] more is chaining [n + m] blocks. *)
Lemma cbc_encrypt_add E chain n m input :
  (16 * n <= length input)%nat ->
  cbc_encrypt E chain (n + m) input =
    let '(out1, chain1) := cbc_encrypt E chain n input in
    let '(out2, chain2) := cbc_encrypt E chain1 m (drop (16 * n) input) in
    (out1 ++ out2, chain2).
Proof.
  revert chain input. induction n as [|n IH]; intros chain input Hlen.
  - change (16 * 0)%nat with 0%nat. rewrite drop_0. cbn [cbc_encrypt Nat.add].
    destruct (cbc_encrypt E chain m input). reflexivity.
  - cbn [cbc_encrypt Nat.add].
    rewrite IH by (rewrite length_drop; lia).
    replace (16 * S n)%nat with (16 + 16 * n)%nat by lia.
    rewrite <- drop_drop.
    destruct (cbc_encrypt E _ n (drop 16 input)) as [o1 c1].
    destruct (cbc_encrypt E c1 m _) as [o2 c2].
    now rewrite app_assoc.
Qed.

Lemma pkcs7_pad_drop data n :
  n = (length data / 16)%nat ->
  drop (16 * n) (pkcs7_pad data) = pkcs7_pad (drop (16 * n) data).
Proof.
  intros ->. unfold pkcs7_pad.
  pose proof (Nat.div_mod_eq (length data) 16) as Hdm.
  pose proof (Nat.mod_upper_bound (length data) 16 ltac:(lia)) as Hub.
  rewrite drop_app_le by lia. rewrite length_drop.
  replace (length data - 16 * (length data `div` 16))%nat
    with (length data mod 16)%nat by lia.
  rewrite Nat.Div0.mod_mod. reflexivity.
Qed.

Lemma pkcs7_pad_length data :
  length (pkcs7_pad data) = (16 * (length data / 16 + 1))%nat.
Proof.
  unfold pkcs7_pad. rewrite length_app, length_replicate.
  pose proof (Nat.div_mod_eq (length data) 16) as Hdm.
  pose proof (Nat.mod_upper_bound (length data) 16 ltac:(lia)) as Hub. lia.
Qed.

(** The streaming cipher of [update] and [final], with its base64 decoder,
    produces the base64 text of the one-piece AES-256-CBC encryption with
    PKCS#7 padding. *)
Lemma cipher_stream_spec E iv data :
  let '(encrypted, cipher) := cipher_update E (createCipheriv iv) data in
  encrypted +:+ cipher_final E cipher = base64 (aes_256_cbc_pkcs7 E iv data).
Proof.
  unfold cipher_update, cipher_final, createCipheriv, aes_256_cbc_pkcs7.
  cbn [cipher_chain cipher_pending cipher_held app].
  set (n := (length data / 16)%nat).
  pose proof (Nat.div_mod_eq (length data) 16) as Hdm. fold n in Hdm.
  rewrite pkcs7_pad_length. fold n.
  replace (16 * (n + 1) / 16)%nat with (n + 1)%nat
    by (symmetry; rewrite Nat.mul_comm; apply Nat.div_mul; lia).
  rewrite cbc_encrypt_add by (rewrite pkcs7_pad_length; fold n; lia).
  rewrite (pkcs7_pad_drop data n eq_refl).
  assert (Hfirst : cbc_encrypt E iv n (pkcs7_pad data) = cbc_encrypt E iv n data).
  { rewrite <- (take_drop (16 * n) data) at 2.
    unfold pkcs7_pad. rewrite <- (take_drop (16 * n) data) at 1.
    rewrite <- !app_assoc.
    rewrite !cbc_encrypt_app by (rewrite length_take; lia). reflexivity. }
  rewrite Hfirst.
  destruct (cbc_encrypt E iv n data) as [out1 chain1].
  pose proof (decoder_write_spec [] out1) as Hw.
  destruct (decoder_write [] out1) as [text held'].
  destruct Hw as (done & -> & Hm & Hall). cbn [app] in Hall.
  cbn [cipher_chain cipher_pending cipher_held].
  destruct (cbc_encrypt E chain1 1 (pkcs7_pad (drop (16 * n) data))) as [out2 chain2].
  cbn [fst]. rewrite decoder_end_spec, <- base64_app by exact Hm.
  now rewrite app_assoc, <- Hall.
Qed.

Lemma randomBytes_length n t : length (map (w_random W t) (seq 0 n)) = n.
Proof. now rewrite length_map, length_seq. Qed.

(** What [encrypt] returns, and the length of the IV it draws. *)
Lemma encrypt_spec (secret : string) (data : jsval) (json : string)
    (s : State) :
  length (w_sha256 W (utf8 secret)) = 32%nat ->
  JSON_stringify data = Some json ->
  let iv := map (w_random W (ticks s)) (seq 0 16) in
  let key := w_sha256 W (utf8 secret) in
  encrypt W (Some secret) data s =
    (Ok (hex iv +:+ ":" +:+
         base64 (aes_256_cbc_pkcs7 (w_aes_encrypt W key) iv (utf8 json))),
     ticked s) /\
  length iv = 16%nat.
Proof.
  intros Hlen Hjson iv key. split.
  - unfold encrypt, randomBytes, tick, ret, bind. rewrite Hlen, Hjson.
    cbn [Nat.eqb negb]. cbv beta iota. fold iv. fold key.
    pose proof (cipher_stream_spec (w_aes_encrypt W key) iv (utf8 json)) as H.
    destruct (cipher_update (w_aes_encrypt W key) (createCipheriv iv) (utf8 json))
      as [encrypted cipher].
    rewrite <- H. reflexivity.
  - apply randomBytes_length.
Qed.

(** C2: [encrypt] derives the key as the SHA-256 digest of the secret, with
    nothing else mixed in, draws a 16-byte IV at its own call, and returns
    the lower-case hexadecimal IV, a colon, and the base64 text of the
    AES-256-CBC encryption, with PKCS#7 padding, of the bytes of the JSON
    serialisation of the payload. *)
Theorem C2_encrypt_format (secret : string) (data : jsval) (json : string)
    (s : State) :
  length (w_sha256 W (utf8 secret)) = 32%nat ->
  JSON_stringify data = Some json ->
  let iv := map (w_random W (ticks s)) (seq 0 16) in
  let key := w_sha256 W (utf8 secret) in
  encrypt W (Some secret) data s =
    (Ok (hex iv +:+ ":" +:+
         base64 (aes_256_cbc_pkcs7 (w_aes_encrypt W key) iv (utf8 json))),
     ticked s) /\
  length iv = 16%nat /\
  String.length (hex iv) = 32%nat.
Proof.
  intros Hlen Hjson iv key.
  destruct (encrypt_spec secret data json s Hlen Hjson) as (H1 & H2).
  split; [exact H1|]. split; [exact H2|].
  subst iv. generalize (w_random W (ticks s)). intros f. reflexivity.
Qed.

(** *** Reading the stored string back *)

Lemma hex_byte_read c :
  exists h l x y,
    hex_byte c = String h (String l "") /\
    hex_value h = Some x /\ hex_value l = Some y /\
    ascii_of_N (16 * x + y) = c /\
    Ascii.eqb h ":" = false /\ Ascii.eqb l ":" = false.
Proof.
  destruct c as [[] [] [] [] [] [] [] []];
    do 4 eexists; repeat split; reflexivity.
Qed.

Lemma unhex_hex b : unhex (hex b) = Some b.
Proof.
  induction b as [|c b IH]; [reflexivity|].
  cbn [hex]. destruct (hex_byte_read c) as (h & l & x & y & -> & Hh & Hl & Hc & _).
  repeat first [rewrite append_cons | rewrite append_empty_l].
  cbn [unhex]. now rewrite Hh, Hl, IH, Hc.
Qed.

Lemma split_colon_hex b rest :
  split_colon (hex b +:+ ":" +:+ rest) = Some (hex b, rest).
Proof.
  induction b as [|c b IH]; [reflexivity|].
  cbn [hex]. destruct (hex_byte_read c) as (h & l & x & y & -> & _ & _ & _ & Hh & Hl).
  rewrite string_app_assoc.
  repeat first [rewrite append_cons | rewrite append_empty_l].
  repeat first [rewrite append_cons in IH | rewrite append_empty_l in IH].
  cbn [split_colon]. now rewrite Hh, Hl, IH.
Qed.

Lemma base64_char_read x0 x1 x2 x3 x4 x5 :
  base64_value (base64_char (Ascii x0 x1 x2 x3 x4 x5 false false))
    = Some (Ascii x0 x1 x2 x3 x4 x5 false false) /\
  Ascii.eqb (base64_char (Ascii x0 x1 x2 x3 x4 x5 false false)) pad_char = false.
Proof. destruct x0, x1, x2, x3, x4, x5; split; reflexivity. Qed.

Lemma unbase64_encode3 a b c rest :
  unbase64 (encode3 a b c +:+ rest) =
    match unbase64 rest with
    | Some l => Some (a :: b :: c :: l)
    | None => None
    end.
Proof.
  destruct a as [a0 a1 a2 a3 a4 a5 a6 a7], b as [b0 b1 b2 b3 b4 b5 b6 b7],
    c as [c0 c1 c2 c3 c4 c5 c6 c7].
  cbn [encode3]. repeat first [rewrite append_cons | rewrite append_empty_l].
  cbn [unbase64].
  destruct (base64_char_read a2 a3 a4 a5 a6 a7) as [-> _].
  destruct (base64_char_read b4 b5 b6 b7 a0 a1) as [-> _].
  destruct (base64_char_read c6 c7 b0 b1 b2 b3) as [-> _].
  destruct (base64_char_read c0 c1 c2 c3 c4 c5) as [-> ->].
  destruct (unbase64 rest); reflexivity.
Qed.

Lemma unbase64_encode2 a b : unbase64 (encode2 a b) = Some [a; b].
Proof.
  destruct a as [a0 a1 a2 a3 a4 a5 a6 a7], b as [b0 b1 b2 b3 b4 b5 b6 b7].
  unfold encode2. cbn [encode3 zero]. cbn [unbase64].
  destruct (base64_char_read a2 a3 a4 a5 a6 a7) as [-> _].
  destruct (base64_char_read b4 b5 b6 b7 a0 a1) as [-> _].
  destruct (base64_char_read false false b0 b1 b2 b3) as [-> ->].
  reflexivity.
Qed.

Lemma unbase64_encode1 a : unbase64 (encode1 a) = Some [a].
Proof.
  destruct a as [a0 a1 a2 a3 a4 a5 a6 a7].
  unfold encode1. cbn [encode3 zero]. cbn [unbase64].
  destruct (base64_char_read a2 a3 a4 a5 a6 a7) as [-> _].
  destruct (base64_char_read false false false false a0 a1) as [-> _].
  reflexivity.
Qed.

Lemma unbase64_base64 b : unbase64 (base64 b) = Some b.
Proof.
  induction b as [|x|x y|x y z b IH] using list_ind3.
  - reflexivity.
  - apply unbase64_encode1.
  - apply unbase64_encode2.
  - cbn [base64]. now rewrite unbase64_encode3, IH.
Qed.

Lemma xor_byte_cancel a c : xor_byte (xor_byte a c) c = a.
Proof.
  destruct a as [a0 a1 a2 a3 a4 a5 a6 a7], c as [c0 c1 c2 c3 c4 c5 c6 c7].
  cbn [xor_byte].
  f_equal; match goal with
           | |- xorb (xorb ?x ?y) ?y = ?x => destruct x, y; reflexivity
           end.
Qed.

Lemma xor_bytes_cancel a c :
  (length a <= length c)%nat -> xor_bytes (xor_bytes a c) c = a.
Proof.
  unfold xor_bytes. revert c. induction a as [|x a IH]; intros [|y c] H;
    try reflexivity; simpl in H; [lia|].
  cbn [zip_with]. rewrite xor_byte_cancel, IH by lia. reflexivity.
Qed.

Lemma xor_bytes_length a c :
  length (xor_bytes a c) = Nat.min (length a) (length c).
Proof. unfold xor_bytes. apply length_zip_with. Qed.

Section BlockCipher.

Variables E D : list byte -> list byte.
Hypothesis D_E : forall b, length b = 16%nat -> D (E b) = b.
Hypothesis E_length : forall b, length b = 16%nat -> length (E b) = 16%nat.

Lemma cbc_encrypt_length chain n input :
  length chain = 16%nat -> (16 * n <= length input)%nat ->
  length (fst (cbc_encrypt E chain n input)) = (16 * n)%nat.
Proof.
  revert chain input. induction n as [|n IH]; intros chain input Hc Hlen.
  - reflexivity.
  - cbn [cbc_encrypt].
    assert (Hblock : length (E (xor_bytes (take 16 input) chain)) = 16%nat).
    { apply E_length. rewrite xor_bytes_length, length_take. lia. }
    specialize (IH (E (xor_bytes (take 16 input) chain)) (drop 16 input) Hblock).
    destruct (cbc_encrypt E _ n (drop 16 input)) as [out last]. cbn [fst] in *.
    rewrite length_app, Hblock, IH by (rewrite length_drop; lia). lia.
Qed.

(** Decrypting the chain gives the blocks back. *)
Lemma cbc_decrypt_encrypt chain n input :
  length chain = 16%nat -> (16 * n <= length input)%nat ->
  cbc_decrypt D chain n (fst (cbc_encrypt E chain n input)) = take (16 * n) input.
Proof.
  revert chain input. induction n as [|n IH]; intros chain input Hc Hlen.
  - reflexivity.
  - cbn [cbc_encrypt].
    assert (Hx : length (xor_bytes (take 16 input) chain) = 16%nat).
    { rewrite xor_bytes_length, length_take. lia. }
    assert (Hblock : length (E (xor_bytes (take 16 input) chain)) = 16%nat)
      by now apply E_length.
    specialize (IH (E (xor_bytes (take 16 input) chain)) (drop 16 input) Hblock).
    destruct (cbc_encrypt E _ n (drop 16 input)) as [out last]. cbn [fst] in *.
    cbn [cbc_decrypt].
    rewrite take_app_length' by (symmetry; exact Hblock).
    rewrite drop_app_length' by (symmetry; exact Hblock).
    rewrite D_E by exact Hx.
    rewrite xor_bytes_cancel by (rewrite length_take; lia).
    rewrite IH by (rewrite length_drop; lia).
    replace (16 * S n)%nat with (16 + 16 * n)%nat by lia.
    apply take_take_drop.
Qed.

End BlockCipher.

Lemma pkcs7_unpad_pad data : pkcs7_unpad (pkcs7_pad data) = Some data.
Proof.
  unfold pkcs7_unpad, pkcs7_pad.
  pose proof (Nat.mod_upper_bound (length data) 16 ltac:(lia)) as Hub.
  set (n := (16 - length data mod 16)%nat).
  assert (Hn : (1 <= n <= 16)%nat) by (subst n; lia).
  destruct n as [|n'] eqn:En; [lia|].
  assert (Hlast : last (data ++ replicate (S n') (ascii_of_nat (S n')))
                  = Some (ascii_of_nat (S n'))).
  { rewrite replicate_S_end, app_assoc. apply last_snoc. }
  rewrite Hlast. rewrite nat_ascii_embedding by lia.
  rewrite length_app, length_replicate.
  replace ((1 <=? S n')%nat && (S n' <=? 16)%nat
           && (S n' <=? length data + S n')%nat) with true.
  - replace (length data + S n' - S n')%nat with (length data) by lia.
    now rewrite take_app_length.
  - symmetry. rewrite !andb_true_iff, !Nat.leb_le. lia.
Qed.

(** C3: decrypting what [encrypt] returns, with the key derived from the
    same secret as its SHA-256 digest and the IV read from the hexadecimal
    prefix before the colon, gives back the bytes of the JSON serialisation
    of the payload, one for one.  The block cipher of the runtime is taken
    with its two defining properties: it maps 16-byte blocks to 16-byte
    blocks, and its decryption undoes its encryption under the same key. *)
Theorem C3_round_trip (secret : string) (data : jsval) (json : string)
    (s : State) :
  length (w_sha256 W (utf8 secret)) = 32%nat ->
  (forall key b, length b = 16%nat ->
                 w_aes_decrypt W key (w_aes_encrypt W key b) = b) ->
  (forall key b, length b = 16%nat -> length (w_aes_encrypt W key b) = 16%nat) ->
  JSON_stringify data = Some json ->
  exists stored s',
    encrypt W (Some secret) data s = (Ok stored, s') /\
    decrypt (w_sha256 W) (w_aes_decrypt W) secret stored = Some (utf8 json).
Proof.
  intros Hlen HDE HE Hjson.
  destruct (encrypt_spec secret data json s Hlen Hjson) as (Henc & Hiv).
  do 2 eexists. split; [exact Henc|].
  set (iv := map (w_random W (ticks s)) (seq 0 16)) in *.
  set (key := w_sha256 W (utf8 secret)).
  unfold decrypt. rewrite split_colon_hex, unhex_hex, unbase64_base64.
  fold key. unfold aes_256_cbc_pkcs7.
  pose proof (pkcs7_pad_length (utf8 json)) as Hpl.
  set (padded := pkcs7_pad (utf8 json)) in *.
  set (n := (length padded / 16)%nat).
  assert (Hn : length padded = (16 * n)%nat).
  { subst n. rewrite Hpl. rewrite (Nat.mul_comm 16), Nat.div_mul by lia. lia. }
  rewrite (cbc_encrypt_length (w_aes_encrypt W key) (HE key) iv n padded Hiv)
    by lia.
  replace (16 * n / 16)%nat with n
    by (rewrite (Nat.mul_comm 16), Nat.div_mul by lia; reflexivity).
  rewrite (cbc_decrypt_encrypt (w_aes_encrypt W key) (w_aes_decrypt W key)
             (HDE key) (HE key) iv n padded Hiv) by lia.
  rewrite take_ge by lia. apply pkcs7_unpad_pad.
Qed.

(** ** What a run does to the table *)

Lemma update_rows_changes_only u p tf d t :
  changes_only u p t (update_rows u p tf d t).
Proof.
  unfold changes_only, update_rows. induction t as [|r t IH]; [constructor|].
  cbn [map]. constructor; [|exact IH].
  destruct (matches u p tf r) eqn:E.
  - cbn [apply_update user_id provider]. repeat split.
    unfold matches in E. apply andb_true_iff in E as [E _].
    apply andb_true_iff in E as [Eu Ep].
    apply String.eqb_eq in Eu. apply String.eqb_eq in Ep.
    intros [H|H]; contradiction.
  - repeat split.
Qed.




Lemma changes_only_refl u p t : changes_only u p t t.
Proof.
  unfold changes_only. induction t; constructor; [now repeat split | assumption].
Qed.

Lemma changes_only_trans u p t1 t2 t3 :
  changes_only u p t1 t2 -> changes_only u p t2 t3 -> changes_only u p t1 t3.
Proof.
  unfold changes_only. intros H. revert t3.
  induction H as [|r r' t t' (H1 & H2 & H3) _ IH]; intros t3 H'.
  - inversion H'. constructor.
  - inversion H' as [|? r'' ? t'' (H4 & H5 & H6) H7]; subst.
    constructor; [|now apply IH].
    split; [congruence|]. split; [congruence|].
    intros Hne. rewrite <- (H3 Hne). apply H6. rewrite (H3 Hne). exact Hne.
Qed.

Section TableRelation.

(** A reflexive and transitive relation between tables that every update a
    computation issues respects. *)
Variable R : relation (list Row).
Hypothesis R_refl : forall t, R t t.
Hypothesis R_trans : forall t1 t2 t3, R t1 t2 -> R t2 t3 -> R t1 t3.

Lemma evolves_keeps {A} (m : M A) :
  (forall s, table (snd (m s)) = table s) -> evolves R m.
Proof. intros H s. rewrite H. apply R_refl. Qed.

Lemma evolves_ret {A} (a : A) : evolves R (ret a).
Proof. now apply evolves_keeps. Qed.

Lemma evolves_throw {A} e : evolves R (@throw A e).
Proof. now apply evolves_keeps. Qed.

Lemma evolves_tick : evolves R tick.
Proof. now apply evolves_keeps. Qed.

Lemma evolves_emit c : evolves R (emit c).
Proof. now apply evolves_keeps. Qed.

Lemma evolves_warn msg : evolves R (warn msg).
Proof. now apply evolves_keeps. Qed.

Lemma evolves_get_table : evolves R get_table.
Proof. now apply evolves_keeps. Qed.

Lemma evolves_lift {A} (r : exn + A) : evolves R (lift r).
Proof. apply evolves_keeps. now destruct r. Qed.

Lemma evolves_bind {A B} (m : M A) (f : A -> M B) :
  evolves R m -> (forall a, evolves R (f a)) -> evolves R (bind m f).
Proof.
  intros Hm Hf s. specialize (Hm s). unfold bind.
  destruct (m s) as [[a|e] s1]; simpl in Hm; [|exact Hm].
  eapply R_trans; [exact Hm | apply Hf].
Qed.

Lemma evolves_try_catch {A} (m : M A) h :
  evolves R m -> (forall e, evolves R (h e)) -> evolves R (try_catch m h).
Proof.
  intros Hm Hh s. specialize (Hm s). unfold try_catch.
  destruct (m s) as [[a|e] s1]; simpl in Hm; [exact Hm|].
  eapply R_trans; [exact Hm | apply Hh].
Qed.

Lemma evolves_try_finally {A} (m : M A) f :
  evolves R m -> evolves R f -> evolves R (try_finally m f).
Proof.
  intros Hm Hf s. specialize (Hm s). unfold try_finally.
  destruct (m s) as [r s1]; simpl in Hm |- *.
  eapply R_trans; [exact Hm | apply Hf].
Qed.

Lemma evolves_member o k : evolves R (member o k).
Proof. apply evolves_keeps. now destruct o. Qed.

Lemma evolves_index0 o : evolves R (index0 o).
Proof.
  apply evolves_keeps. destruct o as [| | | |str|[|x l]|fs|]; try reflexivity.
  now destruct str.
Qed.

Lemma evolves_encrypt key data : evolves R (encrypt W key data).
Proof.
  apply evolves_keeps. intros s. unfold encrypt, randomBytes, tick, ret, throw, bind.
  cbn [table snd]. destruct key; [|reflexivity].
  destruct (negb _); [reflexivity|].
  destruct (JSON_stringify data); [|reflexivity].
  destruct (cipher_update _ _ _). reflexivity.
Qed.

Ltac evolves_step :=
  first
    [ apply evolves_ret | apply evolves_throw | apply evolves_tick
    | apply evolves_emit | apply evolves_warn | apply evolves_lift
    | apply evolves_get_table | apply evolves_member | apply evolves_index0
    | apply evolves_encrypt
    | apply evolves_bind; [|intros ?]
    | apply evolves_try_finally
    | apply evolves_try_catch; [|intros ?]
    | match goal with
      | |- evolves _ (if ?b then _ else _) => destruct b
      | |- evolves _ (match ?x with Some _ => _ | None => _ end) => destruct x
      | |- evolves _ (match ?x with inl _ => _ | inr _ => _ end) => destruct x
      | |- evolves _ (match ?v with CliFlag => _ | _ => _ end) => destruct v
      end ].

Ltac evolves_auto defs := unfold defs; repeat evolves_step.

(** No transport, no builder and no fetch changes the table. *)
Lemma evolves_inject v authToken credData :
  evolves R (inject W v authToken credData).
Proof.
  unfold inject, createCredentialTemplate, createCredentialPayload,
    executeN8NImport, createN8NCredential, insertCredentialToDatabase,
    credential_values, writeFile, execAsync, unlink, fetch, pg_query,
    now_iso, new_Date, randomUUID.
  destruct v; repeat evolves_step.
Qed.



(** The write-back changes the table by the update it issues, or not at
    all. *)
Lemma evolves_updateCredentialStatus v uid prov ts success cid msg details :
  (forall tf d t, R t (update_rows uid prov tf d t)) ->
  evolves R (updateCredentialStatus W v uid prov ts success cid msg details).
Proof.
  intros HR s.
  unfold updateCredentialStatus, supabase_update, now_iso, new_Date, emit, tick,
    get_table, set_table, throw, ret, bind.
  destruct success; cbn [ticks table calls warnings fst snd];
    destruct (w_update W _); cbn [table snd]; first [apply R_refl | apply HR].
Qed.

Lemma evolves_failure_details v credData : evolves R (failure_details W v credData).
Proof. unfold failure_details, now_iso, new_Date. destruct v; repeat evolves_step. Qed.

Lemma evolves_process_record v authToken credData :
  (forall tf d t,
     R t (update_rows (writeback_user W v credData) (provider credData) tf d t)) ->
  evolves R (process_record W v authToken credData).
Proof.
  intros HR. unfold process_record, record_failure.
  apply evolves_try_catch.
  - apply evolves_bind; [apply evolves_inject|]. intros res.
    destruct (success res); [|apply evolves_throw].
    apply evolves_bind; [|intros _; apply evolves_ret].
    now apply evolves_updateCredentialStatus.
  - intros e.
    assert (H : evolves R
      (d <- failure_details W v credData ;;
       updateCredentialStatus W v (writeback_user W v credData) (provider credData)
         (writeback_token v credData) false VNull (message e) d ;;;
       ret (Some false))).
    { apply evolves_bind; [apply evolves_failure_details|]. intros d.
      apply evolves_bind; [|intros _; apply evolves_ret].
      now apply evolves_updateCredentialStatus. }
    destruct v; try exact H.
    apply evolves_try_catch; [exact H | intros _; apply evolves_ret].
Qed.



End TableRelation.

(** X14: processing a record never adds or removes a row of the table,
    never changes the user or the provider of a row, and leaves every row of
    another user or another provider exactly as it was. *)
Theorem X14_writeback_touches_only_its_key (v : variant) (authToken : jsval)
    (credData : Row) (s : State) :
  changes_only (writeback_user W v credData) (provider credData)
    (table s) (table (snd (process_record W v authToken credData s))) /\
  length (table (snd (process_record W v authToken credData s)))
    = length (table s).
Proof.
  assert (H : changes_only (writeback_user W v credData) (provider credData)
                (table s) (table (snd (process_record W v authToken credData s)))).
  { apply (evolves_process_record
             (changes_only (writeback_user W v credData) (provider credData))
             (changes_only_refl _ _) (changes_only_trans _ _)).
    intros tf d t. apply update_rows_changes_only. }
  split; [exact H|]. symmetry. eapply Forall2_length, H.
Qed.


(** ** The stages of a run *)

Lemma check_config_state v s : snd (check_config W v s) = s.
Proof.
  unfold check_config, ret, throw.
  destruct v;
    repeat match goal with
           | |- context [if ?b then _ else _] => destruct b
           | |- context [match ?l with [] => _ | _ :: _ => _ end] => destruct l
           end; reflexivity.
Qed.

(** The checks of [main] insist on every name of [required_config]. *)
Lemma check_config_fails v name s :
  In name (required_config v) -> configured W name = false ->
  exists e, check_config W v s = (Throw e, s).
Proof.
  intros Hin Hc. unfold check_config.
  destruct v; cbn [required_config In] in Hin;
    repeat (destruct Hin as [<-|Hin]; [|]); try contradiction;
    cbn [List.filter]; rewrite ?Hc; cbn [negb orb];
    repeat match goal with
           | |- context [configured W ?k] => destruct (configured W k)
           end; cbn [negb orb]; eexists; reflexivity.
Qed.

Lemma check_config_passes v s :
  (forall name, In name (required_config v) -> configured W name = true) ->
  check_config W v s = (Ok tt, s).
Proof.
  intros H. unfold check_config.
  destruct v; cbn [List.filter];
    repeat match goal with
           | |- context [configured W ?k] =>
               rewrite (H k) by (cbn [required_config In]; tauto)
           end; reflexivity.
Qed.

(** [main] of a batch variant, stage by stage: the checks, the connection
    and the schema check of the direct insert, the fetch, the preparation,
    the loop.  Its [catch] turns whatever is thrown into the exit status 1. *)
Lemma main_batch_stages v s :
  main_batch W v s =
    match check_config W v s with
    | (Throw _, _) => (Ok 1%nat, s)
    | (Ok _, _) =>
        match (match v with
               | Direct => connect_and_diagnose W
               | _ => ret true
               end) s with
        | (Throw _, s2) | (Ok false, s2) => (Ok 1%nat, s2)
        | (Ok true, s2) =>
            match fetch_batch W v s2 with
            | (Throw _, s3) => (Ok 1%nat, s3)
            | (Ok None, s3) | (Ok (Some []), s3) => (Ok 0%nat, s3)
            | (Ok (Some (c :: rest)), s3) =>
                match prepare W v s3 with
                | (Throw _, s4) => (Ok 1%nat, s4)
                | (Ok authToken, s4) =>
                    match process_all W v authToken (c :: rest) 0 0 s4 with
                    | (Throw _, s5) => (Ok 1%nat, s5)
                    | (Ok counts, s5) => (Ok (exit_status v (snd counts)), s5)
                    end
                end
            end
        end
    end.
Proof.
  unfold main_batch, try_catch, bind.
  pose proof (check_config_state v s) as Hs.
  destruct (check_config W v s) as [[[]|e] s1]; simpl in Hs; subst s1;
    [|reflexivity].
  destruct ((match v with
             | Direct => connect_and_diagnose W
             | _ => ret true
             end) s) as [[[|]|e] s2]; cbn [negb]; try reflexivity.
  destruct (fetch_batch W v s2) as [[[[|c rest]|]|e] s3]; try reflexivity.
  destruct (prepare W v s3) as [[authToken|e] s4]; [|reflexivity].
  destruct (process_all W v authToken (c :: rest) 0 0 s4) as [[counts|e] s5];
    reflexivity.
Qed.

(** X4: a batch variant that finds one of the names its checks insist on
    unset exits with status 1 at once: no query, no call, no change. *)
Theorem X4_missing_configuration_stops_the_run (v : variant) (rows : list Row)
    (name : string) :
  v <> CliSingle ->
  In name (required_config v) ->
  configured W name = false ->
  run W v rows = (Ok 1%nat, initial rows).
Proof.
  intros Hv Hin Hc.
  assert (Hmain : main W v = main_batch W v)
    by (destruct v; try reflexivity; contradiction).
  unfold run. rewrite Hmain, main_batch_stages.
  destruct (check_config_fails v name (initial rows) Hin Hc) as [e ->].
  reflexivity.
Qed.




(** A login that is refused or does not get through: [authenticateN8N]
    throws, after its one request. *)
Lemma authenticateN8N_fails s :
  (forall t, match w_fetch W t with
             | inr r => resp_ok r = false
             | inl _ => True
             end) ->
  exists e s' body,
    authenticateN8N W s = (Throw e, s') /\ table s' = table s /\
    calls s' = CFetch (CONFIG_text W "N8N_URL" +:+ "/api/v1/login") None body
                 :: calls s.
Proof.
  intros H. specialize (H (ticks s)).
  unfold authenticateN8N, try_catch, fetch, emit, tick, lift, throw, ret, bind.
  cbn [ticks table calls warnings fst snd].
  destruct (w_fetch W (ticks s)) as [e|r].
  - do 3 eexists. split; [reflexivity|]. split; reflexivity.
  - rewrite H. cbn [negb]. destruct (resp_text r) as [e|errorText];
      do 3 eexists; (split; [reflexivity|]); split; reflexivity.
Qed.

(** X9: when the login is refused or does not get through, a run of an API
    variant delivers nothing and writes nothing back: the table stays as it
    is, so every pending row stays pending, and the only call is the login
    request.  With records to deliver, the exit status is 1. *)
Theorem X9_refused_login_writes_nothing (v : variant) (rows : list Row) :
  v = ApiA \/ v = ApiB ->
  (forall t, match w_fetch W t with
             | inr r => resp_ok r = false
             | inl _ => True
             end) ->
  table (snd (run W v rows)) = rows /\
  Forall (is_preflight W) (calls (snd (run W v rows))) /\
  ((forall name, In name (required_config v) -> configured W name = true) ->
   w_select W 0 = None ->
   complete_rows (pending_rows rows) <> [] ->
   fst (run W v rows) = Ok 1%nat).
Proof.
  intros Hv Hlogin.
  assert (Hmain : main W v = main_batch W v) by (destruct Hv as [->| ->]; reflexivity).
  assert (Hschema : (match v with Direct => connect_and_diagnose W | _ => ret true end)
                    = ret true) by (destruct Hv as [->| ->]; reflexivity).
  assert (Hfetch : fetch_batch W v = (l <- fetchPendingCredentials W v ;; ret (Some l)))
    by (destruct Hv as [->| ->]; reflexivity).
  assert (Hprep : prepare W v = authenticateN8N W) by (destruct Hv as [->| ->]; reflexivity).
  unfold run. rewrite Hmain, main_batch_stages, Hschema, Hfetch, Hprep.
  set (s0 := initial rows).
  assert (Hrun : forall s3, table s3 = rows -> calls s3 = [] ->
    forall c rest,
      let r := match authenticateN8N W s3 with
               | (Throw _, s4) => (Ok 1%nat, s4)
               | (Ok authToken, s4) =>
                   match process_all W v authToken (c :: rest) 0 0 s4 with
                   | (Throw _, s5) => (Ok 1%nat, s5)
                   | (Ok counts, s5) => (Ok (exit_status v (snd counts)), s5)
                   end
               end in
      table (snd r) = rows /\ Forall (is_preflight W) (calls (snd r)) /\
      fst r = Ok 1%nat).
  { intros s3 Ht Hc c rest.
    destruct (authenticateN8N_fails s3 Hlogin) as (e & s4 & body & -> & Ht4 & Hc4).
    cbn [fst snd]. split; [congruence|]. split; [|reflexivity].
    rewrite Hc4, Hc. constructor; [|constructor]. right. now exists body. }
  change (ret true s0) with (@Ok bool true, s0). cbv iota beta.
  unfold bind. rewrite fetchPendingCredentials_spec.
  cbn [ticks table s0 initial].
  split; [|split].
  - destruct (check_config W v s0) as [[[]|e] s1]; [|reflexivity].
    destruct (w_select W 0); [reflexivity|]. unfold ret.
    destruct (map (credData_of W v) (complete_rows (pending_rows rows)));
      [reflexivity|]. now apply Hrun.
  - destruct (check_config W v s0) as [[[]|e] s1]; [|constructor].
    destruct (w_select W 0); [constructor|]. unfold ret.
    destruct (map (credData_of W v) (complete_rows (pending_rows rows)));
      [constructor|]. now apply Hrun.
  - intros Hconf Hsel Hne. rewrite (check_config_passes v s0 Hconf), Hsel. unfold ret.
    destruct (complete_rows (pending_rows rows)) as [|r0 rest0] eqn:E;
      [contradiction|]. cbn [map]. now apply Hrun.
Qed.

(** X10: [main] of each of the six variants always ends with an exit
    status, 0 or 1; nothing it does can make it throw, so the handler
    attached to [main()] is never reached. *)
Theorem X10_main_always_exits (v : variant) (rows : list Row) :
  exists n, fst (run W v rows) = Ok n /\ (n = 0 \/ n = 1)%nat.
Proof.
  assert (Hexit : forall v' k, (exit_status v' k = 0 \/ exit_status v' k = 1)%nat).
  { intros v' k. unfold exit_status. destruct v', (0 <? k)%nat; auto. }
  assert (Hbatch : exists n, fst (main_batch W v (initial rows)) = Ok n /\
                             (n = 0 \/ n = 1)%nat).
  { rewrite main_batch_stages.
    destruct (check_config W v (initial rows)) as [[[]|e] s1]; [|eauto].
    destruct ((match v with Direct => connect_and_diagnose W | _ => ret true end)
                (initial rows)) as [[[|]|e] s2]; eauto.
    destruct (fetch_batch W v s2) as [[[[|c rest]|]|e] s3]; eauto.
    destruct (prepare W v s3) as [[authToken|e] s4]; eauto.
    destruct (process_all W v authToken (c :: rest) 0 0 s4) as [[counts|e] s5];
      cbn [fst]; eauto. }
  destruct v; try exact Hbatch.
  assert (Hh : forall (m : M unit) s, exists s',
            try_catch m (fun _ => ret tt) s = (Ok tt, s')).
  { intros m s. unfold try_catch. destruct (m s) as [[[]|e] s']; eauto. }
  unfold run, main, main_single. unfold try_catch at 1.
  match goal with
  | |- context [match ?m (initial rows) with _ => _ end] =>
      assert (Hbody : ensures m (fun n => n = 0%nat));
      [|destruct (m (initial rows)) as [[n|e] s1] eqn:E]
  end.
  - eapply ensures_bind; [apply ensures_any|]. intros _ _.
    eapply ensures_bind; [apply ensures_any|]. intros _ _.
    eapply ensures_bind; [apply ensures_any|]. intros [credData|] _;
      [|apply ensures_throw].
    eapply ensures_bind; [apply ensures_any|]. intros _ _.
    eapply ensures_bind; [apply ensures_any|]. intros res _.
    destruct (success res); [|apply ensures_throw].
    eapply ensures_bind; [apply ensures_any|]. intros _ _. now apply ensures_ret.
  - exists n. split; [reflexivity|]. left. eapply Hbody, E.
  - exists 1%nat. split; [|now right]. unfold bind at 1.
    destruct (_ && _); [|reflexivity].
    match goal with
    | |- context [try_catch ?m _ s1] => destruct (Hh m s1) as [s2 ->]
    end. reflexivity.
Qed.

(** ** The calls of a delivery *)

(** A computation whose calls all satisfy an absurd property makes none. *)
Lemma calls_silent {A} (m : M A) s :
  logs m (fun _ => False) -> calls (snd (m s)) = calls s.
Proof.
  intros H. destruct (H s) as (new & E & F).
  destruct new as [|c new]; [exact E|]. inversion F; contradiction.
Qed.

Lemma bind_new_Date {A} (f : Date -> M A) s :
  (d <- new_Date W ;; f d) s = f (w_clock W (ticks s)) (ticked s).
Proof. reflexivity. Qed.

(** The calls of the import: the file is written, the command is run if the
    file could be written, and the file is removed whatever happened. *)
Lemma import_calls {A} path document command (rest : string * string -> M A)
    (handler : exn -> M A) s :
  (forall out, logs (rest out) (fun _ => False)) ->
  (forall e, logs (handler e) (fun _ => False)) ->
  calls (snd (try_finally
                (try_catch
                   (writeFile W path document ;;;
                    out <- execAsync W command ;; rest out)
                   handler)
                (try_catch (unlink W path) (fun _ => ret tt)) s))
  = CUnlink path ::
    (match w_writeFile W (ticks s) with
     | None => [CExec command]
     | Some _ => []
     end) ++ CWriteFile path document :: calls s.
Proof.
  intros Hrest Hhandler.
  assert (Hfin : forall s1,
    calls (snd (try_catch (unlink W path) (fun _ => ret tt) s1))
    = CUnlink path :: calls s1).
  { intros s1. unfold try_catch, unlink, emit, tick, throw, ret, bind.
    cbn [ticks calls]. now destruct (w_unlink W (ticks s1)). }
  unfold try_finally.
  match goal with
  | |- context [let (_, _) := ?m s in _] => destruct (m s) as [r s1] eqn:E
  end.
  cbn [snd]. rewrite Hfin. f_equal.
  change s1 with (snd (r, s1)). rewrite <- E. clear E r s1.
  unfold try_catch, writeFile, execAsync, emit, tick, lift, throw, ret.
  unfold bind at 1. unfold bind at 1. unfold bind at 1. cbn [ticks calls].
  destruct (w_writeFile W (ticks s)) as [e|].
  - cbn [app]. rewrite (calls_silent _ _ (Hhandler e)). reflexivity.
  - unfold bind at 1. unfold bind at 1. unfold bind at 1. cbn [ticks calls].
    destruct (w_exec W (S (ticks s))) as [e|out].
    + rewrite (calls_silent _ _ (Hhandler e)). reflexivity.
    + match goal with
      | |- context [rest out ?s2] =>
          pose proof (calls_silent _ s2 (Hrest out)) as Hc;
          destruct (rest out s2) as [[a|e] s3]
      end; cbn [snd] in Hc |- *.
      * exact Hc.
      * rewrite (calls_silent _ _ (Hhandler e)). exact Hc.
Qed.

(** X1: the import of the CLI variants writes its file under
    [/tmp/credentials-], runs the import command on that file only if the
    file could be written, and always ends by removing that same file:
    after a success, after a failure of the command, after output without a
    success indicator, and after a write that failed. *)
Theorem X1_import_removes_its_file (v : variant) (jsonContent : jsval)
    (credData : Row) (s : State) :
  exists path,
    String.prefix "/tmp/credentials-" path = true /\
    calls (snd (executeN8NImport W v jsonContent credData s))
    = CUnlink path ::
      (match w_writeFile W (S (ticks s)) with
       | None => [CExec ("n8n import:credentials --input=" +:+ path)]
       | Some _ => []
       end) ++ CWriteFile path jsonContent :: calls s.
Proof.
  rewrite executeN8NImport_row; cbv zeta. rewrite bind_new_Date.
  eexists. split; [|rewrite import_calls; [reflexivity| |]].
  - apply prefix_spec. eexists. reflexivity.
  - intros out. destruct (isSuccess (fst out)); [|apply logs_throw].
    apply logs_seq; [destruct v; first [apply logs_ret | apply logs_member]|].
    intros parsed. apply logs_seq; [apply logs_index0|]. intros first.
    apply logs_seq; [apply logs_member | intros ?; apply logs_ret].
  - intros e. apply logs_seq; [apply logs_now_iso | intros ?; apply logs_ret].
Qed.

(** ** The outcome a write-back records *)

(** The outcome columns of the data of a write-back, in every variant. *)
Lemma updateData_of_outcome v success cid msg details injected_at a b c :
  let d := updateData_of v success cid msg details injected_at a b c in
  d !! "injected_to_n8n" = Some (VBool success) /\
  d !! "injection_error" = Some (if success then VNull else VStr msg) /\
  d !! "n8n_credential_id" = (if truthy cid then Some cid else None) /\
  d !! "n8n_credential_ids"
    = (if truthy cid then Some (json_column (VArr [cid])) else None).
Proof.
  cbv zeta. unfold updateData_of.
  destruct v; destruct (truthy cid); repeat split; reflexivity.
Qed.

(** The [catch] of the record loop issues exactly one call: the write-back
    of the failure with the message of what was thrown. *)
Lemma record_failure_calls v credData e s :
  exists details injected_at a b c,
    calls (snd (record_failure W v credData e s))
    = CUpdate (writeback_user W v credData) (provider credData)
        (token_filter v (writeback_token v credData))
        (updateData_of v false VNull (message e) details injected_at a b c)
      :: calls s.
Proof.
  assert (H : exists details injected_at a b c,
    calls (snd ((d <- failure_details W v credData ;;
                 updateCredentialStatus W v (writeback_user W v credData)
                   (provider credData) (writeback_token v credData) false VNull
                   (message e) d ;;;
                 ret (Some false)) s))
    = CUpdate (writeback_user W v credData) (provider credData)
        (token_filter v (writeback_token v credData))
        (updateData_of v false VNull (message e) details injected_at a b c)
      :: calls s).
  { pose proof (calls_silent _ s (logs_failure_details v credData _)) as E0.
    unfold bind at 1.
    destruct (failure_details W v credData s) as [[d|e'] s0] eqn:Ed.
    2:{ exfalso. destruct v; unfold failure_details, now_iso, new_Date, tick, ret,
          bind in Ed; discriminate. }
    cbn [snd] in E0.
    destruct (updateCredentialStatus_calls v (writeback_user W v credData)
                (provider credData) (writeback_token v credData) false VNull
                (message e) d s0) as (ia & a & b & c & Eu).
    exists d, ia, a, b, c. unfold bind.
    destruct (updateCredentialStatus W v (writeback_user W v credData)
                (provider credData) (writeback_token v credData) false VNull
                (message e) d s0) as [[[]|e'] s1];
      cbn [snd calls ret] in Eu |- *; rewrite Eu, E0; reflexivity. }
  destruct H as (d & ia & a & b & c & E).
  exists d, ia, a, b, c. unfold record_failure.
  destruct v; try exact E.
  cbv zeta. unfold try_catch.
  match type of E with
  | calls (snd (?m s)) = _ => destruct (m s) as [[r|e'] s2]
  end; exact E.
Qed.

(** The calls of the body of the record loop, by the outcome of the
    delivery.  After a delivery that failed, by a result or by throwing, the
    body adds one call: the write-back of the failure, with the message of
    that failure.  After a delivery that succeeded it adds the write-back of
    the success, with the credential id of the result; if that write-back
    throws, the write-back of a failure follows, with the message of what
    the first one threw. *)
Lemma process_record_calls v authToken credData s :
  let written outcome cid msg info injected_at a b c :=
    CUpdate (writeback_user W v credData) (provider credData)
      (token_filter v (writeback_token v credData))
      (updateData_of v outcome cid msg info injected_at a b c) in
  let after := calls (snd (process_record W v authToken credData s)) in
  (forall e s1,
     inject W v authToken credData s = (Throw e, s1) ->
     exists info injected_at a b c,
       after = written false VNull (message e) info injected_at a b c
               :: calls s1) /\
  (forall res s1,
     inject W v authToken credData s = (Ok res, s1) -> success res = false ->
     exists info injected_at a b c,
       after = written false VNull (result_message_or res (failure_fallback v))
                 info injected_at a b c
               :: calls s1) /\
  (forall res s1,
     inject W v authToken credData s = (Ok res, s1) -> success res = true ->
     exists injected_at a b c,
       let first := written true (credentialId res) (success_note v)
                      (details res) injected_at a b c in
       (exists s2,
          updateCredentialStatus W v (writeback_user W v credData)
            (provider credData) (writeback_token v credData) true
            (credentialId res) (success_note v) (details res) s1 = (Ok tt, s2) /\
          after = first :: calls s1) \/
       (exists e s2 info injected_at' a' b' c',
          updateCredentialStatus W v (writeback_user W v credData)
            (provider credData) (writeback_token v credData) true
            (credentialId res) (success_note v) (details res) s1 = (Throw e, s2) /\
          after = written false VNull (message e) info injected_at' a' b' c'
                  :: first :: calls s1)).
Proof.
  cbv zeta. split; [|split].
  - intros e s1 Einj.
    replace (process_record W v authToken credData s)
      with (record_failure W v credData e s1)
      by (unfold process_record, try_catch, bind; rewrite Einj; reflexivity).
    apply record_failure_calls.
  - intros res s1 Einj Hs.
    replace (process_record W v authToken credData s)
      with (record_failure W v credData
              (Error (result_message_or res (failure_fallback v))) s1)
      by (unfold process_record, try_catch, bind; rewrite Einj, Hs; reflexivity).
    apply (record_failure_calls v credData
             (Error (result_message_or res (failure_fallback v))) s1).
  - intros res s1 Einj Hs.
    destruct (updateCredentialStatus_calls v (writeback_user W v credData)
                (provider credData) (writeback_token v credData) true
                (credentialId res) (success_note v) (details res) s1)
      as (ia & a & b & c & Eu).
    exists ia, a, b, c.
    destruct (updateCredentialStatus W v (writeback_user W v credData)
                (provider credData) (writeback_token v credData) true
                (credentialId res) (success_note v) (details res) s1)
      as [[[]|e] s2] eqn:Eup; cbn [snd] in Eu.
    + left. exists s2. split; [reflexivity|].
      replace (process_record W v authToken credData s)
        with (@Ok (option bool) (Some true), s2)
        by (unfold process_record, try_catch, bind; rewrite Einj, Hs, Eup;
            reflexivity).
      exact Eu.
    + right.
      destruct (record_failure_calls v credData e s2) as (d & ia' & a' & b' & c' & E2).
      exists e, s2, d, ia', a', b', c'. split; [reflexivity|].
      replace (process_record W v authToken credData s)
        with (record_failure W v credData e s2)
        by (unfold process_record, try_catch, bind; rewrite Einj, Hs, Eup;
            reflexivity).
      rewrite E2, Eu. reflexivity.
Qed.

(** C1 (amended): in the four flag-based variants, processing a record
    always writes back, and every write-back it makes is addressed to the
    record and clears [injection_requested], so a row it is applied to is no
    longer pending.  What it writes is tied to the outcome of the delivery,
    which itself writes nothing back.  After a delivery that failed, by
    throwing or by a result with [success = false], the body adds exactly
    one call, a write-back with [injected_to_n8n = false] whose
    [injection_error] is the non-empty message of that failure.  After a
    delivery that succeeded its write-back has [injected_to_n8n = true], no
    error and the transport's credential id, which is truthy; nothing
    follows it unless that write-back itself throws, and then one more
    write-back records this failure, with [injected_to_n8n = false] and the
    message of what was thrown. *)
Theorem C1_flag_based_writeback (v : variant) (authToken : jsval)
    (credData : Row) (s : State) :
  flag_based v = true ->
  (forall t, w_uuid W t <> "") ->
  exists new,
    calls (snd (process_record W v authToken credData s)) = new ++ calls s /\
    Exists is_update new /\
    Forall (on_updates (fun u p t d =>
              u = user_id credData /\ p = provider credData /\
              t = Some (col credData "token_source") /\
              good_update d /\
              forall row, is_pending (apply_update d row) = false)) new /\
    (forall outcome s1,
       inject W v authToken credData s = (outcome, s1) ->
       exists before,
         calls s1 = before ++ calls s /\
         Forall (fun c => ~ is_update c) before) /\
    (forall e s1,
       inject W v authToken credData s = (Throw e, s1) ->
       exists d,
         calls (snd (process_record W v authToken credData s))
         = CUpdate (user_id credData) (provider credData)
             (Some (col credData "token_source")) d :: calls s1 /\
         records_failure d (message e)) /\
    (forall res s1,
       inject W v authToken credData s = (Ok res, s1) -> success res = false ->
       exists d,
         calls (snd (process_record W v authToken credData s))
         = CUpdate (user_id credData) (provider credData)
             (Some (col credData "token_source")) d :: calls s1 /\
         records_failure d (result_message_or res (failure_fallback v))) /\
    (forall res s1,
       inject W v authToken credData s = (Ok res, s1) -> success res = true ->
       exists d,
         records_success d (credentialId res) /\
         ((exists s2,
             updateCredentialStatus W v (user_id credData) (provider credData)
               (col credData "token_source") true (credentialId res)
               (success_note v) (details res) s1 = (Ok tt, s2) /\
             calls (snd (process_record W v authToken credData s))
             = CUpdate (user_id credData) (provider credData)
                 (Some (col credData "token_source")) d :: calls s1) \/
          (exists e s2 d',
             updateCredentialStatus W v (user_id credData) (provider credData)
               (col credData "token_source") true (credentialId res)
               (success_note v) (details res) s1 = (Throw e, s2) /\
             records_failure d' (message e) /\
             calls (snd (process_record W v authToken credData s))
             = CUpdate (user_id credData) (provider credData)
                 (Some (col credData "token_source")) d'
               :: CUpdate (user_id credData) (provider credData)
                    (Some (col credData "token_source")) d :: calls s1))).
Proof.
  intros Hv Huuid.
  destruct (process_record_reports v authToken credData s) as (new & E & X & _).
  destruct (logs_process_record Huuid v authToken credData Hv s) as (new' & E' & F).
  assert (new' = new) as -> by (eapply app_inv_tail; rewrite <- E, <- E'; reflexivity).
  assert (Hu : writeback_user W v credData = user_id credData)
    by (destruct v; try discriminate Hv; reflexivity).
  assert (Hw : writeback_token v credData = col credData "token_source")
    by (destruct v; try discriminate Hv; reflexivity).
  assert (Ht : token_filter v (col credData "token_source")
               = Some (col credData "token_source"))
    by (destruct v; try discriminate Hv; reflexivity).
  assert (Hfailure : forall msg details ia a b c,
    msg <> "" ->
    records_failure (updateData_of v false VNull msg details ia a b c) msg).
  { intros msg details ia a b c Hmsg.
    destruct (updateData_of_flag_based v false VNull msg details ia a b c Hv)
      as (_ & H1 & H2 & _).
    split; [exact H1|]. split; [exact Hmsg | exact H2]. }
  pose proof (process_record_calls v authToken credData s) as Hcalls.
  cbv zeta in Hcalls. rewrite Hu, Hw, Ht in Hcalls.
  destruct Hcalls as (Hthrown & Hfailed & Hdone).
  exists new. split; [exact E|]. split; [exact X|]. split; [|split; [|split; [|split]]].
  - eapply Forall_impl; [exact F|]. intros [] H; simpl in *; try exact I.
    destruct H as (H1 & H2 & H3 & H4).
    split; [exact H1|]. split; [exact H2|]. split; [exact H3|].
    split; [exact H4|]. intros row. apply clears_request_not_pending. apply H4.
  - intros outcome s1 Einj.
    destruct (logs_inject v authToken credData (fun _ _ _ _ => False) s)
      as (before & Eb & Fb).
    rewrite Einj in Eb. exists before. split; [exact Eb|].
    eapply Forall_impl; [exact Fb|]. intros [] H U; simpl in *; assumption.
  - intros e s1 Einj.
    destruct (Hthrown e s1 Einj) as (d & ia & a & b & c & Ec).
    eexists. split; [exact Ec|]. apply Hfailure.
    exact (throws_inject v authToken credData s e s1 Einj).
  - intros res s1 Einj Hs.
    destruct (Hfailed res s1 Einj Hs) as (d & ia & a & b & c & Ec).
    eexists. split; [exact Ec|]. apply Hfailure.
    apply result_message_or_nonempty. destruct v; discriminate.
  - intros res s1 Einj Hs.
    destruct (Hdone res s1 Einj Hs) as (ia & a & b & c & Hcases).
    eexists. split.
    + destruct (updateData_of_flag_based v true (credentialId res) (success_note v)
                  (details res) ia a b c Hv) as (_ & H1 & H2 & H3).
      pose proof (ensures_inject Huuid v authToken credData s res s1 Einj Hs) as Htr.
      rewrite Htr in H3. repeat split; eassumption.
    + destruct Hcases as [(s2 & Eup & Ec) | (e & s2 & d & ia' & a' & b' & c' & Eup & Ec)].
      * left. exists s2. split; [exact Eup | exact Ec].
      * right. exists e, s2. eexists. split; [exact Eup|]. split; [|exact Ec].
        apply Hfailure.
        exact (throws_updateCredentialStatus _ _ _ _ _ _ _ _ _ _ _ Eup).
Qed.

(** A record whose provider no builder knows is not delivered: the
    delivery either throws or reports the failure, with the same message,
    and makes no call. *)
Lemma inject_unsupported v authToken credData s :
  ~ In (provider credData) supported_providers ->
  ~ In (provider credData) object_prototype_names ->
  exists s1,
    calls s1 = calls s /\
    (inject W v authToken credData s
       = (Throw (Error ("Unsupported provider: " +:+ provider credData)), s1) \/
     exists res,
       inject W v authToken credData s = (Ok res, s1) /\
       success res = false /\
       result_message res = "Unsupported provider: " +:+ provider credData).
Proof.
  intros H1 H2. pose proof (get_credentialTypes_unknown _ H1 H2) as Hg.
  destruct v;
    unfold inject, insertCredentialToDatabase, createCredentialTemplate,
      createCredentialPayload, credential_values, try_catch, bind, randomUUID,
      new_Date, tick, ret, throw;
    cbn [ticks calls]; rewrite Hg; cbn [truthy negb];
    eexists; (split; [|first [left; reflexivity
                             | right; eexists; repeat split; reflexivity]]);
    reflexivity.
Qed.

(** X2: a record whose provider is neither one of the five of the table
    nor a property name of [Object.prototype] is never handed to a
    transport.  The body of the record loop makes exactly one call for it:
    the write-back of a failure whose [injection_error] is "Unsupported
    provider: " followed by the provider, with no credential id. *)
Theorem X2_unsupported_provider_is_reported (v : variant) (authToken : jsval)
    (credData : Row) (s : State) :
  ~ In (provider credData) supported_providers ->
  ~ In (provider credData) object_prototype_names ->
  exists d,
    calls (snd (process_record W v authToken credData s))
    = [CUpdate (writeback_user W v credData) (provider credData)
         (token_filter v (writeback_token v credData)) d] ++ calls s /\
    d !! "injected_to_n8n" = Some (VBool false) /\
    d !! "injection_error"
      = Some (VStr ("Unsupported provider: " +:+ provider credData)) /\
    d !! "n8n_credential_id" = None.
Proof.
  intros H1 H2.
  destruct (inject_unsupported v authToken credData s H1 H2) as (s1 & Hc & Hinj).
  set (msg := "Unsupported provider: " +:+ provider credData) in *.
  assert (Hfail : exists e, message e = msg /\
    process_record W v authToken credData s = record_failure W v credData e s1).
  { unfold process_record, try_catch. unfold bind at 1.
    destruct Hinj as [-> | (res & -> & Hs & Hm)].
    - exists (Error msg). split; reflexivity.
    - rewrite Hs. exists (Error (result_message_or res (failure_fallback v))).
      split; [|reflexivity].
      cbn [message Error]. unfold result_message_or. rewrite Hm.
      subst msg. reflexivity. }
  destruct Hfail as (e & Hm & ->).
  destruct (record_failure_calls v credData e s1) as (d & ia & a & b & c & E).
  eexists. split; [rewrite E, Hc; reflexivity|].
  destruct (updateData_of_outcome v false VNull (message e) d ia a b c)
    as (O1 & O2 & O3 & _).
  rewrite Hm in *. repeat split; assumption.
Qed.

(** ** The counters of the record loop *)

Lemma process_record_counted v authToken credData :
  ensures (process_record W v authToken credData)
          (fun r => v <> ApiB -> r <> None).
Proof.
  unfold process_record, record_failure. apply ensures_try_catch.
  - eapply ensures_bind; [apply ensures_any|]. intros res _.
    destruct (success res); [|apply ensures_throw].
    eapply ensures_bind; [apply ensures_any|]. intros _ _.
    now apply ensures_ret.
  - intros e.
    assert (H : ensures
      (d <- failure_details W v credData ;;
       updateCredentialStatus W v (writeback_user W v credData) (provider credData)
         (writeback_token v credData) false VNull (message e) d ;;;
       ret (Some false)) (fun r : option bool => v <> ApiB -> r <> None)).
    { eapply ensures_bind; [apply ensures_any|]. intros d _.
      eapply ensures_bind; [apply ensures_any|]. intros _ _.
      now apply ensures_ret. }
    destruct v; try exact H.
    intros s r s' _ Hne. now contradiction Hne.
Qed.

(** X3: when the record loop completes, its two counters have only grown
    and together they count at most every record once; in every variant but
    the second API script, whose failure write-back is guarded, they count
    every record exactly once: successes plus errors is the number of
    records. *)
Theorem X3_loop_counts_every_record (v : variant) (authToken : jsval)
    (pending : list Row) (sc ec : nat) (s : State) (sc' ec' : nat) (s' : State) :
  process_all W v authToken pending sc ec s = (Ok (sc', ec'), s') ->
  (sc <= sc' /\ ec <= ec' /\ sc' + ec' <= sc + ec + length pending)%nat /\
  (v <> ApiB -> sc' + ec' = sc + ec + length pending)%nat.
Proof.
  revert sc ec s. induction pending as [|c rest IH]; intros sc ec s E.
  - injection E as <- <- _. cbn [length]. split; [lia|]. intros _. lia.
  - cbn [process_all] in E. cbn [length]. unfold bind in E.
    pose proof (process_record_counted v authToken c s) as Hr.
    destruct (process_record W v authToken c s) as [[r|e] s1] eqn:Ep;
      [|discriminate].
    specialize (Hr _ _ eq_refl). cbv beta in Hr.
    destruct r as [[|]|]; apply IH in E as [(? & ? & ?) Heq];
      (split; [lia|]); intros Hv; specialize (Heq Hv); try lia.
    now contradiction (Hr Hv).
Qed.

(** ** The single-record variant *)

(** A guarded statement followed by a [return]. *)
Lemma guarded_then {A} (m : M unit) (a : A) s :
  (try_catch m (fun _ => ret tt) ;;; ret a) s = (Ok a, snd (m s)).
Proof.
  unfold bind, try_catch, ret. destruct (m s) as [[[]|e] s']; reflexivity.
Qed.

Lemma createClient_builds s :
  w_createClient W (CONFIG_text W "SUPABASE_URL")
    (CONFIG_text W "SUPABASE_SERVICE_KEY") = None ->
  createClient W s = (Ok tt, s).
Proof. intros H. unfold createClient. now rewrite H. Qed.

Lemma createClient_refuses e s :
  w_createClient W (CONFIG_text W "SUPABASE_URL")
    (CONFIG_text W "SUPABASE_SERVICE_KEY") = Some e ->
  createClient W s = (Throw e, s).
Proof. intros H. unfold createClient. now rewrite H. Qed.

(** X5: with [USER_ID], [PROVIDER] and the Supabase configuration set, and
    a Supabase client that can be built from that configuration, the
    single-record variant always ends with a write-back for that user and
    provider, not filtered by token source: it exits with status 0 exactly
    after writing back a success, and with status 1 after writing back a
    failure, whatever failed (a missing N8N configuration, a record not
    found, the CLI, the import, or the write-back of the success).  When
    the client cannot be built (an address that [createClient] refuses), the
    run exits with status 1 and has done nothing: the second client, in the
    [catch], cannot be built either, so no failure is written back. *)
Theorem X5_single_record_always_reports (rows : list Row) :
  configured W "USER_ID" = true -> configured W "PROVIDER" = true ->
  configured W "SUPABASE_URL" = true -> configured W "SUPABASE_SERVICE_KEY" = true ->
  (w_createClient W (CONFIG_text W "SUPABASE_URL")
     (CONFIG_text W "SUPABASE_SERVICE_KEY") = None ->
   exists d earlier,
     calls (snd (run W CliSingle rows))
     = CUpdate (CONFIG_text W "USER_ID") (CONFIG_text W "PROVIDER") None d :: earlier /\
     ((fst (run W CliSingle rows) = Ok 0%nat /\
       d !! "injected_to_n8n" = Some (VBool true)) \/
      (fst (run W CliSingle rows) = Ok 1%nat /\
       d !! "injected_to_n8n" = Some (VBool false)))) /\
  (forall refusal,
     w_createClient W (CONFIG_text W "SUPABASE_URL")
       (CONFIG_text W "SUPABASE_SERVICE_KEY") = Some refusal ->
     run W CliSingle rows = (Ok 1%nat, initial rows)).
Proof.
  intros C1 C2 C3 C4. split.
  - intros Hclient.
    set (r := run W CliSingle rows).
    assert (Er : r = run W CliSingle rows) by reflexivity. clearbody r.
    unfold run, main, main_single in Er. unfold try_catch at 1 in Er.
    match type of Er with
    | context [match ?m (initial rows) with _ => _ end] =>
        destruct (m (initial rows)) as [[n|e] s1] eqn:E
    end; subst r.
    + unfold bind in E.
      destruct (check_config W CliSingle (initial rows)) as [[[]|e0] sa];
        [|discriminate].
      rewrite (createClient_builds sa Hclient) in E.
      destruct (fetchUserCredentials W _ _ sa) as [[[credData|]|e1] sb];
        try discriminate.
      destruct (check_cli W sb) as [[[]|e2] sc]; [|discriminate].
      destruct (inject W CliSingle VUndef credData sc) as [[res|e3] sd];
        [|discriminate].
      destruct (success res); [|discriminate].
      destruct (updateCredentialStatus_calls CliSingle (CONFIG_text W "USER_ID")
                  (CONFIG_text W "PROVIDER") VUndef true (credentialId res)
                  (success_note CliSingle) (details res) sd)
        as (ia & a & b & c & Eu).
      destruct (updateCredentialStatus W CliSingle _ _ _ _ _ _ _ sd)
        as [[[]|e4] se]; [|discriminate].
      injection E as <- <-. cbn [snd fst] in Eu |- *.
      do 2 eexists. split; [exact Eu|]. left. split; [reflexivity|].
      apply (updateData_of_outcome CliSingle true).
    + rewrite C1, C2, C3, C4. cbn [andb]. rewrite guarded_then. cbn [fst snd].
      unfold bind at 1. rewrite (createClient_builds s1 Hclient).
      pose proof (calls_silent _ s1
                    (logs_failure_details CliSingle (mkRow "" "" ∅) _)) as E0.
      unfold bind.
      destruct (failure_details W CliSingle (mkRow "" "" ∅) s1)
        as [[d|e'] s0] eqn:Ed.
      2:{ exfalso. unfold failure_details, now_iso, new_Date, tick, ret, bind in Ed.
          discriminate. }
      cbn [snd] in E0.
      destruct (updateCredentialStatus_calls CliSingle (CONFIG_text W "USER_ID")
                  (CONFIG_text W "PROVIDER") VUndef false VNull (message e) d s0)
        as (ia & a & b & c & Eu).
      do 2 eexists. split; [rewrite Eu, E0; reflexivity|].
      right. split; [reflexivity|].
      apply (updateData_of_outcome CliSingle false).
  - intros refusal Hclient.
    unfold run, main, main_single. unfold try_catch at 1.
    pose proof (check_config_state CliSingle (initial rows)) as Hs.
    unfold bind at 1.
    destruct (check_config W CliSingle (initial rows)) as [[[]|e0] sa];
      cbn [snd] in Hs; subst sa.
    + unfold bind at 1. rewrite (createClient_refuses refusal _ Hclient).
      rewrite C1, C2, C3, C4. cbn [andb]. rewrite guarded_then.
      unfold bind at 1. now rewrite (createClient_refuses refusal _ Hclient).
    + rewrite C1, C2, C3, C4. cbn [andb]. rewrite guarded_then.
      unfold bind at 1. now rewrite (createClient_refuses refusal _ Hclient).
Qed.

(** ** The login of the API variants *)

(** X8: [authenticateN8N] makes exactly one request, to the login address
    under [N8N_URL], without a session; it returns only a truthy token, the
    [data.token] of the body of a response with an ok status; and whatever
    goes wrong, what it throws is a message that starts with "Failed to
    authenticate with N8N: ". *)
Theorem X8_login_contract (s : State) :
  (exists body,
     calls (snd (authenticateN8N W s))
     = CFetch (CONFIG_text W "N8N_URL" +:+ "/api/v1/login") None body :: calls s) /\
  (forall token s',
     authenticateN8N W s = (Ok token, s') ->
     truthy token = true /\
     exists response authData,
       w_fetch W (ticks s) = inr response /\ resp_ok response = true /\
       resp_json response = inr authData /\
       token = prop (prop authData "data") "token") /\
  (forall e s',
     authenticateN8N W s = (Throw e, s') ->
     exists reason, message e = "Failed to authenticate with N8N: " +:+ reason).
Proof.
  destruct (authenticateN8N W s) as [o s1] eqn:Er.
  unfold authenticateN8N, try_catch, fetch, emit, tick, lift, member, throw, ret,
    bind in Er.
  cbn [ticks calls table warnings] in Er.
  assert (Hthrown : forall reason state,
    (Throw (Error ("Failed to authenticate with N8N: " +:+ reason)),
     mkState (table s) (S (ticks s))
       (CFetch (CONFIG_text W "N8N_URL" +:+ "/api/v1/login") None
          (JSON_stringify (VObj [ ("email", CONFIG W "N8N_USER_EMAIL");
                                  ("password", CONFIG W "N8N_USER_PASSWORD") ]))
        :: calls s) state) = (o, s1) ->
    (exists body,
       calls (snd (o, s1))
       = CFetch (CONFIG_text W "N8N_URL" +:+ "/api/v1/login") None body :: calls s) /\
    (forall token s',
       (o, s1) = (Ok token, s') ->
       truthy token = true /\
       exists response authData,
         w_fetch W (ticks s) = inr response /\ resp_ok response = true /\
         resp_json response = inr authData /\
         token = prop (prop authData "data") "token") /\
    (forall e s',
       (o, s1) = (Throw e, s') ->
       exists reason, message e = "Failed to authenticate with N8N: " +:+ reason)).
  { intros reason state [= <- <-]. split; [eexists; reflexivity|].
    split; [intros ? ? [=]|]. intros e s' [= <- _]. now exists reason. }
  destruct (w_fetch W (ticks s)) as [e0|response] eqn:Hf;
    [now apply (Hthrown _ _ Er)|].
  destruct (resp_ok response) eqn:Hok; cbn [negb] in Er.
  2:{ destruct (resp_text response) as [e0|errorText]; now apply (Hthrown _ _ Er). }
  destruct (resp_json response) as [e0|authData] eqn:Hjson;
    [now apply (Hthrown _ _ Er)|].
  destruct authData as [| | | | | |fields|];
    cbn [prop truthy negb orb] in Er; try now apply (Hthrown _ _ Er).
  destruct (truthy (get fields "data")) eqn:Hd; cbn [negb orb] in Er;
    [|now apply (Hthrown _ _ Er)].
  destruct (truthy (prop (get fields "data") "token")) eqn:Ht; cbn [negb] in Er;
    [|now apply (Hthrown _ _ Er)].
  injection Er as <- <-. split; [eexists; reflexivity|].
  split; [|intros ? ? [=]].
  intros token s' [= <- _]. split; [exact Ht|].
  exists response, (VObj fields). repeat split; assumption.
Qed.

(** ** The rows a write-back reaches *)

(** X11: the write-back of a batch variant is filtered by
    [token_source], and the record carries ['auth0'] where the row has none.
    So a row whose [token_source] is NULL, absent or empty is never reached
    by the write-back made for it, whatever the data and whichever user and
    provider it names: the row stays in the table as it was, still pending
    or queued.  A row whose [token_source] is a non-empty text is reached by
    the write-back for its user and provider. *)
Theorem X11_write_back_misses_a_row_without_token_source (v : variant) (row : Row) :
  v <> CliSingle ->
  (truthy (col row "token_source") = false ->
   forall u p d rows,
     In row rows ->
     In row (update_rows u p
               (token_filter v (writeback_token v (record_of W v row))) d rows)) /\
  (forall source,
     col row "token_source" = VStr source -> source <> "" ->
     matches (user_id row) (provider row)
       (token_filter v (writeback_token v (record_of W v row))) row = true).
Proof.
  intros Hv.
  assert (Hts : col (record_of W v row) "token_source"
                = match v with
                  | Queue => col row "token_source"
                  | _ => js_or (col row "token_source") (VStr "auth0")
                  end) by (destruct v; reflexivity).
  split.
  - intros Hfalsy u p d rows Hin.
    assert (Hm : matches u p
                   (token_filter v (writeback_token v (record_of W v row))) row
                 = false).
    { unfold matches.
      assert (Hf : token_filter v (writeback_token v (record_of W v row))
                   = Some (VStr "auth0")).
      { destruct v; try contradiction;
          unfold token_filter, writeback_token; rewrite Hts; unfold js_or;
          rewrite Hfalsy; reflexivity. }
      rewrite Hf.
      destruct (col row "token_source") as [| | | |str| | |]; cbn [sql_eq];
        try apply andb_false_r.
      cbn [truthy] in Hfalsy. apply negb_false_iff, String.eqb_eq in Hfalsy.
      subst str. apply andb_false_r. }
    unfold update_rows. apply in_map_iff. exists row. now rewrite Hm.
  - intros source Hsrc Hne.
    assert (Htr : truthy (VStr source) = true).
    { cbn [truthy]. apply negb_true_iff, String.eqb_neq, Hne. }
    assert (Hf : token_filter v (writeback_token v (record_of W v row))
                 = Some (VStr source)).
    { destruct v; try contradiction;
        unfold token_filter, writeback_token; rewrite Hts, Hsrc; unfold js_or;
        rewrite ?Htr; reflexivity. }
    unfold matches. rewrite Hf, Hsrc, !String.eqb_refl. cbn [sql_eq andb].
    apply String.eqb_refl.
Qed.

(** Every write-back of the body of the record loop carries data built by
    [updateCredentialStatus] for a success, or for a failure without a
    credential id. *)
Lemma logs_process_record_data v authToken credData
    (G : gmap string jsval -> Prop) :
  (forall cid msg details injected_at a b c,
     G (updateData_of v true cid msg details injected_at a b c)) ->
  (forall msg details injected_at a b c,
     G (updateData_of v false VNull msg details injected_at a b c)) ->
  logs (process_record W v authToken credData) (on_updates (fun _ _ _ d => G d)).
Proof.
  intros Hok Hfail. unfold process_record, record_failure.
  assert (Hh : forall e,
    logs (d <- failure_details W v credData ;;
          updateCredentialStatus W v (writeback_user W v credData)
            (provider credData) (writeback_token v credData) false VNull
            (message e) d ;;;
          ret (Some false))
         (on_updates (fun _ _ _ d => G d))).
  { intros e. apply logs_seq; [apply logs_failure_details|]. intros d.
    apply logs_seq; [|intros _; apply logs_ret].
    apply logs_updateCredentialStatus. intros ia a b c. apply Hfail. }
  eapply logs_try_catch; [apply throws_any | |].
  - apply logs_seq; [apply logs_inject|]. intros res.
    destruct (success res); [|apply logs_throw].
    apply logs_seq; [|intros _; apply logs_ret].
    apply logs_updateCredentialStatus. intros ia a b c. apply Hok.
  - intros e _. destruct v; try apply Hh.
    eapply logs_try_catch; [apply throws_any | apply Hh | intros e' _; apply logs_ret].
Qed.


(** X13: in every variant, a write-back of the body of the record loop
    either records a success, with no error, or records a failure with its
    message and says nothing about the credential id: a row it reaches
    keeps the [n8n_credential_id] and [n8n_credential_ids] it had. *)
Theorem X13_failure_keeps_the_stored_credential_id (v : variant)
    (authToken : jsval) (credData : Row) (s : State) :
  exists new,
    calls (snd (process_record W v authToken credData s)) = new ++ calls s /\
    Forall (on_updates (fun _ _ _ d =>
              (d !! "injected_to_n8n" = Some (VBool true) /\
               d !! "injection_error" = Some VNull) \/
              (d !! "injected_to_n8n" = Some (VBool false) /\
               (exists msg, d !! "injection_error" = Some (VStr msg)) /\
               forall row,
                 col (apply_update d row) "n8n_credential_id"
                   = col row "n8n_credential_id" /\
                 col (apply_update d row) "n8n_credential_ids"
                   = col row "n8n_credential_ids")))
           new.
Proof.
  apply (logs_process_record_data v authToken credData
           (fun d =>
              (d !! "injected_to_n8n" = Some (VBool true) /\
               d !! "injection_error" = Some VNull) \/
              (d !! "injected_to_n8n" = Some (VBool false) /\
               (exists msg, d !! "injection_error" = Some (VStr msg)) /\
               forall row,
                 col (apply_update d row) "n8n_credential_id"
                   = col row "n8n_credential_id" /\
                 col (apply_update d row) "n8n_credential_ids"
                   = col row "n8n_credential_ids"))).
  - intros cid msg details ia a b c. left.
    destruct (updateData_of_outcome v true cid msg details ia a b c)
      as (H1 & H2 & _). now split.
  - intros msg details ia a b c. right.
    destruct (updateData_of_outcome v false VNull msg details ia a b c)
      as (H1 & H2 & H3 & H4). cbn [truthy] in H3, H4.
    split; [exact H1|]. split; [now exists msg|].
    intros row. unfold apply_update, col. cbn [cols].
    rewrite !lookup_union_r by assumption. now split.
Qed.

(** ** The transports, once more *)

(** X21: [createN8NCredential] makes exactly one request, whatever the
    answer: to the credentials address under [N8N_URL], with the session
    token and the payload as its JSON text.  It reports a success only for
    a response with an ok status whose body has a truthy [data.id], and that
    id is the credential id it reports. *)
Theorem X21_api_create_is_one_request (v : variant) (authToken payload : jsval)
    (s : State) :
  calls (snd (createN8NCredential W v authToken payload s))
  = CFetch (CONFIG_text W "N8N_URL" +:+ "/api/v1/credentials") (Some authToken)
      (JSON_stringify payload) :: calls s /\
  (forall res,
     fst (createN8NCredential W v authToken payload s) = Ok res ->
     success res = true ->
     truthy (credentialId res) = true /\
     exists response result,
       w_fetch W (ticks s) = inr response /\ resp_ok response = true /\
       resp_json response = inr result /\
       credentialId res = prop (prop result "data") "id").
Proof.
  destruct (createN8NCredential W v authToken payload s) as [o s1] eqn:Er.
  unfold createN8NCredential, try_catch, fetch, now_iso, new_Date, emit, tick,
    lift, member, throw, ret, bind in Er.
  cbn [ticks calls table warnings] in Er.
  assert (Hfailed : forall msg details state n,
    (Ok (mkResult false VUndef msg details),
     mkState (table s) n
       (CFetch (CONFIG_text W "N8N_URL" +:+ "/api/v1/credentials") (Some authToken)
          (JSON_stringify payload) :: calls s) state) = (o, s1) ->
    calls (snd (o, s1))
    = CFetch (CONFIG_text W "N8N_URL" +:+ "/api/v1/credentials") (Some authToken)
        (JSON_stringify payload) :: calls s /\
    (forall res,
       fst (o, s1) = Ok res -> success res = true ->
       truthy (credentialId res) = true /\
       exists response result,
         w_fetch W (ticks s) = inr response /\ resp_ok response = true /\
         resp_json response = inr result /\
         credentialId res = prop (prop result "data") "id")).
  { intros msg details state n [= <- <-]. split; [reflexivity|].
    intros res [= <-] [=]. }
  destruct (w_fetch W (ticks s)) as [e0|response] eqn:Hf;
    [now apply (Hfailed _ _ _ _ Er)|].
  destruct (resp_ok response) eqn:Hok; cbn [negb] in Er.
  2:{ destruct (resp_text response) as [e0|errorText];
        now apply (Hfailed _ _ _ _ Er). }
  destruct (resp_json response) as [e0|result] eqn:Hjson;
    [now apply (Hfailed _ _ _ _ Er)|].
  destruct result as [| | | | | |fields|];
    cbn [prop truthy negb orb] in Er; try now apply (Hfailed _ _ _ _ Er).
  destruct (truthy (get fields "data")) eqn:Hd; cbn [negb orb] in Er;
    [|now apply (Hfailed _ _ _ _ Er)].
  destruct (truthy (prop (get fields "data") "id")) eqn:Hi; cbn [negb] in Er;
    [|now apply (Hfailed _ _ _ _ Er)].
  injection Er as <- <-. split; [reflexivity|].
  intros res [= <-] _. split; [exact Hi|].
  exists response, (VObj fields). repeat split; assumption.
Qed.

(** X20: when [insertCredentialToDatabase] reports a success, the last
    call it made is the insert; the insert carried six values, the first of
    them the credential id it reports and the last two, the creation and
    update times, equal; and the database answered with a positive row
    count. *)
Theorem X20_insert_reports_what_it_inserted (encryptionKey : option string)
    (credData : Row) (s : State) (res : Result) (s' : State) :
  insertCredentialToDatabase W encryptionKey credData s = (Ok res, s') ->
  success res = true ->
  exists values rowCount,
    calls s' = CPgInsert values :: calls s /\
    values !! 0%nat = Some (credentialId res) /\
    length values = 6%nat /\
    values !! 4%nat = values !! 5%nat /\
    w_pg_query W (S (S (S (ticks s)))) = inr rowCount /\ (0 < rowCount)%Z.
Proof.
  intros Er Hs.
  unfold insertCredentialToDatabase, try_catch, credential_values in Er.
  unfold bind at 1 in Er. unfold bind at 1 in Er.
  unfold new_Date at 1, tick, ret in Er. unfold bind at 1 in Er.
  cbn [ticks table calls warnings] in Er.
  unfold bind at 1 in Er. unfold randomUUID, tick, ret, bind at 1 in Er.
  cbn [ticks table calls warnings] in Er.
  destruct (negb (truthy (get credentialTypes (provider credData)))).
  { unfold throw in Er. injection Er as <- <-. discriminate Hs. }
  unfold bind at 1 in Er.
  match type of Er with
  | context [encrypt W ?k ?d ?s0] =>
      pose proof (calls_silent _ s0 (logs_encrypt k d _)) as Hc;
      assert (Ht : forall enc s2, encrypt W k d s0 = (Ok enc, s2) ->
                                  ticks s2 = S (ticks s0));
      [|destruct (encrypt W k d s0) as [[enc|e] s2] eqn:Eenc]
  end.
  { intros enc s2. unfold encrypt, randomBytes, tick, ret, throw, bind.
    cbn [ticks]. destruct encryptionKey; [|discriminate].
    destruct (negb _); [discriminate|].
    destruct (JSON_stringify _); [|discriminate].
    destruct (cipher_update _ _ _). now intros [= _ <-]. }
  2:{ injection Er as <- <-. discriminate Hs. }
  specialize (Ht _ _ eq_refl). cbn [snd calls ticks] in Hc, Ht.
  unfold ret, pg_query, emit, tick, lift, bind in Er.
  cbn [ticks table calls warnings prepared_values prepared_id] in Er.
  rewrite Ht in Er.
  destruct (w_pg_query W (S (S (S (ticks s))))) as [e|rowCount] eqn:Eq.
  { unfold throw in Er. injection Er as <- <-. discriminate Hs. }
  unfold ret in Er. destruct (0 <? rowCount)%Z eqn:Hpos.
  2:{ unfold throw in Er. injection Er as <- <-. discriminate Hs. }
  injection Er as <- <-. cbn [calls credentialId].
  do 2 eexists. split; [rewrite Hc; reflexivity|].
  repeat split. now apply Z.ltb_lt.
Qed.

(** ** The success heuristic, reduced *)

Lemma includes_longer s pre needle post :
  includes s (pre +:+ needle +:+ post) = true -> includes s needle = true.
Proof.
  rewrite !includes_spec. intros (a & b & ->).
  exists (a +:+ pre), (post +:+ b).
  now rewrite !string_app_assoc.
Qed.

(** X17: of the four success indicators two decide: the import counts as
    a success exactly when its standard output, in lower case, contains
    "imported" or "credential".  The other two indicators contain one of
    these, so they add nothing; any output that mentions a credential, an
    error message included, counts as a success. *)
Theorem X17_two_indicators_decide (stdout : string) :
  isSuccess stdout
  = includes (toLowerCase stdout) "imported"
    || includes (toLowerCase stdout) "credential".
Proof.
  unfold isSuccess, successIndicators. cbn [existsb].
  change (toLowerCase "Successfully imported") with "successfully imported".
  change (toLowerCase "imported") with "imported".
  change (toLowerCase "credential") with "credential".
  change (toLowerCase "Saved credential") with "saved credential".
  set (out := toLowerCase stdout).
  pose proof (includes_longer out "successfully " "imported" "") as H1.
  pose proof (includes_longer out "saved " "credential" "") as H2.
  change ("successfully " +:+ "imported" +:+ "") with "successfully imported" in H1.
  change ("saved " +:+ "credential" +:+ "") with "saved credential" in H2.
  destruct (includes out "successfully imported");
    [rewrite (H1 eq_refl); reflexivity|].
  destruct (includes out "saved credential");
    [rewrite (H2 eq_refl); now rewrite !orb_true_r|].
  now rewrite orb_false_r.
Qed.

(** ** The fetch of the single-record variant *)

(** X19: [fetchUserCredentials] never throws and makes one query.  It
    returns a record only when the query succeeds, exactly one row of the
    table has the user and the provider asked for, and that row is
    complete; the record then carries the user and provider asked for, the
    row's tokens and client credentials, and [''] for a missing refresh
    token.  No row, or more than one (say one for each token source), gives
    [null]. *)
Theorem X19_single_fetch_needs_exactly_one_row (userId providerName : string)
    (s : State) :
  exists found,
    fetchUserCredentials W userId providerName s = (Ok found, ticked s) /\
    (forall credData,
       found = Some credData ->
       w_select W (ticks s) = None /\
       user_id credData = userId /\ provider credData = providerName /\
       exists data,
         List.filter (matches userId providerName None) (table s) = [data] /\
         incomplete data = false /\
         col credData "access_token" = col data "access_token" /\
         col credData "client_id" = col data "client_id" /\
         col credData "client_secret" = col data "client_secret" /\
         col credData "refresh_token" = js_or (col data "refresh_token") (VStr "")) /\
    (length (List.filter (matches userId providerName None) (table s)) <> 1%nat ->
     found = None).
Proof.
  unfold fetchUserCredentials, get_table, tick, ret, bind. cbn [ticks table].
  change (mkState (table s) (S (ticks s)) (calls s) (warnings s)) with (ticked s).
  destruct (w_select W (ticks s)) as [msg|].
  { eexists. split; [reflexivity|]. split; [intros ? [=] | reflexivity]. }
  destruct (List.filter (matches userId providerName None) (table s))
    as [|data [|data' more]].
  - eexists. split; [reflexivity|]. split; [intros ? [=] | reflexivity].
  - destruct (incomplete data) eqn:Hinc.
    + eexists. split; [reflexivity|]. split; [intros ? [=] | reflexivity].
    + eexists. split; [reflexivity|]. split; [|intros H; now contradiction H].
      intros credData [= <-]. repeat split.
      exists data. repeat split. exact Hinc.
  - eexists. split; [reflexivity|]. split; [intros ? [=] | reflexivity].
Qed.

(** ** The schema check *)

Lemma js_includes_In items c : js_includes items c = true -> In (VStr c) items.
Proof.
  unfold js_includes. rewrite existsb_exists. intros (x & Hx & Heq).
  destruct x; try discriminate. apply String.eqb_eq in Heq. now subst.
Qed.

Lemma filter_nil_Forall {A} (f : A -> bool) l :
  List.filter f l = [] -> Forall (fun x => f x = false) l.
Proof.
  induction l as [|x l IH]; cbn [List.filter]; [constructor|].
  destruct (f x) eqn:E; [discriminate|]. intros H. constructor; auto.
Qed.

(** X16: [runDiagnostics] never throws: a query that fails, or a result
    without the row it reads, makes the verdict [false].  The verdict is
    [true] only if the first answer says that the table exists and the
    second lists all of [id], [name], [type] and [data] among its column
    names, and then five or six queries were made.  When the first answer
    says that the table does not exist, the verdict is [false] after that
    one query. *)
Theorem X16_schema_check_verdict (answers : nat -> exn + PgRows) (s : State) :
  (exists verdict s', runDiagnostics answers s = (Ok verdict, s')) /\
  (forall s',
     runDiagnostics answers s = (Ok true, s') ->
     (exists first others schema,
        answers (ticks s) = inr (first :: others) /\
        truthy (get first "exists") = true /\
        answers (S (ticks s)) = inr schema /\
        Forall (fun c => In (VStr c) (map (fun r => get r "column_name") schema))
               requiredColumns) /\
     (ticks s + 5 <= ticks s' <= ticks s + 6)%nat) /\
  (forall first others,
     answers (ticks s) = inr (first :: others) ->
     truthy (get first "exists") = false ->
     runDiagnostics answers s = (Ok false, ticked s)).
Proof.
  destruct (runDiagnostics answers s) as [o s1] eqn:Er.
  unfold runDiagnostics, try_catch, diag_query, first_row, tick, lift, throw, ret,
    bind in Er.
  cbn [ticks calls table warnings] in Er.
  assert (Hfalse : forall state,
    (Ok false, state) = (o, s1) ->
    (exists verdict s', (o, s1) = (Ok verdict, s')) /\
    (forall s', (o, s1) = (Ok true, s') ->
       (exists first others schema,
          answers (ticks s) = inr (first :: others) /\
          truthy (get first "exists") = true /\
          answers (S (ticks s)) = inr schema /\
          Forall (fun c => In (VStr c) (map (fun r => get r "column_name") schema))
                 requiredColumns) /\
       (ticks s + 5 <= ticks s' <= ticks s + 6)%nat)).
  { intros state [= <- <-]. split; [eauto|]. intros s' [=]. }
  destruct (answers (ticks s)) as [e|[|first others]] eqn:A0.
  { split; [|split; [|intros ? ? [=]]]; now apply (Hfalse _ Er). }
  { split; [|split; [|intros ? ? [=]]]; now apply (Hfalse _ Er). }
  destruct (truthy (get first "exists")) eqn:Hex;
    cbn [ticks calls table warnings negb] in Er.
  2:{ split; [|split]; try now apply (Hfalse _ Er).
      intros first' others' [= <- <-] _. now rewrite <- Er. }
  destruct (answers (S (ticks s))) as [e|schema] eqn:A1;
    cbn [ticks calls table warnings] in Er.
  { split; [|split; [|intros ? ? ? H; congruence]]; now apply (Hfalse _ Er). }
  match type of Er with
  | context [List.filter ?f requiredColumns] =>
      pose proof (filter_nil_Forall f requiredColumns) as Hall;
      destruct (List.filter f requiredColumns) as [|c0 missing]
  end; cbn [length Nat.ltb Nat.leb ticks calls table warnings] in Er.
  2:{ split; [|split; [|intros ? ? ? H; congruence]]; now apply (Hfalse _ Er). }
  specialize (Hall eq_refl).
  assert (Hcols : Forall (fun c => In (VStr c) (map (fun r => get r "column_name") schema))
                         requiredColumns).
  { eapply Forall_impl; [exact Hall|]. intros c Hc. apply js_includes_In.
    now apply negb_false_iff in Hc. }
  destruct (answers (S (S (ticks s)))) as [e|sample] eqn:A2;
    cbn [ticks calls table warnings] in Er.
  { split; [|split; [|intros ? ? ? H; congruence]]; now apply (Hfalse _ Er). }
  destruct (answers (S (S (S (ticks s))))) as [e|[|count counts]] eqn:A3;
    cbn [ticks calls table warnings] in Er.
  { split; [|split; [|intros ? ? ? H; congruence]]; now apply (Hfalse _ Er). }
  { split; [|split; [|intros ? ? ? H; congruence]]; now apply (Hfalse _ Er). }
  destruct (answers (S (S (S (S (ticks s)))))) as [e|[|shared shareds]] eqn:A4;
    cbn [ticks calls table warnings] in Er.
  { split; [|split; [|intros ? ? ? H; congruence]]; now apply (Hfalse _ Er). }
  { split; [|split; [|intros ? ? ? H; congruence]]; now apply (Hfalse _ Er). }
  destruct (truthy (get shared "exists")); cbn [ticks calls table warnings] in Er.
  - destruct (answers (S (S (S (S (S (ticks s))))))) as [e|sharedSchema] eqn:A5;
      cbn [ticks calls table warnings] in Er.
    { split; [|split; [|intros ? ? ? H; congruence]]; now apply (Hfalse _ Er). }
    injection Er as <- <-. split; [eauto|]. split; [|intros ? ? ? H; congruence].
    intros s' [= <-]. split; [|cbn [ticks]; lia].
    exists first, others, schema. repeat split; assumption.
  - injection Er as <- <-. split; [eauto|]. split; [|intros ? ? ? H; congruence].
    intros s' [= <-]. split; [|cbn [ticks]; lia].
    exists first, others, schema. repeat split; assumption.
Qed.

(** ** The records of the flag-based fetch *)

Lemma filter_partition_length {A} (f : A -> bool) l :
  (length (List.filter f l) + length (List.filter (fun x => negb (f x)) l)
   = length l)%nat.
Proof.
  induction l as [|x l IH]; [reflexivity|].
  cbn [List.filter]. destruct (f x); cbn [negb length]; lia.
Qed.

(** X18: every record the flag-based fetch hands to the loop is complete
    and has its defaults filled in: access token, client id, client secret
    and token source are truthy, and the refresh token is truthy or the
    empty text.  Every pending row is accounted for: the records handed on
    and the warnings printed together number the pending rows of the
    table. *)
Theorem X18_fetched_records_are_complete (v : variant) (s : State)
    (pending : list Row) (s' : State) :
  fetchPendingCredentials W v s = (Ok pending, s') ->
  Forall (fun c =>
            truthy (col c "access_token") = true /\
            truthy (col c "client_id") = true /\
            truthy (col c "client_secret") = true /\
            truthy (col c "token_source") = true /\
            (truthy (col c "refresh_token") = true \/
             col c "refresh_token" = VStr ""))
         pending /\
  exists skipped,
    warnings s' = skipped ++ warnings s /\
    (length pending + length skipped
     = length (List.filter is_pending (table s)))%nat.
Proof.
  rewrite fetchPendingCredentials_spec.
  destruct (w_select W (ticks s)); [discriminate|]. intros [= <- <-]. split.
  - apply Forall_forall. intros c Hc. apply list_elem_of_In in Hc.
    apply in_map_iff in Hc as (row & <- & Hrow).
    apply complete_rows_complete in Hrow. unfold incomplete in Hrow.
    apply orb_false_iff in Hrow as [Hrow H3].
    apply orb_false_iff in Hrow as [H1 H2].
    apply negb_false_iff in H1, H2, H3.
    assert (Hc : forall k, In k required_columns ->
                           col (credData_of W v row) k = col row k).
    { intros k Hk. cbn in Hk.
      destruct v; repeat (destruct Hk as [<-|Hk]; [reflexivity|]); destruct Hk. }
    rewrite !Hc by (cbn; tauto).
    assert (Hts : col (credData_of W v row) "token_source"
                  = js_or (col row "token_source") (VStr "auth0"))
      by (destruct v; reflexivity).
    assert (Hrt : col (credData_of W v row) "refresh_token"
                  = js_or (col row "refresh_token") (VStr ""))
      by (destruct v; reflexivity).
    rewrite Hts, Hrt. unfold js_or. repeat split; try assumption.
    + now destruct (truthy (col row "token_source")) eqn:E.
    + destruct (truthy (col row "refresh_token")) eqn:E; [now left | now right].
  - exists (rev (skip_warnings v (pending_rows (table s)))).
    split; [reflexivity|].
    rewrite length_map, length_rev. unfold skip_warnings, complete_rows.
    rewrite length_map.
    rewrite (Nat.add_comm (length (List.filter (fun r => negb (incomplete r)) _))).
    rewrite filter_partition_length.
    apply Permutation_length. apply pending_rows_spec.
Qed.

(** ** The credential id of the CLI transport *)

(** X22: in the three CLI variants the credential id of a successful
    delivery, the one that is then written back, is the UUID the builder
    generated for the template with the first external call of the delivery:
    it is read back from the import file, not from what the import
    printed. *)
Theorem X22_cli_reports_the_generated_id (v : variant) (authToken : jsval)
    (credData : Row) (s : State) (res : Result) (s' : State) :
  v = CliFlag \/ v = CliSingle \/ v = Queue ->
  inject W v authToken credData s = (Ok res, s') ->
  success res = true ->
  credentialId res = VStr (w_uuid W (ticks s)).
Proof.
  intros Hv E Hs.
  assert (Hinj : inject W v authToken credData =
    (credentialTemplate <- createCredentialTemplate W v credData ;;
     executeN8NImport W v (generateCredentialJSON v [credentialTemplate]) credData))
    by (destruct Hv as [->|[->| ->]]; reflexivity).
  rewrite Hinj in E. unfold bind in E.
  assert (Ht : forall t s1,
    createCredentialTemplate W v credData s = (Ok t, s1) ->
    exists fields, t = VObj (("id", VStr (w_uuid W (ticks s))) :: fields)).
  { intros t s1. unfold createCredentialTemplate, randomUUID, new_Date, now_iso,
      tick, ret, throw, bind. cbn [ticks].
    destruct (negb _); [discriminate|].
    destruct v; intros [= <- _]; eexists; reflexivity. }
  destruct (createCredentialTemplate W v credData s) as [[t|e] s1]; [|discriminate].
  destruct (Ht t s1 eq_refl) as (fields & ->).
  exact (executeN8NImport_id v _ fields credData s1 res s' E Hs).
Qed.

(** ** A store that accepts every update *)

Lemma updateCredentialStatus_total v uid prov ts success cid msg details :
  (forall t, w_update W t = None) ->
  total (updateCredentialStatus W v uid prov ts success cid msg details)
        (fun _ => True).
Proof.
  intros Hu s.
  unfold updateCredentialStatus, supabase_update, now_iso, new_Date, emit, tick,
    get_table, set_table, throw, ret, bind.
  destruct success; cbn [ticks table calls warnings]; rewrite Hu;
    do 2 eexists; (split; [reflexivity | exact I]).
Qed.

Lemma process_record_total v authToken credData :
  (forall t, w_update W t = None) ->
  total (process_record W v authToken credData) (fun r => r <> None).
Proof.
  intros Hu. unfold process_record, record_failure. apply total_try_catch.
  - eapply ensures_bind; [apply ensures_any|]. intros res _.
    destruct (success res); [|apply ensures_throw].
    eapply ensures_bind; [apply ensures_any|]. intros _ _.
    now apply ensures_ret.
  - intros e.
    assert (H : total
      (d <- failure_details W v credData ;;
       updateCredentialStatus W v (writeback_user W v credData) (provider credData)
         (writeback_token v credData) false VNull (message e) d ;;;
       ret (Some false)) (fun r : option bool => r <> None)).
    { eapply total_bind with (Q := fun _ => True).
      { intros s. destruct v;
          unfold failure_details, now_iso, new_Date, tick, ret, bind;
          do 2 eexists; (split; [reflexivity | exact I]). }
      intros d _. eapply total_bind; [now apply updateCredentialStatus_total|].
      intros _ _. now apply total_ret. }
    destruct v; try exact H.
    intros s. destruct (H s) as (r & s' & E & Hr).
    exists r, s'. unfold try_catch. now rewrite E.
Qed.

(** X23: as long as the store accepts every update, the record loop of
    every variant goes through all its records, whatever the deliveries do:
    it returns, and its two counters together have grown by the number of
    records.  (A loop stops early only when a write-back fails.) *)
Theorem X23_loop_completes_when_updates_go_through (v : variant)
    (authToken : jsval) (pending : list Row) (sc ec : nat) (s : State) :
  (forall t, w_update W t = None) ->
  exists sc' ec' s',
    process_all W v authToken pending sc ec s = (Ok (sc', ec'), s') /\
    (sc' + ec' = sc + ec + length pending)%nat.
Proof.
  intros Hu. revert sc ec s.
  induction pending as [|c rest IH]; intros sc ec s.
  - exists sc, ec, s. split; [reflexivity | cbn [length]; lia].
  - cbn [process_all length]. unfold bind.
    destruct (process_record_total v authToken c Hu s) as (r & s1 & -> & Hr).
    destruct r as [[|]|]; [| |contradiction].
    + destruct (IH (S sc) ec s1) as (sc' & ec' & s' & E & Hsum).
      exists sc', ec', s'. split; [exact E | lia].
    + destruct (IH sc (S ec) s1) as (sc' & ec' & s' & E & Hsum).
      exists sc', ec', s'. split; [exact E | lia].
Qed.


End Properties.

(** * The claims on concrete inputs *)

(** The flag-based CLI variant on a complete pending row: it writes back. *)
Lemma C1_flag_based_writeback_witness :
  exists new,
    calls (snd (process_record sample_world CliFlag VUndef
                  (credData_of sample_world CliFlag google_row)
                  (initial [google_row]))) = new ++ [] /\
    Exists is_update new.
Proof.
  destruct (C1_flag_based_writeback sample_world CliFlag VUndef
              (credData_of sample_world CliFlag google_row) (initial [google_row]))
    as (new & E & X & _);
    [reflexivity | intros t; discriminate | exists new; split; assumption].
Defined.

(** C1, as stated, fails on the single-record variant: after an import that
    failed, the write-back has recorded the failure, but the row still has
    [injection_requested = true] and [injected_to_n8n = false]: it is still
    pending. *)
Lemma C1_single_record_stays_pending :
  map call_kind (trace (failing_import_world 1) CliSingle [google_row])
    = ["exec"; "writeFile"; "exec"; "unlink"; "update"] /\
  map (fun r => (col r "injected_to_n8n", col r "injection_error",
                 col r "injection_requested"))
      (table (snd (run (failing_import_world 1) CliSingle [google_row])))
    = [(VBool false, VStr "Command failed: n8n import:credentials", VBool true)] /\
  map is_pending (table (snd (run (failing_import_world 1) CliSingle [google_row])))
    = [true].
Proof. vm_compute. repeat split. Qed.

Lemma C2_encrypt_format_witness :
  exists out,
    encrypt sample_world (Some "secret") (VObj scenario_data) (initial [])
      = (Ok out, ticked (initial [])) /\
    slice_to 33 out = "000102030405060708090a0b0c0d0e0f:".
Proof.
  destruct (C2_encrypt_format sample_world "secret" (VObj scenario_data) _
              (initial []) eq_refl eq_refl) as (H & _ & _).
  eexists. split; [exact H | reflexivity].
Defined.

Lemma C3_round_trip_witness :
  exists stored s',
    encrypt sample_world (Some "secret") (VObj scenario_data) (initial [])
      = (Ok stored, s') /\
    decrypt (w_sha256 sample_world) (w_aes_decrypt sample_world) "secret" stored
      = option_map utf8 (JSON_stringify (VObj scenario_data)).
Proof.
  apply (C3_round_trip sample_world "secret" (VObj scenario_data) _ (initial [])
           eq_refl).
  - intros key b _. apply rev_involutive.
  - intros key b H. cbn. now rewrite length_rev.
  - reflexivity.
Defined.

(** The provider ["constructor"] on the flag-based CLI builder. *)
Example C4_constructor_payload :
  fst (build_payload sample_world CliFlag (mkRow "u1" "constructor" ∅) (initial []))
  = Ok (VObj [ ("id", VStr "1b4e28ba-2fa1-41d2-883f-0016d3cca427");
               ("name", VStr "Constructor OAuth2 - 2026-01-01 00:00");
               ("type", VBuiltin "constructor");
               ("data", VObj [ ("clientId", VUndef); ("clientSecret", VUndef);
                               ("accessToken", VUndef); ("refreshToken", VUndef);
                               ("tokenType", VStr "Bearer");
                               ("grantType", VStr "authorizationCode") ]) ]).
Proof. vm_compute. reflexivity. Qed.

Lemma C5_google_scenario_witness :
  exists p s',
    credential_values sample_world (Some "configured") scenario_record (initial [])
      = (Ok p, s') /\
    prepared_type p = VStr "googleOAuth2Api" /\
    prepared_name p = "Google OAuth2 - 2026-01-01 00:00".
Proof.
  destruct (C5_google_scenario sample_world Direct (initial []))
    as (p & s' & encrypted & s1 & s2 & H1 & H2 & H3 & _).
  - vm_compute. discriminate.
  - intros _. exists "configured". split; reflexivity.
  - exists p, s'. split; [exact H1|]. split; [exact H2 | exact H3].
Defined.

(** C5, as stated, fails on the direct-insert variant: the data it builds
    for the scenario record has a seventh field, [oauthTokenData]. *)
Lemma C5_direct_insert_has_seventh_field :
  credential_data Direct scenario_record
    = VObj (scenario_data ++ [scenario_oauthTokenData]) /\
  VObj (scenario_data ++ [scenario_oauthTokenData]) <> VObj scenario_data.
Proof. split; [reflexivity | discriminate]. Qed.



Lemma C7_flag_based_fifo_witness :
  StronglySorted (by_column "injection_requested_at")
    (pending_rows [github_row; google_row]) /\
  omap update_provider (trace sample_world CliFlag [github_row; google_row])
    = ["google"; "github"].
Proof.
  destruct (C7_flag_based_fifo sample_world CliFlag [github_row; google_row] eq_refl)
    as (_ & Hs & _).
  split; [exact Hs | vm_compute; reflexivity].
Defined.

(** C7, as stated, fails on the queue variant, which orders by [created_at]:
    of two pending rows, the one requested later is processed first. *)
Lemma C7_queue_orders_by_created_at :
  map (fun r => (provider r, col r "injection_requested_at", col r "created_at"))
      [google_row; github_row]
    = [("google", VNum 1, VNum 2); ("github", VNum 2, VNum 1)] /\
  map is_pending [google_row; github_row] = [true; true] /\
  omap update_provider (trace sample_world Queue [google_row; github_row])
    = ["github"; "google"].
Proof. vm_compute. repeat split. Qed.


Lemma C10_empty_string_counts_as_missing_witness :
  incomplete empty_token_row = true /\
  fst (validate_rows sample_world CliFlag [empty_token_row; google_row] []
         (initial []))
    = Ok [credData_of sample_world CliFlag google_row].
Proof.
  split.
  - exact (proj1 (C10_empty_string_counts_as_missing sample_world CliFlag
                    empty_token_row [] [] (initial []) "access_token"
                    (or_introl eq_refl) eq_refl)).
  - reflexivity.
Defined.

(** ** Instances of the further properties *)

Lemma X2_unsupported_provider_is_reported_witness :
  exists d,
    calls (snd (process_record sample_world CliFlag VUndef
                  (credData_of sample_world CliFlag twitter_row)
                  (initial [twitter_row])))
    = [CUpdate "u1" "twitter" (Some (VStr "auth0")) d] /\
    d !! "injection_error" = Some (VStr "Unsupported provider: twitter").
Proof.
  destruct (X2_unsupported_provider_is_reported sample_world CliFlag VUndef
              (credData_of sample_world CliFlag twitter_row) (initial [twitter_row]))
    as (d & E & _ & H & _).
  - cbn. intuition discriminate.
  - cbn. intuition discriminate.
  - exists d. split; [exact E | exact H].
Defined.

Lemma X3_loop_counts_every_record_witness :
  fst (process_all sample_world CliFlag VUndef
         [credData_of sample_world CliFlag google_row] 0 0 (initial [google_row]))
    = Ok (1%nat, 0%nat) /\
  (1 + 0 = 0 + 0 + 1)%nat.
Proof.
  split; [vm_compute; reflexivity|].
  destruct (X3_loop_counts_every_record sample_world CliFlag VUndef
              [credData_of sample_world CliFlag google_row] 0 0 (initial [google_row])
              1 0
              (snd (process_all sample_world CliFlag VUndef
                      [credData_of sample_world CliFlag google_row] 0 0
                      (initial [google_row])))) as [_ H].
  - vm_compute. reflexivity.
  - apply H. discriminate.
Defined.

Lemma X4_missing_configuration_stops_the_run_witness :
  run (with_config sample_world (fun _ => None)) CliFlag [google_row]
    = (Ok 1%nat, initial [google_row]).
Proof.
  apply (X4_missing_configuration_stops_the_run
           (with_config sample_world (fun _ => None)) CliFlag [google_row]
           "SUPABASE_URL").
  - discriminate.
  - left. reflexivity.
  - reflexivity.
Defined.

Lemma X5_single_record_always_reports_witness :
  (exists d earlier,
     calls (snd (run sample_world CliSingle [google_row]))
     = CUpdate "u1" "google" None d :: earlier /\
     d !! "injected_to_n8n" = Some (VBool true)) /\
  run (with_config sample_world (fun _ => Some "configured")) CliSingle [google_row]
    = (Ok 1%nat, initial [google_row]).
Proof.
  split.
  - destruct (X5_single_record_always_reports sample_world [google_row]
                eq_refl eq_refl eq_refl eq_refl) as [H _].
    destruct (H eq_refl) as (d & earlier & E & [[_ Hd]|[Hr _]]).
    + exists d, earlier. split; [exact E | exact Hd].
    + vm_compute in Hr. discriminate Hr.
  - destruct (X5_single_record_always_reports
                (with_config sample_world (fun _ => Some "configured"))
                [google_row] eq_refl eq_refl eq_refl eq_refl) as [_ H].
    exact (H _ eq_refl).
Defined.



Lemma X9_refused_login_writes_nothing_witness :
  table (snd (run (with_fetch sample_world (fun _ => inl (Error "ECONNREFUSED")))
                ApiA [google_row])) = [google_row] /\
  fst (run (with_fetch sample_world (fun _ => inl (Error "ECONNREFUSED")))
         ApiA [google_row]) = Ok 1%nat.
Proof.
  destruct (X9_refused_login_writes_nothing
              (with_fetch sample_world (fun _ => inl (Error "ECONNREFUSED")))
              ApiA [google_row]) as (H1 & _ & H3).
  - left. reflexivity.
  - intros t. exact I.
  - split; [exact H1|]. apply H3.
    + intros name Hin. cbn in Hin.
      repeat (destruct Hin as [<-|Hin]; [reflexivity|]). destruct Hin.
    + reflexivity.
    + vm_compute. discriminate.
Defined.

(** A complete pending row without token source: the flag-based CLI
    variant delivers it, and its write-back, filtered by ['auth0'], does not
    reach it; the row is still pending after the run. *)
Lemma X11_write_back_misses_a_row_without_token_source_witness :
  In sourceless_row
     (update_rows "u1" "google"
        (token_filter CliFlag
           (writeback_token CliFlag (record_of sample_world CliFlag sourceless_row)))
        ∅ [sourceless_row]) /\
  map call_kind (trace sample_world CliFlag [sourceless_row])
    = ["exec"; "writeFile"; "exec"; "unlink"; "update"] /\
  map is_pending (table (snd (run sample_world CliFlag [sourceless_row]))) = [true].
Proof.
  split; [|vm_compute; repeat split].
  destruct (X11_write_back_misses_a_row_without_token_source sample_world CliFlag
              sourceless_row) as [H _]; [discriminate|].
  apply H; [reflexivity | left; reflexivity].
Defined.

Lemma X20_insert_reports_what_it_inserted_witness :
  exists values,
    calls (snd (insertCredentialToDatabase sample_world (Some "secret")
                  (credData_of sample_world Direct google_row) (initial [])))
    = [CPgInsert values] /\
    length values = 6%nat.
Proof.
  destruct (X20_insert_reports_what_it_inserted sample_world (Some "secret")
              (credData_of sample_world Direct google_row) (initial [])
              (match fst (insertCredentialToDatabase sample_world (Some "secret")
                            (credData_of sample_world Direct google_row) (initial []))
               with
               | Ok res => res
               | Throw _ => mkResult false VUndef "" VUndef
               end)
              (snd (insertCredentialToDatabase sample_world (Some "secret")
                      (credData_of sample_world Direct google_row) (initial []))))
    as (values & rowCount & E & _ & L & _).
  - vm_compute. reflexivity.
  - vm_compute. reflexivity.
  - exists values. split; [exact E | exact L].
Defined.

Lemma X18_fetched_records_are_complete_witness :
  exists skipped,
    warnings (snd (fetchPendingCredentials sample_world CliFlag
                     (initial [incomplete_row; google_row])))
    = skipped ++ [] /\
    (1 + length skipped = 2)%nat.
Proof.
  destruct (X18_fetched_records_are_complete sample_world CliFlag
              (initial [incomplete_row; google_row])
              [credData_of sample_world CliFlag google_row]
              (snd (fetchPendingCredentials sample_world CliFlag
                      (initial [incomplete_row; google_row]))))
    as (_ & skipped & E & L).
  - vm_compute. reflexivity.
  - exists skipped. split; [exact E | exact L].
Defined.

Lemma X22_cli_reports_the_generated_id_witness :
  credentialId
    (match fst (inject sample_world CliFlag VUndef
                  (credData_of sample_world CliFlag google_row) (initial []))
     with
     | Ok res => res
     | Throw _ => mkResult false VUndef "" VUndef
     end)
  = VStr "1b4e28ba-2fa1-41d2-883f-0016d3cca427".
Proof.
  apply (X22_cli_reports_the_generated_id sample_world CliFlag VUndef
           (credData_of sample_world CliFlag google_row) (initial []) _
           (snd (inject sample_world CliFlag VUndef
                   (credData_of sample_world CliFlag google_row) (initial [])))).
  - left. reflexivity.
  - vm_compute. reflexivity.
  - vm_compute. reflexivity.
Defined.

Lemma X23_loop_completes_when_updates_go_through_witness :
  exists sc' ec' s',
    process_all (failing_import_world 0) CliFlag VUndef
      [credData_of sample_world CliFlag google_row;
       credData_of sample_world CliFlag github_row] 0 0
      (ticked (initial [google_row; github_row]))
    = (Ok (sc', ec'), s') /\
    (sc' + ec' = 2)%nat.
Proof.
  apply (X23_loop_completes_when_updates_go_through (failing_import_world 0)
           CliFlag VUndef
           [credData_of sample_world CliFlag google_row;
            credData_of sample_world CliFlag github_row] 0 0
           (ticked (initial [google_row; github_row]))).
  intros t. reflexivity.
Defined.
